(** * The HTML tokeniser of ttlibv2/abc: character reader, token model,
      tokeniser driver and tokeniser states.

    The development is a shallow embedding of the TypeScript sources
    [parse/CharacterReader.ts], [parse/Token.ts], [parse/Tokeniser.ts],
    [parse/TokeniserState.ts], [nodes/Attributes.ts], [nodes/Attribute.ts],
    [helper/Char.ts], [helper/Helper.ts] and [helper/Assert.ts].

    Conventions of the embedding.
    - A JavaScript string is the list of its UTF-16 code units.  A [Char]
      (the class extending [String] that holds one code unit) is an object:
      the embedding keeps its code unit, and compares it the way the source
      does at each place.  [equals], [in], [charAt], the regular
      expressions and [==] look at the code unit; [===], the labels of a
      [switch] and [Array.prototype.includes] compare references, so a
      [Char] of the reader's buffer is equal to no string and to no [Char]
      allocated elsewhere.
    - [CharacterReader.EOF] is [undefined]; a value that may be EOF is an
      [option Char] and [None] is EOF.  The static constants of
      [TokeniserState] are [nullChar], the one-unit string U+0000,
      [replacementChar], U+FFFD, and [eof], read as [undefined], the value
      of [CharacterReader.EOF] (its initialiser applies [charAt] to that
      value); the two arrays built with [Char.arrayOf], which [Char] does
      not define, are read as the arrays of [Char] objects their type
      declares.
    - Numbers are integers in [Z]; the flyweight cache hash is evaluated in
      binary64 as the source does, every other number stays far below 2^53.
    - A method is a computation in a state-and-exception monad: it either
      returns a value and the mutated object, or throws.  The only loop that
      is not bounded by its data ([Tokeniser.read]) takes fuel and reports
      [Timeout] when the fuel runs out. *)

From Stdlib Require Import ZArith NArith List Bool String Ascii Lia.
From Stdlib Require Import Floats.PrimFloat Floats.FloatOps Floats.SpecFloat.
From Stdlib Require Import Numbers.Cyclic.Int63.Uint63.
From stdpp Require Import base option gmap.
Import ListNotations.

#[local] Open Scope Z_scope.
#[local] Open Scope list_scope.

(** ** JavaScript values and built-ins used by the sources *)

Definition Char : Type := N.
Definition jsstring : Type := list Char.

(** A string literal of the sources (ASCII only). *)
Definition js (s : string) : jsstring := map N_of_ascii (list_ascii_of_string s).

Definition len {A} (l : list A) : Z := Z.of_nat (length l).

Inductive JsError : Type :=
| Error (msg : string)        (* [throw new Error(msg)] *)
| TypeError (what : string).  (* property access or call on undefined *)

(** Outcome of running a method on an object of type [S]. *)
Inductive outcome (S A : Type) : Type :=
| Ret (a : A) (s : S)
| Throw (e : JsError)
| Timeout.
Arguments Ret {S A} a s.
Arguments Throw {S A} e.
Arguments Timeout {S A}.

Definition M (S A : Type) : Type := S -> outcome S A.

Definition ret {S A} (a : A) : M S A := fun s => Ret a s.
Definition bind {S A B} (m : M S A) (k : A -> M S B) : M S B :=
  fun s => match m s with
           | Ret a s' => k a s'
           | Throw e => Throw e
           | Timeout => Timeout
           end.
Definition throw {S A} (e : JsError) : M S A := fun _ => Throw e.
Definition get {S} : M S S := fun s => Ret s s.
Definition gets {S A} (f : S -> A) : M S A := fun s => Ret (f s) s.
Definition modify {S} (f : S -> S) : M S unit := fun s => Ret tt (f s).

(** Run a method of a field (of type [T]) inside its owner (of type [S]). *)
Definition zoom {S T A} (proj : S -> T) (upd : T -> S -> S) (m : M T A) : M S A :=
  fun s => match m (proj s) with
           | Ret a t => Ret a (upd t s)
           | Throw e => Throw e
           | Timeout => Timeout
           end.

Declare Scope js_scope.
Delimit Scope js_scope with js.
Notation "x <- m ;; k" := (bind m (fun x => k))
  (at level 100, m at next level, right associativity) : js_scope.
Notation "m ;; k" := (bind m (fun _ => k))
  (at level 100, right associativity) : js_scope.
#[local] Open Scope js_scope.

Definition when {S} (b : bool) (m : M S unit) : M S unit := if b then m else ret tt.

(** [Array.prototype.slice(begin, end)]. *)
Definition slice {A} (l : list A) (b e : Z) : list A :=
  let n := len l in
  let k := if b <? 0 then Z.max (n + b) 0 else Z.min b n in
  let final := if e <? 0 then Z.max (n + e) 0 else Z.min e n in
  firstn (Z.to_nat (final - k)) (skipn (Z.to_nat k) l).

(** [Array.prototype.slice(begin)]. *)
Definition slice_from {A} (l : list A) (b : Z) : list A := slice l b (len l).

(** [Array.prototype.join(sep)] on an array of [Char]. *)
Fixpoint join (sep : jsstring) (l : list Char) : jsstring :=
  match l with
  | [] => []
  | [c] => [c]
  | c :: rest => c :: sep ++ join sep rest
  end.

(** [Array.prototype.findIndex]: -1 when no element satisfies [p]. *)
Fixpoint findIndex {A} (p : A -> bool) (l : list A) : Z :=
  match l with
  | [] => -1
  | x :: rest => if p x then 0 else
                   let i := findIndex p rest in
                   if i =? -1 then -1 else i + 1
  end.

(** [l[i]], [undefined] outside the array. *)
Definition at_index {A} (l : list A) (i : Z) : option A :=
  if i <? 0 then None else nth_error l (Z.to_nat i).

(** [array.includes(s)] on an array of strings of one code unit. *)
Definition includes (l : list Char) (c : Char) : bool := existsb (N.eqb c) l.

(** The values that meet in a comparison of the sources: [undefined], a
    primitive string, and a [Char] object.  Each [VChar] stands for an
    allocation of its own: the left operand of the comparisons below is an
    element of the reader's buffer (allocated by the constructor, one
    [Char.valueOf] for each code unit), the right operand is a literal, a
    static constant or an array built by the caller. *)
Inductive jsval : Type :=
| VUndefined
| VString (s : list Char)
| VChar (c : Char).

(** [a === b], also the test of a [switch] label and of
    [Array.prototype.includes]: primitives by value, objects by reference. *)
Definition strictEquals (a b : jsval) : bool :=
  match a, b with
  | VUndefined, VUndefined => true
  | VString s, VString s' => if decide (s = s') then true else false
  | _, _ => false
  end.

(** [a == b]: as [===], but an object that meets a string is first turned
    into its primitive value. *)
Definition looseEquals (a b : jsval) : bool :=
  match a, b with
  | VUndefined, VUndefined => true
  | VString s, VString s' => if decide (s = s') then true else false
  | VChar c, VString s | VString s, VChar c => if decide ([c] = s) then true else false
  | _, _ => false
  end.

Fixpoint starts_with (pre s : jsstring) : bool :=
  match pre, s with
  | [], _ => true
  | p :: pre', c :: s' => N.eqb p c && starts_with pre' s'
  | _ :: _, [] => false
  end.

Fixpoint indexOf_scan (search s : jsstring) (k : Z) : Z :=
  if starts_with search s then k else
    match s with
    | [] => -1
    | _ :: s' => indexOf_scan search s' (k + 1)
    end.

(** [String.prototype.indexOf(search, from)]. *)
Definition indexOf (s search : jsstring) (from : Z) : Z :=
  let p := Z.min (Z.max from 0) (len s) in
  indexOf_scan search (skipn (Z.to_nat p) s) p.

Definition jsstring_eqb (a b : jsstring) : bool :=
  if decide (a = b) then true else false.

(** [String.prototype.replace(pattern, by)] with a one-character string
    pattern: only the first occurrence is replaced. *)
Fixpoint replace_first (pat : Char) (by_ : jsstring) (s : jsstring) : jsstring :=
  match s with
  | [] => []
  | c :: rest => if N.eqb c pat then by_ ++ rest else c :: replace_first pat by_ rest
  end.

(** White space and line terminators removed by [String.prototype.trim]. *)
Definition is_js_space (c : Char) : bool :=
  let z := Z.of_N c in
  ((9 <=? z) && (z <=? 13)) || (z =? 32) || (z =? 160) || (z =? 5760)
  || ((8192 <=? z) && (z <=? 8202)) || (z =? 8232) || (z =? 8233)
  || (z =? 8239) || (z =? 8287) || (z =? 12288) || (z =? 65279).

Fixpoint trim_start (s : jsstring) : jsstring :=
  match s with
  | c :: rest => if is_js_space c then trim_start rest else s
  | [] => []
  end.

Definition trim (s : jsstring) : jsstring := rev (trim_start (rev (trim_start s))).

(** The ASCII part of [toLowerCase] and [toUpperCase]; code units outside
    ASCII are left as they are. *)
Definition lower_char (c : Char) : Char :=
  if ((65 <=? c) && (c <=? 90))%N then (c + 32)%N else c.
Definition upper_char (c : Char) : Char :=
  if ((97 <=? c) && (c <=? 122))%N then (c - 32)%N else c.
Definition toLowerCase (s : jsstring) : jsstring := map lower_char s.
Definition toUpperCase (s : jsstring) : jsstring := map upper_char s.

(** A character literal of the sources. *)
Definition C (a : ascii) : Char := N_of_ascii a.
Arguments C a%_char.

Definition dquote : Char := 34%N.   (* the double quote *)

(** Binary64 arithmetic of the hash in [cacheString]. *)
Definition float_of_Z (z : Z) : float := PrimFloat.of_uint63 (Uint63.of_Z z).

Definition Z_of_float (f : float) : Z :=
  match Prim2SF f with
  | S754_finite s m e =>
      let a := if 0 <=? e then Z.shiftl (Z.pos m) e else Z.shiftr (Z.pos m) (- e) in
      if s then - a else a
  | _ => 0
  end.

(** [ToInt32], applied to the operands of [&]. *)
Definition ToInt32 (z : Z) : Z := (z + 2 ^ 31) mod 2 ^ 32 - 2 ^ 31.

(** ** helper/Char.ts and helper/Helper.ts *)

Module CharM.
Definition NULL : Char := 0%N.
Definition charCode (c : Char) : Z := Z.of_N c.
Definition equals (a b : Char) : bool := N.eqb a b.
(** [in(array)] *)
Definition in_ (c : Char) (array : list Char) : bool := includes array c.
End CharM.

Module Helper.
Definition isLetter (c : Char) : bool :=
  (((97 <=? c) && (c <=? 122)) || ((65 <=? c) && (c <=? 90)))%N.
Definition isDigit (c : Char) : bool := ((48 <=? c) && (c <=? 57))%N.
(** the test [/^[0-9a-fA-F]/] of [consumeHexSequence] *)
Definition isHex (c : Char) : bool :=
  (isDigit c || ((97 <=? c) && (c <=? 102)) || ((65 <=? c) && (c <=? 70)))%N.
(** [isEmpty] on a string or [null] *)
Definition isEmpty (o : option jsstring) : bool :=
  match o with None => true | Some s => len s =? 0 end.
Definition equalsIgnoreCase (lhs rhs : option jsstring) : bool :=
  if decide (lhs = rhs) then true
  else jsstring_eqb (toLowerCase (default [] lhs)) (toLowerCase (default [] rhs)).
End Helper.

Module Assert.
Definition isFalse {S} (b : bool) : M S unit :=
  if negb b then ret tt else throw (Error "must be false").
End Assert.

(** ** parse/CharacterReader.ts *)

Module CharacterReader.

Definition maxStringCacheLen : Z := 12.
Definition stringCacheSize : Z := 512.

(** The fields [reader], [charBuf] and [bufLength] are set by the
    constructor from the input and never assigned again: [charBuf] holds
    the code units of the input, [reader] is the same text and [bufLength]
    is its length.  [readerPos] stays 0.  [stringCache] is the array of
    512 slots, a slot that was never written is [undefined]. *)
Record t : Type := mk {
  stringCache : gmap Z jsstring;
  charBuf : list Char;
  bufPos : Z;
  bufMark : Z;
}.

Definition bufLength (r : t) : Z := len (charBuf r).

Definition new (input : jsstring) : t :=
  {| stringCache := ∅; charBuf := input; bufPos := 0; bufMark := -1 |}.

Definition set_bufPos (p : Z) (r : t) : t :=
  {| stringCache := stringCache r; charBuf := charBuf r; bufPos := p; bufMark := bufMark r |}.
Definition set_bufMark (p : Z) (r : t) : t :=
  {| stringCache := stringCache r; charBuf := charBuf r; bufPos := bufPos r; bufMark := p |}.
Definition set_stringCache (c : gmap Z jsstring) (r : t) : t :=
  {| stringCache := c; charBuf := charBuf r; bufPos := bufPos r; bufMark := bufMark r |}.

(** *** The flyweight string cache *)

(** [Array(count).fill(1).map((_, i) => charBuf[start + i])]; [None] when
    some element is [undefined]. *)
Fixpoint range_chars (charBuf : list Char) (start : Z) (count : nat) : option (list Char) :=
  match count with
  | O => Some []
  | S n => match at_index charBuf start, range_chars charBuf (start + 1) n with
           | Some c, Some rest => Some (c :: rest)
           | _, _ => None
           end
  end.

(** [.reduce((v, c) => 31 * v + c.charCode, 0)] *)
Definition hash_of (chars : list Char) : float :=
  fold_left (fun v c => PrimFloat.add (PrimFloat.mul (float_of_Z 31) v)
                                      (float_of_Z (CharM.charCode c)))
            chars (float_of_Z 0).

Fixpoint rangeEquals_loop (charBuf : list Char) (i : Z) (cached : jsstring) : option bool :=
  match cached with
  | [] => Some true
  | d :: rest =>
      match at_index charBuf i with
      | None => None
      | Some c => if CharM.equals c d then rangeEquals_loop charBuf (i + 1) rest
                  else Some false
      end
  end.

(** [static rangeEquals(charBuf, start, count, cached)] *)
Definition rangeEquals {S} (charBuf : list Char) (start count : Z) (cached : jsstring)
  : M S bool :=
  if count =? len cached then
    match rangeEquals_loop charBuf start cached with
    | Some b => ret b
    | None => throw (TypeError "equals of undefined")
    end
  else ret false.

(** [static cacheString(charBuf, stringCache, start, count)]; the state is
    the [stringCache] array, which the method writes. *)
Definition cacheString (charBuf : list Char) (start count : Z)
  : M (gmap Z jsstring) jsstring :=
  if count >? maxStringCacheLen then ret (join [] (slice charBuf start count))
  else if count <? 1 then ret []
  else
    match range_chars charBuf start (Z.to_nat count) with
    | None => throw (TypeError "charCode of undefined")
    | Some chars =>
        let hash := Z_of_float (hash_of chars) in
        let index := Z.land (ToInt32 hash) (ToInt32 (stringCacheSize - 1)) in
        cached <- gets (fun c : gmap Z jsstring => c !! index) ;;
        hit <- match cached with
               | None => ret false
               | Some s => rangeEquals charBuf start count s
               end ;;
        match cached, hit with
        | Some s, true => ret s
        | _, _ =>
            let fresh := join (js ",") (slice charBuf start count) in
            modify (fun c : gmap Z jsstring => <[index := fresh]> c) ;;
            ret fresh
        end
    end.

Definition cache (charBuf : list Char) (start count : Z) : M t jsstring :=
  zoom stringCache set_stringCache (cacheString charBuf start count).

(** *** Cursor operations *)

Definition pos : M t Z := gets bufPos.

Definition isEmpty : M t bool := gets (fun r => bufLength r <=? bufPos r).
Definition isEmptyNoBufferUp : M t bool := isEmpty.
Definition getAtPos : M t (option Char) := gets (fun r => at_index (charBuf r) (bufPos r)).

Definition current : M t (option Char) :=
  e <- isEmptyNoBufferUp ;;
  if e then ret None else getAtPos.

Definition consume : M t (option Char) :=
  e <- isEmptyNoBufferUp ;;
  val <- (if e then ret None else getAtPos) ;;
  modify (fun r => set_bufPos (bufPos r + 1) r) ;;
  ret val.

Definition unconsume : M t unit :=
  p <- gets bufPos ;;
  if p <? 1 then throw (Error "WTF: No buffer left to unconsume.")
  else modify (set_bufPos (p - 1)).

Definition advance : M t unit := modify (fun r => set_bufPos (bufPos r + 1) r).

(** The body of [mark] is commented out in the source. *)
Definition mark : M t unit := ret tt.

Definition unmark : M t unit := modify (set_bufMark (-1)).

Definition rewindToMark : M t unit :=
  m <- gets bufMark ;;
  if m =? -1 then throw (Error "Mark invalid")
  else (modify (set_bufPos m) ;; unmark).

(** [nextIndexOf(c)]; a [Char] argument is passed as its one-unit string. *)
Definition nextIndexOf (seq : jsstring) : M t Z :=
  r <- get ;;
  let index := indexOf (charBuf r) seq (bufPos r) in
  ret (if index =? -1 then -1 else index - bufPos r).

Definition consumeToEnd : M t jsstring :=
  r <- get ;;
  data <- cache (charBuf r) (bufPos r) (bufLength r - bufPos r) ;;
  modify (set_bufPos (bufLength r)) ;;
  ret data.

(** [consumeTo(c)]; for a [Char] argument the tests [Char.isChar(c)] and
    [c.length === 1] agree. *)
Definition consumeTo (seq : jsstring) : M t jsstring :=
  offset <- nextIndexOf seq ;;
  r <- get ;;
  if negb (offset =? -1) then
    consumed <- cache (charBuf r) (bufPos r) offset ;;
    modify (set_bufPos (bufPos r + offset)) ;;
    ret consumed
  else if (len seq =? 1) || (bufLength r - bufPos r <? len seq) then
    consumeToEnd
  else
    let endPos := bufLength r - len seq + 1 in
    consumed <- cache (charBuf r) (bufPos r) (endPos - bufPos r) ;;
    modify (set_bufPos endPos) ;;
    ret consumed.

Definition returnConsume (index : Z) : M t jsstring :=
  r <- get ;;
  let pos := bufPos r in
  modify (set_bufPos (pos + Z.max index 0)) ;;
  if index =? -1 then ret [] else cache (charBuf r) pos index.

(** [this.returnConsume(this.charBuf.slice(this.bufPos).findIndex(p))] *)
Definition consumeUntil (p : Char -> bool) : M t jsstring :=
  r <- get ;;
  returnConsume (findIndex p (slice_from (charBuf r) (bufPos r))).

(** [findIndex((ch) => chars.includes(ch))]: [ch] is the object in the
    buffer and [includes] compares references. *)
Definition consumeToAny (chars : list jsval) : M t jsstring :=
  consumeUntil (fun ch => existsb (strictEquals (VChar ch)) chars).

Definition consumeToAnySorted (chars : list jsval) : M t jsstring := consumeToAny chars.

(** [consumeToAny([Char.valueOf('&'), Char.valueOf('<'), Char.NULL])] *)
Definition consumeData : M t jsstring :=
  consumeToAny [VChar (C "&"); VChar (C "<"); VChar CharM.NULL].

(** [ch.equals('&') || ch === Char.NULL], then the quote by [equals] *)
Definition consumeAttributeQuoted (single : bool) : M t jsstring :=
  consumeUntil (fun ch =>
    if CharM.equals ch (C "&") || strictEquals (VChar ch) (VChar CharM.NULL) then true
    else if CharM.equals ch (C "'") && single then true
    else if CharM.equals ch dquote && negb single then true
    else false).

(** [ch.equals('<') || ch === Char.NULL] *)
Definition consumeRawData : M t jsstring :=
  consumeUntil (fun ch => CharM.equals ch (C "<")
                          || strictEquals (VChar ch) (VChar CharM.NULL)).

(** the array ['\t', '\n', '\r', '\f', ' ', '/', '>', '<'] *)
Definition tagNameChars : list Char := [9; 10; 13; 12; 32; 47; 62; 60]%N.

Definition consumeTagName : M t jsstring :=
  consumeUntil (fun ch => CharM.in_ ch tagNameChars).

Definition consumeLetterSequence : M t jsstring :=
  consumeUntil (fun ch => negb (Helper.isLetter ch)).

Definition consumeDigitSequence : M t jsstring :=
  consumeUntil (fun ch => negb (Helper.isDigit ch)).

Definition consumeLetterThenDigitSequence : M t jsstring :=
  r <- get ;;
  let pos := bufPos r in
  let index := findIndex (fun ch => negb (Helper.isLetter ch)) (slice_from (charBuf r) pos) in
  modify (set_bufPos (pos + Z.max index 0)) ;;
  e <- isEmptyNoBufferUp ;;
  when (negb e)
    (r1 <- get ;;
     let index := findIndex (fun ch => negb (Helper.isDigit ch))
                            (slice_from (charBuf r1) (bufPos r1)) in
     modify (set_bufPos (bufPos r1 + Z.max index 0))) ;;
  r2 <- get ;;
  cache (charBuf r2) pos (bufPos r2 - pos).

Definition consumeHexSequence : M t jsstring :=
  consumeUntil (fun ch => negb (Helper.isHex ch)).

(** [!seq.split('').some((ch, i) => !charBuf[pos + i].equals(ch))];
    [None] when the array element is [undefined]. *)
Fixpoint all_equal_at (charBuf : list Char) (pos : Z) (seq : jsstring) : option bool :=
  match seq with
  | [] => Some true
  | ch :: rest =>
      match at_index charBuf pos with
      | None => None
      | Some c => if CharM.equals c ch then all_equal_at charBuf (pos + 1) rest
                  else Some false
      end
  end.

Definition matchesSeq (seq : jsstring) : M t bool :=
  r <- get ;;
  if bufLength r - bufPos r <? len seq then ret false
  else match all_equal_at (charBuf r) (bufPos r) seq with
       | Some b => ret b
       | None => throw (TypeError "equals of undefined")
       end.

(** [matches(c)] with a [Char] argument *)
Definition matchesChar (c : Char) : M t bool :=
  e <- isEmpty ;;
  if e then ret false
  else (a <- getAtPos ;; ret (match a with Some x => CharM.equals c x | None => false end)).

(** [matches(c)] with a string argument *)
Definition matches (seq : jsstring) : M t bool := matchesSeq seq.

Definition matchesIgnoreCase (seq : jsstring) : M t bool := matchesSeq seq.

(** [matchesAny(...seq)] with [Char] arguments: [seq.some((ch) =>
    ch.equals(c))] *)
Definition matchesAny (seq : list Char) : M t bool :=
  e <- isEmpty ;;
  if e then ret false
  else (a <- getAtPos ;;
        ret (match a with Some c => existsb (fun ch => CharM.equals ch c) seq | None => false end)).

(** [matchesAny(...seq)] with string arguments: a string has no method
    [equals], so the first call [ch.equals(c)] throws. *)
Definition matchesAnyString (seq : list jsstring) : M t bool :=
  e <- isEmpty ;;
  if e then ret false
  else match seq with
       | [] => ret false
       | _ :: _ => throw (TypeError "ch.equals is not a function")
       end.

Definition matchesAnySorted (seq : list Char) : M t bool :=
  a <- getAtPos ;;
  e <- isEmpty ;;
  ret (negb e && match a with Some c => existsb (fun ch => CharM.equals ch c) seq | None => false end).

Definition matchesLetter : M t bool :=
  e <- isEmpty ;;
  if e then ret false
  else (a <- getAtPos ;; ret (match a with Some c => Helper.isLetter c | None => false end)).

Definition matchesDigit : M t bool :=
  e <- isEmpty ;;
  if e then ret false
  else (a <- getAtPos ;; ret (match a with Some c => Helper.isDigit c | None => false end)).

Definition matchConsume (seq : jsstring) : M t bool :=
  b <- matchesIgnoreCase seq ;;
  if b then (modify (fun r => set_bufPos (bufPos r + len seq) r) ;; ret true)
  else ret false.

Definition containsIgnoreCase (seq : jsstring) : M t bool :=
  let loScan := toLowerCase seq in
  let hiScan := toUpperCase seq in
  a <- nextIndexOf loScan ;;
  if -1 <? a then ret true
  else (b <- nextIndexOf hiScan ;; ret (-1 <? b)).

Definition toString : M t jsstring :=
  r <- get ;;
  if bufLength r - bufPos r <? 0 then ret []
  else ret (join [] (slice (charBuf r) (bufPos r) (bufLength r - bufPos r))).

(** The class has no method [matchConsumeIgnoreCase]: in the states'
    calls [r.matchConsumeIgnoreCase(seq)] the callee is [undefined] and the
    call throws. *)
Definition matchConsumeIgnoreCase (seq : jsstring) : M t bool :=
  throw (TypeError "r.matchConsumeIgnoreCase is not a function").

End CharacterReader.


(** ** nodes/Attribute.ts and nodes/Attributes.ts *)

Module Attribute.
(** [parent] is a back reference that the tokeniser never reads. *)
Record t : Type := mk { key : jsstring; val : jsstring }.

(** [constructor(key, val)]: [this.key = key.trim(); this.val = val || ''] *)
Definition new (key : jsstring) (val : jsstring) : t :=
  {| key := trim key; val := val |}.
Definition get_key (a : t) : jsstring := key a.
Definition get_val (a : t) : jsstring := val a.
End Attribute.

Module Attributes.
(** The private array [attributes]. *)
Definition t : Type := list Attribute.t.

Definition new : t := [].
Definition length (a : t) : Z := len a.

(** The template literal [`${value}`] applied to a string or [null]. *)
Definition template (value : option jsstring) : jsstring :=
  match value with
  | Some s => s
  | None => js "null"
  end.

(** [add(name, value)]: [this.attributes.push(this.createAttr(name, `${value}`))] *)
Definition add (name : jsstring) (value : option jsstring) (a : t) : t :=
  a ++ [Attribute.new name (template value)].
End Attributes.

(** ** parse/Token.ts *)

(** Modelled from the spec: [helper/StringBuilder.ts] is not among the
    sources.  A builder is the text accumulated in an "accumulation
    buffer": [append] adds text at the end, [length] counts its code units,
    [delete(0, length)] empties it and [toString] returns the text. *)
Module StringBuilder.
Definition t : Type := jsstring.
Definition new : t := [].
Definition length (sb : t) : Z := len sb.
Definition append (s : jsstring) (sb : t) : t := sb ++ s.
Definition toString (sb : t) : jsstring := sb.
End StringBuilder.

Definition replacementChar : Char := 65533%N.   (* U+FFFD *)
Definition replacementStr : jsstring := [replacementChar].
Definition nullChar : Char := CharM.NULL.

Module Tag.
Definition MaxAttributes : Z := 512.

(** [null] and [undefined] are not told apart by the class ([!= null],
    [Helper.isNull]); both are [None].  [normalName], a lower-cased copy
    of [tagName] made by [Normalizer] (not among the sources), is never
    read by the tokeniser and is left out. *)
Record t : Type := mk {
  tagName : option jsstring;
  pendingAttributeName : option jsstring;
  pendingAttributeValue : StringBuilder.t;
  pendingAttributeValueS : option jsstring;
  hasEmptyAttributeValue : bool;
  hasPendingAttributeValue : bool;
  selfClosing : bool;
  attributes : option Attributes.t;
}.

(** A tag object as constructed. *)
Definition new : t :=
  {| tagName := None; pendingAttributeName := None;
     pendingAttributeValue := StringBuilder.new; pendingAttributeValueS := None;
     hasEmptyAttributeValue := false; hasPendingAttributeValue := false;
     selfClosing := false; attributes := None |}.

Definition reset : M t unit := modify (fun _ => new).

Definition set_tagName_field (n : option jsstring) (g : t) : t :=
  {| tagName := n; pendingAttributeName := pendingAttributeName g;
     pendingAttributeValue := pendingAttributeValue g;
     pendingAttributeValueS := pendingAttributeValueS g;
     hasEmptyAttributeValue := hasEmptyAttributeValue g;
     hasPendingAttributeValue := hasPendingAttributeValue g;
     selfClosing := selfClosing g; attributes := attributes g |}.
Definition set_pendingAttributeName (n : option jsstring) (g : t) : t :=
  {| tagName := tagName g; pendingAttributeName := n;
     pendingAttributeValue := pendingAttributeValue g;
     pendingAttributeValueS := pendingAttributeValueS g;
     hasEmptyAttributeValue := hasEmptyAttributeValue g;
     hasPendingAttributeValue := hasPendingAttributeValue g;
     selfClosing := selfClosing g; attributes := attributes g |}.
Definition set_pendingAttributeValue (b : StringBuilder.t) (g : t) : t :=
  {| tagName := tagName g; pendingAttributeName := pendingAttributeName g;
     pendingAttributeValue := b;
     pendingAttributeValueS := pendingAttributeValueS g;
     hasEmptyAttributeValue := hasEmptyAttributeValue g;
     hasPendingAttributeValue := hasPendingAttributeValue g;
     selfClosing := selfClosing g; attributes := attributes g |}.
Definition set_pendingAttributeValueS (v : option jsstring) (g : t) : t :=
  {| tagName := tagName g; pendingAttributeName := pendingAttributeName g;
     pendingAttributeValue := pendingAttributeValue g;
     pendingAttributeValueS := v;
     hasEmptyAttributeValue := hasEmptyAttributeValue g;
     hasPendingAttributeValue := hasPendingAttributeValue g;
     selfClosing := selfClosing g; attributes := attributes g |}.
Definition set_hasEmptyAttributeValue (b : bool) (g : t) : t :=
  {| tagName := tagName g; pendingAttributeName := pendingAttributeName g;
     pendingAttributeValue := pendingAttributeValue g;
     pendingAttributeValueS := pendingAttributeValueS g;
     hasEmptyAttributeValue := b;
     hasPendingAttributeValue := hasPendingAttributeValue g;
     selfClosing := selfClosing g; attributes := attributes g |}.
Definition set_hasPendingAttributeValue (b : bool) (g : t) : t :=
  {| tagName := tagName g; pendingAttributeName := pendingAttributeName g;
     pendingAttributeValue := pendingAttributeValue g;
     pendingAttributeValueS := pendingAttributeValueS g;
     hasEmptyAttributeValue := hasEmptyAttributeValue g;
     hasPendingAttributeValue := b;
     selfClosing := selfClosing g; attributes := attributes g |}.
Definition set_selfClosing (b : bool) (g : t) : t :=
  {| tagName := tagName g; pendingAttributeName := pendingAttributeName g;
     pendingAttributeValue := pendingAttributeValue g;
     pendingAttributeValueS := pendingAttributeValueS g;
     hasEmptyAttributeValue := hasEmptyAttributeValue g;
     hasPendingAttributeValue := hasPendingAttributeValue g;
     selfClosing := b; attributes := attributes g |}.
Definition set_attributes (a : option Attributes.t) (g : t) : t :=
  {| tagName := tagName g; pendingAttributeName := pendingAttributeName g;
     pendingAttributeValue := pendingAttributeValue g;
     pendingAttributeValueS := pendingAttributeValueS g;
     hasEmptyAttributeValue := hasEmptyAttributeValue g;
     hasPendingAttributeValue := hasPendingAttributeValue g;
     selfClosing := selfClosing g; attributes := a |}.

(** The value handed to [attributes.add] by [newAttribute]. *)
Definition pendingValue (g : t) : option jsstring :=
  if hasPendingAttributeValue g then
    if 0 <? StringBuilder.length (pendingAttributeValue g)
    then Some (StringBuilder.toString (pendingAttributeValue g))
    else pendingAttributeValueS g
  else if hasEmptyAttributeValue g then Some []
  else None.

Definition newAttribute : M t unit :=
  g0 <- get ;;
  when (match attributes g0 with None => true | Some _ => false end)
       (modify (set_attributes (Some Attributes.new))) ;;
  g <- get ;;
  match pendingAttributeName g, attributes g with
  | Some name, Some attrs =>
      when (Attributes.length attrs <? MaxAttributes)
        (let name := trim name in
         modify (set_pendingAttributeName (Some name)) ;;
         when (0 <? len name)
           (modify (set_attributes (Some (Attributes.add name (pendingValue g) attrs)))))
  | _, _ => ret tt
  end ;;
  modify (set_pendingAttributeName None) ;;
  modify (set_hasEmptyAttributeValue false) ;;
  modify (set_hasPendingAttributeValue false) ;;
  modify (set_pendingAttributeValue StringBuilder.new) ;;
  modify (set_pendingAttributeValueS None).

Definition hasAttributes (g : t) : bool :=
  match attributes g with Some _ => true | None => false end.

Definition finaliseTag : M t unit :=
  g <- get ;;
  match pendingAttributeName g with
  | Some _ => newAttribute
  | None => ret tt
  end.

Definition get_tagName : M t jsstring :=
  g <- get ;;
  Assert.isFalse (Helper.isEmpty (tagName g)) ;;
  match tagName g with
  | Some n => ret n
  | None => throw (Error "must be false")
  end.

Definition set_tagName (name : option jsstring) : M t unit :=
  modify (set_tagName_field name).

Definition appendTagName (append : jsstring) : M t unit :=
  let append := replace_first nullChar replacementStr append in
  modify (fun g => set_tagName_field
                     (Some (match tagName g with
                            | None => append
                            | Some n => n ++ append
                            end)) g).

Definition appendAttributeName (append : jsstring) : M t unit :=
  let append := replace_first nullChar replacementStr append in
  modify (fun g => set_pendingAttributeName
                     (Some (match pendingAttributeName g with
                            | None => append
                            | Some n => n ++ append
                            end)) g).

Definition ensureAttributeValue : M t unit :=
  modify (set_hasPendingAttributeValue true) ;;
  g <- get ;;
  match pendingAttributeValueS g with
  | Some s =>
      modify (set_pendingAttributeValue (StringBuilder.append s (pendingAttributeValue g))) ;;
      modify (set_pendingAttributeValueS None)
  | None => ret tt
  end.

(** [appendAttributeValue(append: string)] *)
Definition appendAttributeValue (append : jsstring) : M t unit :=
  ensureAttributeValue ;;
  g <- get ;;
  if StringBuilder.length (pendingAttributeValue g) =? 0
  then modify (set_pendingAttributeValueS (Some append))
  else modify (set_pendingAttributeValue (StringBuilder.append append (pendingAttributeValue g))).

(** [appendAttributeValue(append: string[])], the overload that takes the
    result of [consumeCharacterReference]. *)
Definition appendAttributeValueArray (append : list jsstring) : M t unit :=
  ensureAttributeValue ;;
  modify (fun g => set_pendingAttributeValue
                     (StringBuilder.append (concat append) (pendingAttributeValue g)) g).

Definition setEmptyAttributeValue : M t unit := modify (set_hasEmptyAttributeValue true).
End Tag.

Module Comment.
Record t : Type := mk { data : StringBuilder.t; dataS : option jsstring; bogus : bool }.
Definition new : t := {| data := StringBuilder.new; dataS := None; bogus := false |}.
Definition reset : M t unit := modify (fun _ => new).
Definition set_bogus (b : bool) (c : t) : t := {| data := data c; dataS := dataS c; bogus := b |}.

Definition getData (c : t) : jsstring :=
  match dataS c with
  | Some s => s
  | None => StringBuilder.toString (data c)
  end.

Definition ensureData : M t unit :=
  c <- get ;;
  match dataS c with
  | Some s => modify (fun c => {| data := StringBuilder.append s (data c); dataS := None;
                                  bogus := bogus c |})
  | None => ret tt
  end.

Definition append (a : jsstring) : M t unit :=
  ensureData ;;
  c <- get ;;
  if StringBuilder.length (data c) =? 0
  then modify (fun c => {| data := data c; dataS := Some a; bogus := bogus c |})
  else modify (fun c => {| data := StringBuilder.append a (data c); dataS := dataS c;
                           bogus := bogus c |}).
End Comment.

Module Doctype.
Record t : Type := mk {
  pubSysKey : option jsstring;
  forceQuirks : bool;
  name : StringBuilder.t;
  publicIdentifier : StringBuilder.t;
  systemIdentifier : StringBuilder.t;
}.
Definition new : t :=
  {| pubSysKey := None; forceQuirks := false; name := StringBuilder.new;
     publicIdentifier := StringBuilder.new; systemIdentifier := StringBuilder.new |}.
Definition reset : M t unit := modify (fun _ => new).
Definition set_pubSysKey (k : option jsstring) (d : t) : t :=
  {| pubSysKey := k; forceQuirks := forceQuirks d; name := name d;
     publicIdentifier := publicIdentifier d; systemIdentifier := systemIdentifier d |}.
Definition set_forceQuirks (b : bool) (d : t) : t :=
  {| pubSysKey := pubSysKey d; forceQuirks := b; name := name d;
     publicIdentifier := publicIdentifier d; systemIdentifier := systemIdentifier d |}.
Definition append_name (s : jsstring) (d : t) : t :=
  {| pubSysKey := pubSysKey d; forceQuirks := forceQuirks d;
     name := StringBuilder.append s (name d);
     publicIdentifier := publicIdentifier d; systemIdentifier := systemIdentifier d |}.
Definition append_publicIdentifier (s : jsstring) (d : t) : t :=
  {| pubSysKey := pubSysKey d; forceQuirks := forceQuirks d; name := name d;
     publicIdentifier := StringBuilder.append s (publicIdentifier d);
     systemIdentifier := systemIdentifier d |}.
Definition append_systemIdentifier (s : jsstring) (d : t) : t :=
  {| pubSysKey := pubSysKey d; forceQuirks := forceQuirks d; name := name d;
     publicIdentifier := publicIdentifier d;
     systemIdentifier := StringBuilder.append s (systemIdentifier d) |}.
End Doctype.

(** The value of a token object at the moment [read] returns it. *)
Inductive Token : Type :=
| DoctypeToken (d : Doctype.t)
| StartTag (g : Tag.t)
| EndTag (g : Tag.t)
| CommentToken (c : Comment.t)
| Character (data : option jsstring)
| CData (data : option jsstring)
| EOF.

(** ** parse/TokeniserState.ts: the names of the states *)

Module TokeniserState.
Inductive t : Type :=
| Data | CharacterReferenceInData | Rcdata | CharacterReferenceInRcdata
| Rawtext | ScriptData | PLAINTEXT | TagOpen | EndTagOpen | TagName
| RcdataLessthanSign | RCDATAEndTagOpen | RCDATAEndTagName
| RawtextLessthanSign | RawtextEndTagOpen | RawtextEndTagName
| ScriptDataLessthanSign | ScriptDataEndTagOpen | ScriptDataEndTagName
| ScriptDataEscapeStart | ScriptDataEscapeStartDash | ScriptDataEscaped
| ScriptDataEscapedDash | ScriptDataEscapedDashDash
| ScriptDataEscapedLessthanSign | ScriptDataEscapedEndTagOpen
| ScriptDataEscapedEndTagName | ScriptDataDoubleEscapeStart
| ScriptDataDoubleEscaped | ScriptDataDoubleEscapedDash
| ScriptDataDoubleEscapedDashDash | ScriptDataDoubleEscapedLessthanSign
| ScriptDataDoubleEscapeEnd | BeforeAttributeName | AttributeName
| AfterAttributeName | BeforeAttributeValue | AttributeValue_doubleQuoted
| AttributeValue_singleQuoted | AttributeValue_unquoted
| AfterAttributeValue_quoted | SelfClosingStartTag | BogusComment
| MarkupDeclarationOpen | CommentStart | CommentStartDash | Comment
| CommentEndDash | CommentEnd | CommentEndBang | Doctype
| BeforeDoctypeName | DoctypeName | AfterDoctypeName
| AfterDoctypePublicKeyword | BeforeDoctypePublicIdentifier
| DoctypePublicIdentifier_doubleQuoted | DoctypePublicIdentifier_singleQuoted
| AfterDoctypePublicIdentifier | BetweenDoctypePublicAndSystemIdentifiers
| AfterDoctypeSystemKeyword | BeforeDoctypeSystemIdentifier
| DoctypeSystemIdentifier_doubleQuoted | DoctypeSystemIdentifier_singleQuoted
| AfterDoctypeSystemIdentifier | BogusDoctype | CdataSection.

(** the arrays [attributeNameCharsSorted] and [attributeValueUnquoted],
    declared [Char[]]: the code units of their [Char] objects *)
Definition attributeNameCharsSorted : list Char :=
  [9; 10; 12; 13; 32; 34; 39; 47; 60; 61; 62]%N.
Definition attributeValueUnquoted : list Char :=
  [0; 9; 10; 12; 13; 32; 34; 38; 39; 60; 61; 62; 96]%N.

(** The text of a state object where it is used as a string; the class
    has no [toString] of its own. *)
Definition toString (_ : t) : jsstring := js "[object Object]".
End TokeniserState.

(** ** parse/ParseError.ts *)

(** The three message templates of [Tokeniser.error], [eofError] and
    [characterReferenceError], kept as data instead of interpolated text. *)
Inductive ErrorMessage : Type :=
| Message (text : string)
| UnexpectedCharacter (current : option Char) (state : TokeniserState.t)
| UnexpectedEOF (state : TokeniserState.t)
| InvalidCharacterReference (message : string).

Record ParseError : Type := mkParseError { errorPos : Z; errorMsg : ErrorMessage }.

(** Modelled from the spec: [parse/ParseError.ts] is not among the sources.
    A [ParseErrorList] is the "bounded ordered sequence of (position,
    message)" that "stops recording once a configurable cap is reached":
    [canAddError] holds while fewer than [maxSize] errors are recorded and
    [push] appends. *)
Module ParseErrorList.
Record t : Type := mk { errors : list ParseError; maxSize : Z }.
Definition canAddError (l : t) : bool := len (errors l) <? maxSize l.
Definition push (e : ParseError) (l : t) : t :=
  {| errors := errors l ++ [e]; maxSize := maxSize l |}.
Definition tracking (maxSize : Z) : t := {| errors := []; maxSize := maxSize |}.
End ParseErrorList.

(** ** parse/Tokeniser.ts *)

(** The object a [tk.Tag] or [tk.Token] variable points to: the tokeniser
    reuses one object per kind, so a reference is the name of that object;
    [new EOF()] and [new CData(data)] are fresh objects. *)
Inductive TagRef : Type := StartPending | EndPending.
Inductive TokenRef : Type :=
| TagToken (r : TagRef)
| CommentPending
| DoctypePending
| NewEOF
| NewCData (data : option jsstring).

Module Tokeniser.
Record t : Type := mk {
  state : TokeniserState.t;
  emitPending : option TokenRef;
  isEmitPending : bool;
  charsString : option jsstring;
  charsBuilder : StringBuilder.t;
  dataBuffer : StringBuilder.t;
  tagPending : option TagRef;
  startPending : Tag.t;
  endPending : Tag.t;
  charPending : option jsstring;     (* the [_data] of the Character object *)
  doctypePending : Doctype.t;
  commentPending : Comment.t;
  lastStartTag : option jsstring;
  reader : CharacterReader.t;
  errors : ParseErrorList.t;
}.

Definition new (reader : CharacterReader.t) (errors : ParseErrorList.t) : t :=
  {| state := TokeniserState.Data; emitPending := None; isEmitPending := false;
     charsString := None; charsBuilder := StringBuilder.new;
     dataBuffer := StringBuilder.new; tagPending := None;
     startPending := Tag.new; endPending := Tag.new; charPending := None;
     doctypePending := Doctype.new; commentPending := Comment.new;
     lastStartTag := None; reader := reader; errors := errors |}.

Definition set_state (x : TokeniserState.t) (k : t) : t :=
  mk x (emitPending k) (isEmitPending k) (charsString k) (charsBuilder k) (dataBuffer k)
     (tagPending k) (startPending k) (endPending k) (charPending k) (doctypePending k)
     (commentPending k) (lastStartTag k) (reader k) (errors k).
Definition set_emitPending (x : option TokenRef) (k : t) : t :=
  mk (state k) x (isEmitPending k) (charsString k) (charsBuilder k) (dataBuffer k)
     (tagPending k) (startPending k) (endPending k) (charPending k) (doctypePending k)
     (commentPending k) (lastStartTag k) (reader k) (errors k).
Definition set_isEmitPending (x : bool) (k : t) : t :=
  mk (state k) (emitPending k) x (charsString k) (charsBuilder k) (dataBuffer k)
     (tagPending k) (startPending k) (endPending k) (charPending k) (doctypePending k)
     (commentPending k) (lastStartTag k) (reader k) (errors k).
Definition set_charsString (x : option jsstring) (k : t) : t :=
  mk (state k) (emitPending k) (isEmitPending k) x (charsBuilder k) (dataBuffer k)
     (tagPending k) (startPending k) (endPending k) (charPending k) (doctypePending k)
     (commentPending k) (lastStartTag k) (reader k) (errors k).
Definition set_charsBuilder (x : StringBuilder.t) (k : t) : t :=
  mk (state k) (emitPending k) (isEmitPending k) (charsString k) x (dataBuffer k)
     (tagPending k) (startPending k) (endPending k) (charPending k) (doctypePending k)
     (commentPending k) (lastStartTag k) (reader k) (errors k).
Definition set_dataBuffer (x : StringBuilder.t) (k : t) : t :=
  mk (state k) (emitPending k) (isEmitPending k) (charsString k) (charsBuilder k) x
     (tagPending k) (startPending k) (endPending k) (charPending k) (doctypePending k)
     (commentPending k) (lastStartTag k) (reader k) (errors k).
Definition set_tagPending (x : option TagRef) (k : t) : t :=
  mk (state k) (emitPending k) (isEmitPending k) (charsString k) (charsBuilder k) (dataBuffer k)
     x (startPending k) (endPending k) (charPending k) (doctypePending k)
     (commentPending k) (lastStartTag k) (reader k) (errors k).
Definition set_startPending (x : Tag.t) (k : t) : t :=
  mk (state k) (emitPending k) (isEmitPending k) (charsString k) (charsBuilder k) (dataBuffer k)
     (tagPending k) x (endPending k) (charPending k) (doctypePending k)
     (commentPending k) (lastStartTag k) (reader k) (errors k).
Definition set_endPending (x : Tag.t) (k : t) : t :=
  mk (state k) (emitPending k) (isEmitPending k) (charsString k) (charsBuilder k) (dataBuffer k)
     (tagPending k) (startPending k) x (charPending k) (doctypePending k)
     (commentPending k) (lastStartTag k) (reader k) (errors k).
Definition set_charPending (x : option jsstring) (k : t) : t :=
  mk (state k) (emitPending k) (isEmitPending k) (charsString k) (charsBuilder k) (dataBuffer k)
     (tagPending k) (startPending k) (endPending k) x (doctypePending k)
     (commentPending k) (lastStartTag k) (reader k) (errors k).
Definition set_doctypePending (x : Doctype.t) (k : t) : t :=
  mk (state k) (emitPending k) (isEmitPending k) (charsString k) (charsBuilder k) (dataBuffer k)
     (tagPending k) (startPending k) (endPending k) (charPending k) x
     (commentPending k) (lastStartTag k) (reader k) (errors k).
Definition set_commentPending (x : Comment.t) (k : t) : t :=
  mk (state k) (emitPending k) (isEmitPending k) (charsString k) (charsBuilder k) (dataBuffer k)
     (tagPending k) (startPending k) (endPending k) (charPending k) (doctypePending k)
     x (lastStartTag k) (reader k) (errors k).
Definition set_lastStartTag (x : option jsstring) (k : t) : t :=
  mk (state k) (emitPending k) (isEmitPending k) (charsString k) (charsBuilder k) (dataBuffer k)
     (tagPending k) (startPending k) (endPending k) (charPending k) (doctypePending k)
     (commentPending k) x (reader k) (errors k).
Definition set_reader (x : CharacterReader.t) (k : t) : t :=
  mk (state k) (emitPending k) (isEmitPending k) (charsString k) (charsBuilder k) (dataBuffer k)
     (tagPending k) (startPending k) (endPending k) (charPending k) (doctypePending k)
     (commentPending k) (lastStartTag k) x (errors k).
Definition set_errors (x : ParseErrorList.t) (k : t) : t :=
  mk (state k) (emitPending k) (isEmitPending k) (charsString k) (charsBuilder k) (dataBuffer k)
     (tagPending k) (startPending k) (endPending k) (charPending k) (doctypePending k)
     (commentPending k) (lastStartTag k) (reader k) x.

(** Calls on the objects the tokeniser owns. *)
Definition onReader {A} (m : M CharacterReader.t A) : M t A := zoom reader set_reader m.
Definition onComment {A} (m : M Comment.t A) : M t A :=
  zoom commentPending set_commentPending m.
Definition onDoctype {A} (m : M Doctype.t A) : M t A :=
  zoom doctypePending set_doctypePending m.
Definition onTagRef {A} (r : TagRef) (m : M Tag.t A) : M t A :=
  match r with
  | StartPending => zoom startPending set_startPending m
  | EndPending => zoom endPending set_endPending m
  end.
(** [this.tagPending.m(...)]; [tagPending] is [undefined] until
    [createTagPending] is called. *)
Definition onTagPending {A} (m : M Tag.t A) : M t A :=
  r <- gets tagPending ;;
  match r with
  | Some r => onTagRef r m
  | None => throw (TypeError "tagPending is undefined")
  end.

Definition tagOf (r : TagRef) (k : t) : Tag.t :=
  match r with StartPending => startPending k | EndPending => endPending k end.

(** The object a reference points to, as it is now. *)
Definition deref (r : TokenRef) (k : t) : Token :=
  match r with
  | TagToken StartPending => StartTag (startPending k)
  | TagToken EndPending => EndTag (endPending k)
  | CommentPending => CommentToken (commentPending k)
  | DoctypePending => DoctypeToken (doctypePending k)
  | NewEOF => EOF
  | NewCData d => CData d
  end.

Definition pushError (msg : ErrorMessage) : M t unit :=
  k <- get ;;
  when (ParseErrorList.canAddError (errors k))
    (p <- onReader CharacterReader.pos ;;
     modify (fun k => set_errors (ParseErrorList.push (mkParseError p msg) (errors k)) k)).

(** [error(state)] with a state argument *)
Definition error (st : TokeniserState.t) : M t unit :=
  k <- get ;;
  when (ParseErrorList.canAddError (errors k))
    (c <- onReader CharacterReader.current ;;
     p <- onReader CharacterReader.pos ;;
     modify (fun k => set_errors
               (ParseErrorList.push (mkParseError p (UnexpectedCharacter c st)) (errors k)) k)).

(** [error(message)] with a string argument *)
Definition errorMessage (msg : string) : M t unit := pushError (Message msg).

Definition eofError (st : TokeniserState.t) : M t unit := pushError (UnexpectedEOF st).

Definition characterReferenceError (msg : string) : M t unit :=
  pushError (InvalidCharacterReference msg).

(** [token.isStartTag()] and [token.isEndTag()] read the [type] getter,
    which [Comment] implements by throwing. *)
Inductive TokenType : Type :=
| TypeDoctype | TypeStartTag | TypeEndTag | TypeComment | TypeCharacter | TypeEOF.

Definition typeOf (r : TokenRef) : M t TokenType :=
  match r with
  | TagToken StartPending => ret TypeStartTag
  | TagToken EndPending => ret TypeEndTag
  | CommentPending => throw (Error "Method not implemented.")
  | DoctypePending => ret TypeDoctype
  | NewEOF => ret TypeEOF
  | NewCData _ => ret TypeCharacter
  end.

Definition emitToken (token : TokenRef) : M t unit :=
  p <- gets isEmitPending ;;
  Assert.isFalse p ;;
  modify (set_emitPending (Some token)) ;;
  modify (set_isEmitPending true) ;;
  ty <- typeOf token ;;
  match ty, token with
  | TypeStartTag, TagToken r =>
      name <- onTagRef r Tag.get_tagName ;;
      modify (set_lastStartTag (Some name))
  | TypeEndTag, TagToken r =>
      k <- get ;;
      when (Tag.hasAttributes (tagOf r k))
           (errorMessage "Attributes incorrectly present on end tag")
  | _, _ => ret tt
  end.

Definition emitString (str : jsstring) : M t unit :=
  k <- get ;;
  match charsString k with
  | None => modify (set_charsString (Some str))
  | Some cs =>
      when (StringBuilder.length (charsBuilder k) =? 0)
           (modify (fun k => set_charsBuilder (StringBuilder.append cs (charsBuilder k)) k)) ;;
      modify (fun k => set_charsBuilder (StringBuilder.append str (charsBuilder k)) k)
  end.

(** [emitChars(chars: string[])]: [this.emitString(chars.join(''))] *)
Definition emitChars (chars : list jsstring) : M t unit := emitString (concat chars).

Definition getState : M t TokeniserState.t := gets state.
Definition transition (st : TokeniserState.t) : M t unit := modify (set_state st).

Definition advanceTransition (st : TokeniserState.t) : M t unit :=
  onReader CharacterReader.advance ;;
  modify (set_state st).

Definition createTagPending (start : bool) : M t unit :=
  let r := if start then StartPending else EndPending in
  onTagRef r Tag.reset ;;
  modify (set_tagPending (Some r)).

Definition emitTagPending : M t unit :=
  onTagPending Tag.finaliseTag ;;
  r <- gets tagPending ;;
  match r with
  | Some r => emitToken (TagToken r)
  | None => throw (TypeError "tagPending is undefined")
  end.

Definition createCommentPending : M t unit := onComment Comment.reset.
Definition emitCommentPending : M t unit := emitToken CommentPending.
Definition createBogusCommentPending : M t unit :=
  onComment Comment.reset ;;
  onComment (modify (Comment.set_bogus true)).
Definition createDoctypePending : M t unit := onDoctype Doctype.reset.
Definition emitDoctypePending : M t unit := emitToken DoctypePending.
Definition createTempBuffer : M t unit := modify (set_dataBuffer StringBuilder.new).

Definition isAppropriateEndTagToken : M t bool :=
  k <- get ;;
  match lastStartTag k with
  | None => ret false
  | Some l =>
      n <- onTagPending Tag.get_tagName ;;
      ret (Helper.equalsIgnoreCase (Some n) (Some l))
  end.

Definition appropriateEndTagName : M t (option jsstring) := gets lastStartTag.

(** [consumeCharacterReference(arg0, arg1)]; [unescapeEntities], its only
    other caller, is called by no state and is left out. *)
Definition consumeCharacterReference (arg0 : option Char) (arg1 : bool)
  : M t (option (list jsstring)) :=
  throw (Error "Method not implemented.").
End Tokeniser.

(** ** parse/TokeniserState.ts: the read callbacks *)

Module States.
Module S := TokeniserState.
Import Tokeniser.

Module R := CharacterReader.
Abbreviation r_ := Tokeniser.onReader.
Abbreviation tag_ := Tokeniser.onTagPending.
Abbreviation comment_ := Tokeniser.onComment.

(** What [r.current()] or [r.consume()] answered: the [Char] object of the
    buffer, or [undefined] at the end of the input. *)
Definition val (c : option Char) : jsval :=
  match c with Some x => VChar x | None => VUndefined end.

(** [TokeniserState.eof], the value of [CharacterReader.EOF] *)
Definition eof : jsval := VUndefined.

(** A label [case 'x':] tested against the scrutinee [v]. *)
Definition isLabel (v : jsval) (x : Char) : bool := strictEquals v (VString [x]).
(** the labels ['\t'], ['\n'], ['\r'], ['\f'], [' '] *)
Definition isWsLabel (v : jsval) : bool :=
  isLabel v 9%N || isLabel v 10%N || isLabel v 13%N || isLabel v 12%N || isLabel v 32%N.

(** The labels of [switch (c)] and [switch (r.current())], where the
    scrutinee is the [Char] object itself (or [undefined]): a string label
    is never equal to it, and [TokeniserState.eof] is equal to [undefined]
    only. *)
Definition isCh (c : option Char) (x : Char) : bool := isLabel (val c) x.
Definition isWs (c : option Char) : bool := isWsLabel (val c).
Definition isEof (c : option Char) : bool := strictEquals (val c) eof.
(** the label [TokeniserState.nullChar], the string [Char.NULL.charAt(0)] *)
Definition isNul (c : option Char) : bool := isCh c nullChar.

(** [c.charAt(0)]: the code unit as a primitive string; on [undefined] the
    call throws. *)
Definition charAt0 (c : option Char) : M Tokeniser.t jsval :=
  match c with
  | Some x => ret (VString [x])
  | None => throw (TypeError "charAt of undefined")
  end.

(** A character used as a string; a method call on [undefined] throws. *)
Definition str (c : option Char) : M Tokeniser.t jsstring :=
  match c with
  | Some x => ret [x]
  | None => throw (TypeError "undefined")
  end.

Definition emitChar (c : option Char) : M Tokeniser.t unit :=
  s <- str c ;; emitString s.
Definition appendData (s : jsstring) : M Tokeniser.t unit :=
  modify (fun k => set_dataBuffer (StringBuilder.append s (dataBuffer k)) k).
Definition setForceQuirks : M Tokeniser.t unit :=
  onDoctype (modify (Doctype.set_forceQuirks true)).

(** [t.tagPending.appendAttributeValue(c)] with the [Char] object [c]:
    [typeof c] is ['object'] and [typeof c[0]] is ['string'], so the
    overload for arrays runs and the builder takes the text of [c]. *)
Definition appendAttributeValueChar (c : option Char) : M Tokeniser.t unit :=
  match c with
  | Some x => onTagPending (Tag.appendAttributeValueArray [[x]])
  | None => onTagPending Tag.ensureAttributeValue ;; throw (TypeError "undefined")
  end.

(** [switch (c.charAt(0))] here and [switch (r.current().charAt(0))] in
    [readRawData] test a primitive string, by value. *)
Definition handleDataEndTag (elseTransition : S.t) : M Tokeniser.t unit :=
  l <- r_ R.matchesLetter ;;
  if l then
    name <- r_ R.consumeLetterSequence ;;
    tag_ (Tag.appendTagName name) ;;
    appendData name
  else
    a <- isAppropriateEndTagToken ;;
    e <- (if a then r_ R.isEmpty else ret true) ;;
    let needsExitTransition := negb (a && negb e) in
    needsExitTransition <-
      (if negb needsExitTransition then
         c <- r_ R.consume ;;
         v <- charAt0 c ;;
         if isWsLabel v then transition S.BeforeAttributeName ;; ret false
         else if isLabel v (C "/") then transition S.SelfClosingStartTag ;; ret false
         else if isLabel v (C ">") then emitTagPending ;; transition S.Data ;; ret false
         else (s <- str c ;; appendData s ;; ret true)
       else ret true) ;;
    when needsExitTransition
      (emitString (js "</") ;;
       b <- gets dataBuffer ;;
       emitString (StringBuilder.toString b) ;;
       transition elseTransition).

Definition readRawData (current advance : S.t) : M Tokeniser.t unit :=
  c <- r_ R.current ;;
  v <- charAt0 c ;;
  if isLabel v (C "<") then advanceTransition advance
  else if isLabel v nullChar then
    error current ;; r_ R.advance ;; emitString replacementStr
  else if strictEquals v eof then emitToken NewEOF
  else (data <- r_ R.consumeRawData ;; emitString data).

Definition readCharRef (advance : S.t) : M Tokeniser.t unit :=
  c <- consumeCharacterReference None false ;;
  match c with
  | None => emitString (js "&")
  | Some chars => emitChars chars
  end ;;
  transition advance.

Definition readEndTag (a b : S.t) : M Tokeniser.t unit :=
  l <- r_ R.matchesLetter ;;
  if l then createTagPending false ;; transition a
  else (emitString (js "</") ;; transition b).

Definition handleDataDoubleEscapeTag (primary fallback : S.t) : M Tokeniser.t unit :=
  l <- r_ R.matchesLetter ;;
  if l then
    name <- r_ R.consumeLetterSequence ;;
    appendData name ;;
    emitString name
  else
    c <- r_ R.consume ;;
    if isWs c || isCh c (C "/") || isCh c (C ">") then
      b <- gets dataBuffer ;;
      (if jsstring_eqb (StringBuilder.toString b) (js "script")
       then transition primary else transition fallback) ;;
      emitChar c
    else (r_ R.unconsume ;; transition fallback).

Definition anythingElse : M Tokeniser.t unit :=
  emitString (js "</") ;;
  b <- gets dataBuffer ;;
  emitString (StringBuilder.toString b) ;;
  r_ R.unconsume ;;
  transition S.Rcdata.

Definition Data : M Tokeniser.t unit :=
  c <- r_ R.current ;;
  if isCh c (C "&") then advanceTransition S.CharacterReferenceInData
  else if isCh c (C "<") then advanceTransition S.TagOpen
  else if isNul c then
    error S.Data ;; c' <- r_ R.consume ;; emitChar c'
  else if isEof c then emitToken NewEOF
  else (data <- r_ R.consumeData ;; emitString data).

Definition CharacterReferenceInData : M Tokeniser.t unit := readCharRef S.Data.

Definition Rcdata : M Tokeniser.t unit :=
  c <- r_ R.current ;;
  if isCh c (C "&") then advanceTransition S.CharacterReferenceInRcdata
  else if isCh c (C "<") then advanceTransition S.RcdataLessthanSign
  else if isNul c then
    error S.Rcdata ;; r_ R.advance ;; emitString replacementStr
  else if isEof c then emitToken NewEOF
  else (data <- r_ R.consumeData ;; emitString data).

Definition CharacterReferenceInRcdata : M Tokeniser.t unit := readCharRef S.Rcdata.
Definition Rawtext : M Tokeniser.t unit := readRawData S.Rawtext S.RawtextLessthanSign.
Definition ScriptData : M Tokeniser.t unit :=
  readRawData S.ScriptData S.ScriptDataLessthanSign.

Definition PLAINTEXT : M Tokeniser.t unit :=
  c <- r_ R.current ;;
  if isNul c then
    error S.PLAINTEXT ;; r_ R.advance ;; emitString replacementStr
  else if isEof c then emitToken NewEOF
  else (data <- r_ (R.consumeTo [nullChar]) ;; emitString data).

Definition TagOpen : M Tokeniser.t unit :=
  c <- r_ R.current ;;
  if isCh c (C "!") then advanceTransition S.MarkupDeclarationOpen
  else if isCh c (C "/") then advanceTransition S.EndTagOpen
  else if isCh c (C "?") then
    createBogusCommentPending ;; advanceTransition S.BogusComment
  else
    l <- r_ R.matchesLetter ;;
    if l then createTagPending true ;; transition S.TagName
    else (error S.TagOpen ;; emitString (js "<") ;; transition S.Data).

Definition EndTagOpen : M Tokeniser.t unit :=
  e <- r_ R.isEmpty ;;
  if e then eofError S.EndTagOpen ;; emitString (js "</") ;; transition S.Data
  else
    l <- r_ R.matchesLetter ;;
    if l then createTagPending false ;; transition S.TagName
    else
      g <- r_ (R.matches (js ">")) ;;
      if g then error S.EndTagOpen ;; advanceTransition S.Data
      else (error S.EndTagOpen ;; createBogusCommentPending ;;
            advanceTransition S.BogusComment).

Definition TagName : M Tokeniser.t unit :=
  tagName <- r_ R.consumeTagName ;;
  tag_ (Tag.appendTagName tagName) ;;
  c <- r_ R.consume ;;
  if isWs c then transition S.BeforeAttributeName
  else if isCh c (C "/") then transition S.SelfClosingStartTag
  else if isCh c (C "<") then
    r_ R.unconsume ;; error S.TagName ;;
    emitTagPending ;; transition S.Data
  else if isCh c (C ">") then emitTagPending ;; transition S.Data
  else if isNul c then tag_ (Tag.appendTagName replacementStr)
  else if isEof c then eofError S.TagName ;; transition S.Data
  else (s <- str c ;; tag_ (Tag.appendTagName s)).

Definition RcdataLessthanSign : M Tokeniser.t unit :=
  sl <- r_ (R.matches (js "/")) ;;
  if sl then createTempBuffer ;; advanceTransition S.RCDATAEndTagOpen
  else
    l <- r_ R.matchesLetter ;;
    name <- appropriateEndTagName ;;
    breakOut <-
      match l, name with
      | true, Some n =>
          found <- r_ (R.containsIgnoreCase (js "</" ++ n)) ;; ret (negb found)
      | _, _ => ret false
      end ;;
    if breakOut then
      createTagPending false ;;
      tag_ (Tag.set_tagName name) ;;
      emitTagPending ;;
      transition S.TagOpen
    else (emitString (js "<") ;; transition S.Rcdata).

Definition RCDATAEndTagOpen : M Tokeniser.t unit :=
  l <- r_ R.matchesLetter ;;
  if l then
    createTagPending false ;;
    c <- r_ R.current ;; s <- str c ;;
    tag_ (Tag.appendTagName s) ;;
    c' <- r_ R.current ;; s' <- str c' ;;
    appendData s' ;;
    advanceTransition S.RCDATAEndTagName
  else (emitString (js "</") ;; transition S.Rcdata).

Definition RCDATAEndTagName : M Tokeniser.t unit :=
  l <- r_ R.matchesLetter ;;
  if l then
    name <- r_ R.consumeLetterSequence ;;
    tag_ (Tag.appendTagName name) ;;
    appendData name
  else
    c <- r_ R.consume ;;
    if isWs c then
      a <- isAppropriateEndTagToken ;;
      if a then transition S.BeforeAttributeName else anythingElse
    else if isCh c (C "/") then
      a <- isAppropriateEndTagToken ;;
      if a then transition S.SelfClosingStartTag else anythingElse
    else if isCh c (C ">") then
      a <- isAppropriateEndTagToken ;;
      if a then emitTagPending ;; transition S.Data else anythingElse
    else anythingElse.

Definition RawtextLessthanSign : M Tokeniser.t unit :=
  sl <- r_ (R.matches (js "/")) ;;
  if sl then createTempBuffer ;; advanceTransition S.RawtextEndTagOpen
  else (emitString (js "<") ;; transition S.Rawtext).

Definition RawtextEndTagOpen : M Tokeniser.t unit :=
  readEndTag S.RawtextEndTagName S.Rawtext.
Definition RawtextEndTagName : M Tokeniser.t unit := handleDataEndTag S.Rawtext.

Definition ScriptDataLessthanSign : M Tokeniser.t unit :=
  c <- r_ R.consume ;;
  if isCh c (C "/") then createTempBuffer ;; transition S.ScriptDataEndTagOpen
  else if isCh c (C "!") then emitString (js "<!") ;; transition S.ScriptDataEscapeStart
  else if isEof c then
    emitString (js "<") ;; eofError S.ScriptDataLessthanSign ;; transition S.Data
  else (emitString (js "<") ;; r_ R.unconsume ;; transition S.ScriptData).

Definition ScriptDataEndTagOpen : M Tokeniser.t unit :=
  readEndTag S.ScriptDataEndTagName S.ScriptData.
Definition ScriptDataEndTagName : M Tokeniser.t unit := handleDataEndTag S.ScriptData.

Definition ScriptDataEscapeStart : M Tokeniser.t unit :=
  d <- r_ (R.matches (js "-")) ;;
  if d then emitString (js "-") ;; advanceTransition S.ScriptDataEscapeStartDash
  else transition S.ScriptData.

Definition ScriptDataEscapeStartDash : M Tokeniser.t unit :=
  d <- r_ (R.matches (js "-")) ;;
  if d then emitString (js "-") ;; advanceTransition S.ScriptDataEscapedDashDash
  else transition S.ScriptData.

Definition ScriptDataEscaped : M Tokeniser.t unit :=
  e <- r_ R.isEmpty ;;
  if e then eofError S.ScriptDataEscaped ;; transition S.Data
  else
    c <- r_ R.current ;;
    if isCh c (C "-") then
      emitString (js "-") ;; advanceTransition S.ScriptDataEscapedDash
    else if isCh c (C "<") then advanceTransition S.ScriptDataEscapedLessthanSign
    else if isNul c then
      error S.ScriptDataEscaped ;; r_ R.advance ;; emitString [replacementChar]
    else (data <- r_ (R.consumeToAny [VString (js "-"); VString (js "<");
                                      VString [nullChar]]) ;;
          emitString data).

Definition ScriptDataEscapedDash : M Tokeniser.t unit :=
  e <- r_ R.isEmpty ;;
  if e then eofError S.ScriptDataEscapedDash ;; transition S.Data
  else
    c <- r_ R.consume ;;
    if isCh c (C "-") then emitChar c ;; transition S.ScriptDataEscapedDashDash
    else if isCh c (C "<") then transition S.ScriptDataEscapedLessthanSign
    else if isNul c then
      error S.ScriptDataEscapedDash ;; emitString [replacementChar] ;;
      transition S.ScriptDataEscaped
    else (emitChar c ;; transition S.ScriptDataEscaped).

Definition ScriptDataEscapedDashDash : M Tokeniser.t unit :=
  e <- r_ R.isEmpty ;;
  if e then eofError S.ScriptDataEscapedDashDash ;; transition S.Data
  else
    c <- r_ R.consume ;;
    if isCh c (C "-") then emitChar c
    else if isCh c (C "<") then transition S.ScriptDataEscapedLessthanSign
    else if isCh c (C ">") then emitChar c ;; transition S.ScriptData
    else if isNul c then
      error S.ScriptDataEscapedDashDash ;; emitString [replacementChar] ;;
      transition S.ScriptDataEscaped
    else (emitChar c ;; transition S.ScriptDataEscaped).

Definition ScriptDataEscapedLessthanSign : M Tokeniser.t unit :=
  l <- r_ R.matchesLetter ;;
  if l then
    createTempBuffer ;;
    c <- r_ R.current ;; s <- str c ;;
    appendData s ;;
    emitString (js "<") ;;
    c' <- r_ R.current ;;
    emitChar c' ;;
    advanceTransition S.ScriptDataDoubleEscapeStart
  else
    sl <- r_ (R.matches (js "/")) ;;
    if sl then createTempBuffer ;; advanceTransition S.ScriptDataEscapedEndTagOpen
    else (emitString (js "<") ;; transition S.ScriptDataEscaped).

Definition ScriptDataEscapedEndTagOpen : M Tokeniser.t unit :=
  l <- r_ R.matchesLetter ;;
  if l then
    createTagPending false ;;
    c <- r_ R.current ;; s <- str c ;;
    tag_ (Tag.appendTagName s) ;;
    c' <- r_ R.current ;; s' <- str c' ;;
    appendData s' ;;
    advanceTransition S.ScriptDataEscapedEndTagName
  else (emitString (js "</") ;; transition S.ScriptDataEscaped).

Definition ScriptDataEscapedEndTagName : M Tokeniser.t unit :=
  handleDataEndTag S.ScriptDataEscaped.
Definition ScriptDataDoubleEscapeStart : M Tokeniser.t unit :=
  handleDataDoubleEscapeTag S.ScriptDataDoubleEscaped S.ScriptDataEscaped.

Definition ScriptDataDoubleEscaped : M Tokeniser.t unit :=
  c <- r_ R.current ;;
  if isCh c (C "-") then emitChar c ;; advanceTransition S.ScriptDataDoubleEscapedDash
  else if isCh c (C "<") then
    emitChar c ;; advanceTransition S.ScriptDataDoubleEscapedLessthanSign
  else if isNul c then
    error S.ScriptDataDoubleEscaped ;; r_ R.advance ;; emitString [replacementChar]
  else if isEof c then eofError S.ScriptDataDoubleEscaped ;; transition S.Data
  else (data <- r_ (R.consumeToAny [VString (js "-"); VString (js "<");
                                    VString [nullChar]]) ;;
        emitString data).

Definition ScriptDataDoubleEscapedDash : M Tokeniser.t unit :=
  c <- r_ R.consume ;;
  if isCh c (C "-") then emitChar c ;; transition S.ScriptDataDoubleEscapedDashDash
  else if isCh c (C "<") then
    emitChar c ;; transition S.ScriptDataDoubleEscapedLessthanSign
  else if isNul c then
    error S.ScriptDataDoubleEscapedDash ;; emitString [replacementChar] ;;
    transition S.ScriptDataDoubleEscaped
  else if isEof c then eofError S.ScriptDataDoubleEscapedDash ;; transition S.Data
  else (emitChar c ;; transition S.ScriptDataDoubleEscaped).

Definition ScriptDataDoubleEscapedDashDash : M Tokeniser.t unit :=
  c <- r_ R.consume ;;
  if isCh c (C "-") then emitChar c
  else if isCh c (C "<") then
    emitChar c ;; transition S.ScriptDataDoubleEscapedLessthanSign
  else if isCh c (C ">") then emitChar c ;; transition S.ScriptData
  else if isNul c then
    error S.ScriptDataDoubleEscapedDashDash ;; emitString [replacementChar] ;;
    transition S.ScriptDataDoubleEscaped
  else if isEof c then eofError S.ScriptDataDoubleEscapedDashDash ;; transition S.Data
  else (emitChar c ;; transition S.ScriptDataDoubleEscaped).

Definition ScriptDataDoubleEscapedLessthanSign : M Tokeniser.t unit :=
  sl <- r_ (R.matches (js "/")) ;;
  if sl then
    emitString (js "/") ;; createTempBuffer ;;
    advanceTransition S.ScriptDataDoubleEscapeEnd
  else transition S.ScriptDataDoubleEscaped.

Definition ScriptDataDoubleEscapeEnd : M Tokeniser.t unit :=
  handleDataDoubleEscapeTag S.ScriptDataEscaped S.ScriptDataDoubleEscaped.

Definition BeforeAttributeName : M Tokeniser.t unit :=
  c <- r_ R.consume ;;
  if isWs c then ret tt
  else if isCh c (C "/") then transition S.SelfClosingStartTag
  else if isCh c (C "<") then
    r_ R.unconsume ;; error S.BeforeAttributeName ;;
    emitTagPending ;; transition S.Data
  else if isCh c (C ">") then emitTagPending ;; transition S.Data
  else if isNul c then
    r_ R.unconsume ;; error S.BeforeAttributeName ;;
    tag_ Tag.newAttribute ;; transition S.AttributeName
  else if isEof c then eofError S.BeforeAttributeName ;; transition S.Data
  else if isCh c dquote || isCh c (C "'") || isCh c (C "=") then
    error S.BeforeAttributeName ;;
    tag_ Tag.newAttribute ;;
    s <- str c ;; tag_ (Tag.appendAttributeName s) ;;
    transition S.AttributeName
  else (tag_ Tag.newAttribute ;; r_ R.unconsume ;; transition S.AttributeName).

Definition AttributeName : M Tokeniser.t unit :=
  name <- r_ (R.consumeToAnySorted (map VChar S.attributeNameCharsSorted)) ;;
  tag_ (Tag.appendAttributeName name) ;;
  c <- r_ R.consume ;;
  if isWs c then transition S.AfterAttributeName
  else if isCh c (C "/") then transition S.SelfClosingStartTag
  else if isCh c (C "=") then transition S.BeforeAttributeValue
  else if isCh c (C ">") then emitTagPending ;; transition S.Data
  else if isEof c then eofError S.AttributeName ;; transition S.Data
  else if isCh c dquote || isCh c (C "'") || isCh c (C "<") then
    error S.AttributeName ;;
    s <- str c ;; tag_ (Tag.appendAttributeName s)
  else (s <- str c ;; tag_ (Tag.appendAttributeName s)).

Definition AfterAttributeName : M Tokeniser.t unit :=
  c <- r_ R.consume ;;
  if isWs c then ret tt
  else if isCh c (C "/") then transition S.SelfClosingStartTag
  else if isCh c (C "=") then transition S.BeforeAttributeValue
  else if isCh c (C ">") then emitTagPending ;; transition S.Data
  else if isNul c then
    error S.AfterAttributeName ;;
    tag_ (Tag.appendAttributeName [replacementChar]) ;;
    transition S.AttributeName
  else if isEof c then eofError S.AfterAttributeName ;; transition S.Data
  else if isCh c dquote || isCh c (C "'") || isCh c (C "<") then
    error S.AfterAttributeName ;;
    tag_ Tag.newAttribute ;;
    s <- str c ;; tag_ (Tag.appendAttributeName s) ;;
    transition S.AttributeName
  else (tag_ Tag.newAttribute ;; r_ R.unconsume ;; transition S.AttributeName).

Definition BeforeAttributeValue : M Tokeniser.t unit :=
  c <- r_ R.consume ;;
  if isWs c then ret tt
  else if isCh c dquote then transition S.AttributeValue_doubleQuoted
  else if isCh c (C "&") then
    r_ R.unconsume ;; transition S.AttributeValue_unquoted
  else if isCh c (C "'") then transition S.AttributeValue_singleQuoted
  else if isNul c then
    error S.BeforeAttributeValue ;;
    tag_ (Tag.appendAttributeValue [replacementChar]) ;;
    transition S.AttributeValue_unquoted
  else if isEof c then
    eofError S.BeforeAttributeValue ;; emitTagPending ;; transition S.Data
  else if isCh c (C ">") then
    error S.BeforeAttributeValue ;; emitTagPending ;; transition S.Data
  else if isCh c (C "<") || isCh c (C "=") || isCh c (C "`") then
    error S.BeforeAttributeValue ;;
    appendAttributeValueChar c ;;
    transition S.AttributeValue_unquoted
  else (r_ R.unconsume ;; transition S.AttributeValue_unquoted).

(** [let ref = t.consumeCharacterReference(x, true); if (ref != null)
    appendAttributeValue(ref); else appendAttributeValue('&')] *)
Definition attributeCharRef (additionalAllowed : Char) : M Tokeniser.t unit :=
  ref <- consumeCharacterReference (Some additionalAllowed) true ;;
  match ref with
  | Some chars => tag_ (Tag.appendAttributeValueArray chars)
  | None => tag_ (Tag.appendAttributeValue (js "&"))
  end.

Definition AttributeValue_doubleQuoted : M Tokeniser.t unit :=
  value <- r_ (R.consumeAttributeQuoted false) ;;
  (if 0 <? len value then tag_ (Tag.appendAttributeValue value)
   else tag_ Tag.setEmptyAttributeValue) ;;
  c <- r_ R.consume ;;
  if isCh c dquote then transition S.AfterAttributeValue_quoted
  else if isCh c (C "&") then attributeCharRef dquote
  else if isNul c then
    error S.AttributeValue_doubleQuoted ;;
    tag_ (Tag.appendAttributeValue [replacementChar])
  else if isEof c then eofError S.AttributeValue_doubleQuoted ;; transition S.Data
  else appendAttributeValueChar c.

Definition AttributeValue_singleQuoted : M Tokeniser.t unit :=
  value <- r_ (R.consumeAttributeQuoted true) ;;
  (if 0 <? len value then tag_ (Tag.appendAttributeValue value)
   else tag_ Tag.setEmptyAttributeValue) ;;
  c <- r_ R.consume ;;
  if isCh c (C "'") then transition S.AfterAttributeValue_quoted
  else if isCh c (C "&") then attributeCharRef (C "'")
  else if isNul c then
    error S.AttributeValue_singleQuoted ;;
    tag_ (Tag.appendAttributeValue [replacementChar])
  else if isEof c then eofError S.AttributeValue_singleQuoted ;; transition S.Data
  else appendAttributeValueChar c.

Definition AttributeValue_unquoted : M Tokeniser.t unit :=
  value <- r_ (R.consumeToAnySorted (map VChar S.attributeValueUnquoted)) ;;
  when (0 <? len value) (tag_ (Tag.appendAttributeValue value)) ;;
  c <- r_ R.consume ;;
  if isWs c then transition S.BeforeAttributeName
  else if isCh c (C "&") then attributeCharRef (C ">")
  else if isCh c (C ">") then emitTagPending ;; transition S.Data
  else if isNul c then
    error S.AttributeValue_unquoted ;;
    tag_ (Tag.appendAttributeValue [replacementChar])
  else if isEof c then eofError S.AttributeValue_unquoted ;; transition S.Data
  else if isCh c dquote || isCh c (C "'") || isCh c (C "<") || isCh c (C "=")
          || isCh c (C "`") then
    error S.AttributeValue_unquoted ;;
    appendAttributeValueChar c
  else appendAttributeValueChar c.

Definition AfterAttributeValue_quoted : M Tokeniser.t unit :=
  c <- r_ R.consume ;;
  if isWs c then transition S.BeforeAttributeName
  else if isCh c (C "/") then transition S.SelfClosingStartTag
  else if isCh c (C ">") then emitTagPending ;; transition S.Data
  else if isEof c then eofError S.AfterAttributeValue_quoted ;; transition S.Data
  else (r_ R.unconsume ;; error S.AfterAttributeValue_quoted ;;
        transition S.BeforeAttributeName).

Definition SelfClosingStartTag : M Tokeniser.t unit :=
  c <- r_ R.consume ;;
  if isCh c (C ">") then
    tag_ (modify (Tag.set_selfClosing true)) ;;
    emitTagPending ;; transition S.Data
  else if isEof c then eofError S.SelfClosingStartTag ;; transition S.Data
  else (r_ R.unconsume ;; error S.SelfClosingStartTag ;;
        transition S.BeforeAttributeName).

Definition BogusComment : M Tokeniser.t unit :=
  r_ R.unconsume ;;
  data <- r_ (R.consumeTo (js ">")) ;;
  comment_ (Comment.append data) ;;
  next <- r_ R.consume ;;
  when (looseEquals (val next) (VString (js ">")) || looseEquals (val next) eof)
       (emitCommentPending ;; transition S.Data).

Definition MarkupDeclarationOpen : M Tokeniser.t unit :=
  a <- r_ (R.matchConsume (js "--")) ;;
  if a then createCommentPending ;; transition S.CommentStart
  else
    b <- r_ (R.matchConsumeIgnoreCase (js "DOCTYPE")) ;;
    if b then transition S.Doctype
    else
      c <- r_ (R.matchConsume (js "[CDATA[")) ;;
      if c then createTempBuffer ;; transition S.CdataSection
      else (error S.MarkupDeclarationOpen ;; createBogusCommentPending ;;
            advanceTransition S.BogusComment).

Definition appendComment (c : option Char) : M Tokeniser.t unit :=
  s <- str c ;; comment_ (Comment.append s).

Definition CommentStart : M Tokeniser.t unit :=
  c <- r_ R.consume ;;
  if isCh c (C "-") then transition S.CommentStartDash
  else if isNul c then
    error S.CommentStart ;; comment_ (Comment.append [replacementChar]) ;;
    transition S.Comment
  else if isCh c (C ">") then
    error S.CommentStart ;; emitCommentPending ;; transition S.Data
  else if isEof c then
    eofError S.CommentStart ;; emitCommentPending ;; transition S.Data
  else (r_ R.unconsume ;; transition S.Comment).

Definition CommentStartDash : M Tokeniser.t unit :=
  c <- r_ R.consume ;;
  if isCh c (C "-") then transition S.CommentStartDash
  else if isNul c then
    error S.CommentStartDash ;; comment_ (Comment.append [replacementChar]) ;;
    transition S.Comment
  else if isCh c (C ">") then
    error S.CommentStartDash ;; emitCommentPending ;; transition S.Data
  else if isEof c then
    eofError S.CommentStartDash ;; emitCommentPending ;; transition S.Data
  else (appendComment c ;; transition S.Comment).

Definition Comment : M Tokeniser.t unit :=
  c <- r_ R.current ;;
  if isCh c (C "-") then advanceTransition S.CommentEndDash
  else if isNul c then
    error S.Comment ;; r_ R.advance ;; comment_ (Comment.append [replacementChar])
  else if isEof c then
    eofError S.Comment ;; emitCommentPending ;; transition S.Data
  else (data <- r_ (R.consumeToAny [VString (js "-"); VString [nullChar]]) ;;
        comment_ (Comment.append data)).

Definition CommentEndDash : M Tokeniser.t unit :=
  c <- r_ R.consume ;;
  if isCh c (C "-") then transition S.CommentEnd
  else if isNul c then
    error S.CommentEndDash ;;
    comment_ (Comment.append (js "-")) ;; comment_ (Comment.append [replacementChar]) ;;
    transition S.Comment
  else if isEof c then
    eofError S.CommentEndDash ;; emitCommentPending ;; transition S.Data
  else (comment_ (Comment.append (js "-")) ;; appendComment c ;; transition S.Comment).

Definition CommentEnd : M Tokeniser.t unit :=
  c <- r_ R.consume ;;
  if isCh c (C ">") then emitCommentPending ;; transition S.Data
  else if isNul c then
    error S.CommentEnd ;;
    comment_ (Comment.append (js "--")) ;; comment_ (Comment.append [replacementChar]) ;;
    transition S.Comment
  else if isCh c (C "!") then error S.CommentEnd ;; transition S.CommentEndBang
  else if isCh c (C "-") then error S.CommentEnd ;; comment_ (Comment.append (js "-"))
  else if isEof c then
    eofError S.CommentEnd ;; emitCommentPending ;; transition S.Data
  else (error S.CommentEnd ;;
        comment_ (Comment.append (js "--")) ;; appendComment c ;;
        transition S.Comment).

Definition CommentEndBang : M Tokeniser.t unit :=
  c <- r_ R.consume ;;
  if isCh c (C "-") then
    comment_ (Comment.append (js "--!")) ;; transition S.CommentEndDash
  else if isCh c (C ">") then emitCommentPending ;; transition S.Data
  else if isNul c then
    error S.CommentEndBang ;;
    comment_ (Comment.append (js "--!")) ;; comment_ (Comment.append [replacementChar]) ;;
    transition S.Comment
  else if isEof c then
    eofError S.CommentEndBang ;; emitCommentPending ;; transition S.Data
  else (comment_ (Comment.append (js "--!")) ;; appendComment c ;; transition S.Comment).

(** [DocumentType.PUBLIC_KEY] and [DocumentType.SYSTEM_KEY] *)
Definition PUBLIC_KEY : jsstring := js "PUBLIC".
Definition SYSTEM_KEY : jsstring := js "SYSTEM".

Definition appendName (s : jsstring) : M Tokeniser.t unit :=
  onDoctype (modify (Doctype.append_name s)).
Definition appendPublicIdentifier (s : jsstring) : M Tokeniser.t unit :=
  onDoctype (modify (Doctype.append_publicIdentifier s)).
Definition appendSystemIdentifier (s : jsstring) : M Tokeniser.t unit :=
  onDoctype (modify (Doctype.append_systemIdentifier s)).

Definition Doctype : M Tokeniser.t unit :=
  c <- r_ R.consume ;;
  if isWs c then transition S.BeforeDoctypeName
  else if isEof c then
    eofError S.Doctype ;;
    error S.Doctype ;; createDoctypePending ;; setForceQuirks ;;
    emitDoctypePending ;; transition S.Data
  else if isCh c (C ">") then
    error S.Doctype ;; createDoctypePending ;; setForceQuirks ;;
    emitDoctypePending ;; transition S.Data
  else (error S.Doctype ;; transition S.BeforeDoctypeName).

Definition BeforeDoctypeName : M Tokeniser.t unit :=
  l <- r_ R.matchesLetter ;;
  if l then createDoctypePending ;; transition S.DoctypeName
  else
    c <- r_ R.consume ;;
    if isWs c then ret tt
    else if isNul c then
      error S.BeforeDoctypeName ;; createDoctypePending ;;
      appendName [replacementChar] ;; transition S.DoctypeName
    else if isEof c then
      eofError S.BeforeDoctypeName ;; createDoctypePending ;; setForceQuirks ;;
      emitDoctypePending ;; transition S.Data
    else (createDoctypePending ;; s <- str c ;; appendName s ;;
          transition S.DoctypeName).

Definition DoctypeName : M Tokeniser.t unit :=
  l <- r_ R.matchesLetter ;;
  if l then (name <- r_ R.consumeLetterSequence ;; appendName name)
  else
    c <- r_ R.consume ;;
    if isCh c (C ">") then emitDoctypePending ;; transition S.Data
    else if isWs c then transition S.AfterDoctypeName
    else if isNul c then error S.DoctypeName ;; appendName [replacementChar]
    else if isEof c then
      eofError S.DoctypeName ;; setForceQuirks ;;
      emitDoctypePending ;; transition S.Data
    else (s <- str c ;; appendName s).

Definition AfterDoctypeName : M Tokeniser.t unit :=
  e <- r_ R.isEmpty ;;
  if e then
    eofError S.AfterDoctypeName ;; setForceQuirks ;;
    emitDoctypePending ;; transition S.Data
  else
    w <- r_ (R.matchesAnyString [[9]; [10]; [13]; [12]; [32]]%N) ;;
    if w then r_ R.advance
    else
      g <- r_ (R.matches (js ">")) ;;
      if g then emitDoctypePending ;; advanceTransition S.Data
      else
        p <- r_ (R.matchConsumeIgnoreCase PUBLIC_KEY) ;;
        if p then
          onDoctype (modify (Doctype.set_pubSysKey (Some PUBLIC_KEY))) ;;
          transition S.AfterDoctypePublicKeyword
        else
          y <- r_ (R.matchConsumeIgnoreCase SYSTEM_KEY) ;;
          if y then
            onDoctype (modify (Doctype.set_pubSysKey (Some SYSTEM_KEY))) ;;
            transition S.AfterDoctypeSystemKeyword
          else (error S.AfterDoctypeName ;; setForceQuirks ;;
                advanceTransition S.BogusDoctype).

(** The recurring cases [error; forceQuirks = true; emitDoctypePending;
    transition(Data)], its EOF variant, and [error; forceQuirks = true;
    transition(BogusDoctype)]. *)
Definition quirksEmit (this : S.t) : M Tokeniser.t unit :=
  error this ;; setForceQuirks ;; emitDoctypePending ;; transition S.Data.
Definition quirksEmitEof (this : S.t) : M Tokeniser.t unit :=
  eofError this ;; setForceQuirks ;; emitDoctypePending ;; transition S.Data.
Definition quirksBogus (this : S.t) : M Tokeniser.t unit :=
  error this ;; setForceQuirks ;; transition S.BogusDoctype.

Definition AfterDoctypePublicKeyword : M Tokeniser.t unit :=
  c <- r_ R.consume ;;
  if isWs c then transition S.BeforeDoctypePublicIdentifier
  else if isCh c dquote then
    error S.AfterDoctypePublicKeyword ;;
    transition S.DoctypePublicIdentifier_doubleQuoted
  else if isCh c (C "'") then
    error S.AfterDoctypePublicKeyword ;;
    transition S.DoctypePublicIdentifier_singleQuoted
  else if isCh c (C ">") then quirksEmit S.AfterDoctypePublicKeyword
  else if isEof c then quirksEmitEof S.AfterDoctypePublicKeyword
  else quirksBogus S.AfterDoctypePublicKeyword.

Definition BeforeDoctypePublicIdentifier : M Tokeniser.t unit :=
  c <- r_ R.consume ;;
  if isWs c then ret tt
  else if isCh c dquote then transition S.DoctypePublicIdentifier_doubleQuoted
  else if isCh c (C "'") then transition S.DoctypePublicIdentifier_singleQuoted
  else if isCh c (C ">") then quirksEmit S.BeforeDoctypePublicIdentifier
  else if isEof c then quirksEmitEof S.BeforeDoctypePublicIdentifier
  else quirksBogus S.BeforeDoctypePublicIdentifier.

Definition DoctypePublicIdentifier_doubleQuoted : M Tokeniser.t unit :=
  c <- r_ R.consume ;;
  if isCh c dquote then transition S.AfterDoctypePublicIdentifier
  else if isNul c then
    error S.DoctypePublicIdentifier_doubleQuoted ;;
    appendPublicIdentifier [replacementChar]
  else if isCh c (C ">") then quirksEmit S.DoctypePublicIdentifier_doubleQuoted
  else if isEof c then quirksEmitEof S.DoctypePublicIdentifier_doubleQuoted
  else (s <- str c ;; appendPublicIdentifier s).

Definition DoctypePublicIdentifier_singleQuoted : M Tokeniser.t unit :=
  c <- r_ R.consume ;;
  if isCh c (C "'") then transition S.AfterDoctypePublicIdentifier
  else if isNul c then
    error S.DoctypePublicIdentifier_singleQuoted ;;
    appendPublicIdentifier [replacementChar]
  else if isCh c (C ">") then quirksEmit S.DoctypePublicIdentifier_singleQuoted
  else if isEof c then quirksEmitEof S.DoctypePublicIdentifier_singleQuoted
  else (s <- str c ;; appendPublicIdentifier s).

Definition AfterDoctypePublicIdentifier : M Tokeniser.t unit :=
  c <- r_ R.consume ;;
  if isWs c then transition S.BetweenDoctypePublicAndSystemIdentifiers
  else if isCh c (C ">") then emitDoctypePending ;; transition S.Data
  else if isCh c dquote then
    error S.AfterDoctypePublicIdentifier ;;
    transition S.DoctypeSystemIdentifier_doubleQuoted
  else if isCh c (C "'") then
    error S.AfterDoctypePublicIdentifier ;;
    transition S.DoctypeSystemIdentifier_singleQuoted
  else if isEof c then quirksEmitEof S.AfterDoctypePublicIdentifier
  else quirksBogus S.AfterDoctypePublicIdentifier.

Definition BetweenDoctypePublicAndSystemIdentifiers : M Tokeniser.t unit :=
  c <- r_ R.consume ;;
  if isWs c then ret tt
  else if isCh c (C ">") then emitDoctypePending ;; transition S.Data
  else if isCh c dquote then
    error S.BetweenDoctypePublicAndSystemIdentifiers ;;
    transition S.DoctypeSystemIdentifier_doubleQuoted
  else if isCh c (C "'") then
    error S.BetweenDoctypePublicAndSystemIdentifiers ;;
    transition S.DoctypeSystemIdentifier_singleQuoted
  else if isEof c then quirksEmitEof S.BetweenDoctypePublicAndSystemIdentifiers
  else quirksBogus S.BetweenDoctypePublicAndSystemIdentifiers.

Definition AfterDoctypeSystemKeyword : M Tokeniser.t unit :=
  c <- r_ R.consume ;;
  if isWs c then transition S.BeforeDoctypeSystemIdentifier
  else if isCh c (C ">") then quirksEmit S.AfterDoctypeSystemKeyword
  else if isCh c dquote then
    error S.AfterDoctypeSystemKeyword ;;
    transition S.DoctypeSystemIdentifier_doubleQuoted
  else if isCh c (C "'") then
    error S.AfterDoctypeSystemKeyword ;;
    transition S.DoctypeSystemIdentifier_singleQuoted
  else if isEof c then quirksEmitEof S.AfterDoctypeSystemKeyword
  else (error S.AfterDoctypeSystemKeyword ;; setForceQuirks ;; emitDoctypePending).

Definition BeforeDoctypeSystemIdentifier : M Tokeniser.t unit :=
  c <- r_ R.consume ;;
  if isWs c then ret tt
  else if isCh c dquote then transition S.DoctypeSystemIdentifier_doubleQuoted
  else if isCh c (C "'") then transition S.DoctypeSystemIdentifier_singleQuoted
  else if isCh c (C ">") then quirksEmit S.BeforeDoctypeSystemIdentifier
  else if isEof c then quirksEmitEof S.BeforeDoctypeSystemIdentifier
  else quirksBogus S.BeforeDoctypeSystemIdentifier.

Definition DoctypeSystemIdentifier_doubleQuoted : M Tokeniser.t unit :=
  c <- r_ R.consume ;;
  if isCh c dquote then transition S.AfterDoctypeSystemIdentifier
  else if isNul c then
    error S.DoctypeSystemIdentifier_doubleQuoted ;;
    appendSystemIdentifier [replacementChar]
  else if isCh c (C ">") then quirksEmit S.DoctypeSystemIdentifier_doubleQuoted
  else if isEof c then quirksEmitEof S.DoctypeSystemIdentifier_doubleQuoted
  else (s <- str c ;; appendSystemIdentifier s).

Definition DoctypeSystemIdentifier_singleQuoted : M Tokeniser.t unit :=
  c <- r_ R.consume ;;
  if isCh c (C "'") then transition S.AfterDoctypeSystemIdentifier
  else if isNul c then
    error S.DoctypeSystemIdentifier_singleQuoted ;;
    appendSystemIdentifier [replacementChar]
  else if isCh c (C ">") then quirksEmit S.DoctypeSystemIdentifier_singleQuoted
  else if isEof c then quirksEmitEof S.DoctypeSystemIdentifier_singleQuoted
  else (s <- str c ;; appendSystemIdentifier s).

Definition AfterDoctypeSystemIdentifier : M Tokeniser.t unit :=
  c <- r_ R.consume ;;
  if isWs c then ret tt
  else if isCh c (C ">") then emitDoctypePending ;; transition S.Data
  else if isEof c then quirksEmitEof S.AfterDoctypeSystemIdentifier
  else (error S.AfterDoctypeSystemIdentifier ;; transition S.BogusDoctype).

Definition BogusDoctype : M Tokeniser.t unit :=
  c <- r_ R.consume ;;
  if isCh c (C ">") then emitDoctypePending ;; transition S.Data
  else if isEof c then emitDoctypePending ;; transition S.Data
  else ret tt.

Definition CdataSection : M Tokeniser.t unit :=
  data <- r_ (R.consumeTo (js "]]>")) ;;
  appendData (S.toString S.Data) ;;
  m <- r_ (R.matchConsume (js "]]>")) ;;
  e <- (if m then ret true else r_ R.isEmpty) ;;
  when e
    (b <- gets dataBuffer ;;
     emitToken (NewCData (Some (StringBuilder.toString b))) ;;
     transition S.Data).

(** [state.read(t, r)]: the callback the state object was built with. *)
Definition read (st : S.t) : M Tokeniser.t unit :=
  match st with
  | S.Data => Data
  | S.CharacterReferenceInData => CharacterReferenceInData
  | S.Rcdata => Rcdata
  | S.CharacterReferenceInRcdata => CharacterReferenceInRcdata
  | S.Rawtext => Rawtext
  | S.ScriptData => ScriptData
  | S.PLAINTEXT => PLAINTEXT
  | S.TagOpen => TagOpen
  | S.EndTagOpen => EndTagOpen
  | S.TagName => TagName
  | S.RcdataLessthanSign => RcdataLessthanSign
  | S.RCDATAEndTagOpen => RCDATAEndTagOpen
  | S.RCDATAEndTagName => RCDATAEndTagName
  | S.RawtextLessthanSign => RawtextLessthanSign
  | S.RawtextEndTagOpen => RawtextEndTagOpen
  | S.RawtextEndTagName => RawtextEndTagName
  | S.ScriptDataLessthanSign => ScriptDataLessthanSign
  | S.ScriptDataEndTagOpen => ScriptDataEndTagOpen
  | S.ScriptDataEndTagName => ScriptDataEndTagName
  | S.ScriptDataEscapeStart => ScriptDataEscapeStart
  | S.ScriptDataEscapeStartDash => ScriptDataEscapeStartDash
  | S.ScriptDataEscaped => ScriptDataEscaped
  | S.ScriptDataEscapedDash => ScriptDataEscapedDash
  | S.ScriptDataEscapedDashDash => ScriptDataEscapedDashDash
  | S.ScriptDataEscapedLessthanSign => ScriptDataEscapedLessthanSign
  | S.ScriptDataEscapedEndTagOpen => ScriptDataEscapedEndTagOpen
  | S.ScriptDataEscapedEndTagName => ScriptDataEscapedEndTagName
  | S.ScriptDataDoubleEscapeStart => ScriptDataDoubleEscapeStart
  | S.ScriptDataDoubleEscaped => ScriptDataDoubleEscaped
  | S.ScriptDataDoubleEscapedDash => ScriptDataDoubleEscapedDash
  | S.ScriptDataDoubleEscapedDashDash => ScriptDataDoubleEscapedDashDash
  | S.ScriptDataDoubleEscapedLessthanSign => ScriptDataDoubleEscapedLessthanSign
  | S.ScriptDataDoubleEscapeEnd => ScriptDataDoubleEscapeEnd
  | S.BeforeAttributeName => BeforeAttributeName
  | S.AttributeName => AttributeName
  | S.AfterAttributeName => AfterAttributeName
  | S.BeforeAttributeValue => BeforeAttributeValue
  | S.AttributeValue_doubleQuoted => AttributeValue_doubleQuoted
  | S.AttributeValue_singleQuoted => AttributeValue_singleQuoted
  | S.AttributeValue_unquoted => AttributeValue_unquoted
  | S.AfterAttributeValue_quoted => AfterAttributeValue_quoted
  | S.SelfClosingStartTag => SelfClosingStartTag
  | S.BogusComment => BogusComment
  | S.MarkupDeclarationOpen => MarkupDeclarationOpen
  | S.CommentStart => CommentStart
  | S.CommentStartDash => CommentStartDash
  | S.Comment => Comment
  | S.CommentEndDash => CommentEndDash
  | S.CommentEnd => CommentEnd
  | S.CommentEndBang => CommentEndBang
  | S.Doctype => Doctype
  | S.BeforeDoctypeName => BeforeDoctypeName
  | S.DoctypeName => DoctypeName
  | S.AfterDoctypeName => AfterDoctypeName
  | S.AfterDoctypePublicKeyword => AfterDoctypePublicKeyword
  | S.BeforeDoctypePublicIdentifier => BeforeDoctypePublicIdentifier
  | S.DoctypePublicIdentifier_doubleQuoted => DoctypePublicIdentifier_doubleQuoted
  | S.DoctypePublicIdentifier_singleQuoted => DoctypePublicIdentifier_singleQuoted
  | S.AfterDoctypePublicIdentifier => AfterDoctypePublicIdentifier
  | S.BetweenDoctypePublicAndSystemIdentifiers => BetweenDoctypePublicAndSystemIdentifiers
  | S.AfterDoctypeSystemKeyword => AfterDoctypeSystemKeyword
  | S.BeforeDoctypeSystemIdentifier => BeforeDoctypeSystemIdentifier
  | S.DoctypeSystemIdentifier_doubleQuoted => DoctypeSystemIdentifier_doubleQuoted
  | S.DoctypeSystemIdentifier_singleQuoted => DoctypeSystemIdentifier_singleQuoted
  | S.AfterDoctypeSystemIdentifier => AfterDoctypeSystemIdentifier
  | S.BogusDoctype => BogusDoctype
  | S.CdataSection => CdataSection
  end.
End States.

(** ** [Tokeniser.read] *)

(** [while (!this.isEmitPending) this.state.read(this, this.reader)] *)
Fixpoint readLoop (fuel : nat) : M Tokeniser.t unit :=
  match fuel with
  | O => fun _ => Timeout
  | S n =>
      p <- gets Tokeniser.isEmitPending ;;
      if p then ret tt
      else (st <- gets Tokeniser.state ;; States.read st ;; readLoop n)
  end.

(** What [read] does once a token is pending: any buffered characters go out
    first, as the (reused) Character token. *)
Definition readEmit : M Tokeniser.t Token :=
  k <- get ;;
  if negb (StringBuilder.length (Tokeniser.charsBuilder k) =? 0) then
    let str := StringBuilder.toString (Tokeniser.charsBuilder k) in
    modify (Tokeniser.set_charsBuilder StringBuilder.new) ;;
    modify (Tokeniser.set_charsString None) ;;
    modify (Tokeniser.set_charPending (Some str)) ;;
    ret (Character (Some str))
  else
    match Tokeniser.charsString k with
    | Some cs =>
        modify (Tokeniser.set_charPending (Some cs)) ;;
        modify (Tokeniser.set_charsString None) ;;
        ret (Character (Some cs))
    | None =>
        modify (Tokeniser.set_isEmitPending false) ;;
        match Tokeniser.emitPending k with
        | Some r => ret (Tokeniser.deref r k)
        | None => throw (TypeError "emitPending is undefined")
        end
    end.

Definition read (fuel : nat) : M Tokeniser.t Token :=
  readLoop fuel ;; readEmit.

(** [n] successive calls of [read]; the tokens are listed in order. *)
Fixpoint reads (fuel : nat) (n : nat) : M Tokeniser.t (list Token) :=
  match n with
  | O => ret []
  | S n' => tok <- read fuel ;; rest <- reads fuel n' ;; ret (tok :: rest)
  end.

Definition tokeniser (input : jsstring) : Tokeniser.t :=
  Tokeniser.new (CharacterReader.new input) (ParseErrorList.tracking 100).

Definition paragraph : jsstring :=
  js "<p class=" ++ [dquote] ++ js "a" ++ [dquote] ++ js ">Hi &amp; bye</p>".
(** ** nodes/Attribute.ts and nodes/Attributes.ts: lookup, removal and update *)

(** A value that may be a string, [null] or [undefined], where the code
    tells the two apart with [!==]. *)
Inductive jsvalue : Type :=
| Undefined
| Null
| Str (s : jsstring).

(** [v !== null] *)
Definition notStrictlyNull (v : jsvalue) : bool :=
  match v with
  | Null => false
  | _ => true
  end.

Module AttributeOps.
(** [Assert.notEmpty(key); this.key = key] *)
Definition set_key (key : jsstring) : M Attribute.t unit :=
  if Helper.isEmpty (Some key) then throw (Error "must be not empty.")
  else modify (fun a => Attribute.mk key (Attribute.val a)).
End AttributeOps.

Module AttributesOps.
(** [this.findIndex((attr) => attr.get_key() === name)] *)
Definition indexOfKey (name : jsstring) (a : Attributes.t) : Z :=
  findIndex (fun attr => jsstring_eqb (Attribute.get_key attr) name) a.

(** [this.attributes.find(...)]: the first match, [undefined] without one *)
Definition findByKey (name : jsstring) (a : Attributes.t) : option Attribute.t :=
  List.find (fun attr => jsstring_eqb (Attribute.get_key attr) name) a.

(** [get(name)]: [this.attributes[index] || null] *)
Definition get (name : jsstring) (a : Attributes.t) : option Attribute.t :=
  at_index a (indexOfKey name a).

Definition hasKey (name : jsstring) (a : Attributes.t) : bool :=
  negb (indexOfKey name a =? -1).

(** [remove(name)]: [if (index !== -1) this.attributes.splice(index, 1)] *)
Definition remove (name : jsstring) (a : Attributes.t) : Attributes.t :=
  let index := indexOfKey name a in
  if negb (index =? -1)
  then firstn (Z.to_nat index) a ++ skipn (S (Z.to_nat index)) a
  else a.

(** [put(name, value)] with a string value:
    [let attr = this.findByKey(first);
     if (attr !== null) attr.set_key(value); else this.add(first, value)].
    [findByKey] answers [undefined], never [null], for a missing key, so
    the first branch is always taken. *)
Definition putString (name value : jsstring) : M Attributes.t unit :=
  fun a =>
    match findByKey name a with
    | None => Throw (TypeError "set_key of undefined")
    | Some attr =>
        match AttributeOps.set_key value attr with
        | Ret _ attr' => Ret tt (<[Z.to_nat (indexOfKey name a) := attr']> a)
        | Throw e => Throw e
        | Timeout => Timeout
        end
    end.

(** [hasDeclaredValueForKey(name)]:
    [let attr = this.get(name); return attr?.get_val() !== null] *)
Definition hasDeclaredValueForKey (name : jsstring) (a : Attributes.t) : bool :=
  notStrictlyNull (match get name a with
                   | Some attr => Str (Attribute.get_val attr)
                   | None => Undefined
                   end).

Definition InternalPrefix : jsstring := js "/".

Definition internalKey (key : jsstring) : jsstring := InternalPrefix ++ key.

(** [key != null && key.length > 1 && key.charAt(0) === Attributes.InternalPrefix] *)
Definition isInternalKey (key : option jsstring) : bool :=
  match key with
  | None => false
  | Some k => (1 <? len k) && jsstring_eqb (firstn 1 k) InternalPrefix
  end.
End AttributesOps.

(** ** parse/Token.ts: [hasAttribute] *)

Module TagOps.
(** [hasAttribute(key)]: [this.hasAttributes() && this.attributes.hasKey(key)] *)
Definition hasAttribute (key : jsstring) (g : Tag.t) : bool :=
  match Tag.attributes g with
  | Some a => AttributesOps.hasKey key a
  | None => false
  end.
End TagOps.

(** * Definitions used in the statements *)

(** [hoare P m Q]: started in a state satisfying [P], if [m] returns then
    the value and the final state satisfy [Q]. *)
Definition hoare {S A} (P : S -> Prop) (m : M S A) (Q : A -> S -> Prop) : Prop :=
  forall s, P s -> forall a s', m s = Ret a s' -> Q a s'.

(** [m] keeps the invariant [P]. *)
Definition preserves {S A} (P : S -> Prop) (m : M S A) : Prop :=
  hoare P m (fun _ s' => P s').

(** [new Tokeniser(new CharacterReader(input), errors)] *)
Definition tokeniserWith (errors : ParseErrorList.t) (input : jsstring) : Tokeniser.t :=
  Tokeniser.new (CharacterReader.new input) errors.

(** The four tags of the attribute-value property. *)
Definition href_unquoted : jsstring := js "<a href=foo>".
Definition href_single : jsstring := js "<a href='foo'>".
Definition href_double : jsstring :=
  js "<a href=" ++ [dquote] ++ js "foo" ++ [dquote] ++ js ">".
Definition boolean_disabled : jsstring := js "<a disabled>".

(** The calls the attribute states make on the pending tag for an attribute
    without a value, with an explicitly empty value, and with a value. *)
Definition completeAttribute (name : jsstring) (value : option jsstring) : M Tag.t unit :=
  Tag.appendAttributeName name ;;
  match value with
  | None => ret tt
  | Some [] => Tag.setEmptyAttributeValue
  | Some v => Tag.appendAttributeValue v
  end ;;
  Tag.finaliseTag.

(** The attribute list of a fresh tag object after the calls [m]. *)
Definition attributesAfter (m : M Tag.t unit) : option Attributes.t :=
  match m Tag.new with
  | Ret _ g => Tag.attributes g
  | _ => None
  end.

(** The value a call returned, and the object it left, if it returned. *)
Definition returned {S A} (o : outcome S A) : option A :=
  match o with
  | Ret a _ => Some a
  | _ => None
  end.

Definition final {S A} (o : outcome S A) : option S :=
  match o with
  | Ret _ s => Some s
  | _ => None
  end.

(** The public operations of the reader, with their arguments.  The
    arrays of [consumeToAny], [consumeToAnySorted], [matchesAny] and
    [matchesAnySorted] hold [Char] objects as the signatures ask, allocated
    by the caller apart from the reader's buffer. *)
Inductive ReaderOp : Type :=
| OpPos | OpIsEmpty | OpCurrent | OpConsume | OpUnconsume | OpAdvance
| OpMark | OpUnmark | OpRewindToMark
| OpNextIndexOf (seq : jsstring) | OpConsumeTo (seq : jsstring)
| OpConsumeToAny (chars : list Char) | OpConsumeToAnySorted (chars : list Char)
| OpConsumeData | OpConsumeAttributeQuoted (single : bool) | OpConsumeRawData
| OpConsumeTagName | OpConsumeToEnd | OpConsumeLetterSequence
| OpConsumeDigitSequence | OpConsumeLetterThenDigitSequence | OpConsumeHexSequence
| OpMatches (seq : jsstring) | OpMatchesChar (c : Char)
| OpMatchesIgnoreCase (seq : jsstring)
| OpMatchesAny (seq : list Char) | OpMatchesAnySorted (seq : list Char)
| OpMatchesLetter | OpMatchesDigit | OpMatchConsume (seq : jsstring)
| OpContainsIgnoreCase (seq : jsstring) | OpToString
| OpRangeEquals (start count : Z) (cached : jsstring).

Definition discard {S A} (m : M S A) : M S unit := bind m (fun _ => ret tt).

(** The two operations that move the cursor by one whatever the text:
    [consume()] and [advance()]. *)
Definition stepsForward (op : ReaderOp) : bool :=
  match op with
  | OpConsume | OpAdvance => true
  | _ => false
  end.

(** One call of a public operation, its result dropped. *)
Definition perform (op : ReaderOp) : M CharacterReader.t unit :=
  match op with
  | OpPos => discard CharacterReader.pos
  | OpIsEmpty => discard CharacterReader.isEmpty
  | OpCurrent => discard CharacterReader.current
  | OpConsume => discard CharacterReader.consume
  | OpUnconsume => CharacterReader.unconsume
  | OpAdvance => CharacterReader.advance
  | OpMark => CharacterReader.mark
  | OpUnmark => CharacterReader.unmark
  | OpRewindToMark => CharacterReader.rewindToMark
  | OpNextIndexOf seq => discard (CharacterReader.nextIndexOf seq)
  | OpConsumeTo seq => discard (CharacterReader.consumeTo seq)
  | OpConsumeToAny chars => discard (CharacterReader.consumeToAny (map VChar chars))
  | OpConsumeToAnySorted chars =>
      discard (CharacterReader.consumeToAnySorted (map VChar chars))
  | OpConsumeData => discard CharacterReader.consumeData
  | OpConsumeAttributeQuoted single => discard (CharacterReader.consumeAttributeQuoted single)
  | OpConsumeRawData => discard CharacterReader.consumeRawData
  | OpConsumeTagName => discard CharacterReader.consumeTagName
  | OpConsumeToEnd => discard CharacterReader.consumeToEnd
  | OpConsumeLetterSequence => discard CharacterReader.consumeLetterSequence
  | OpConsumeDigitSequence => discard CharacterReader.consumeDigitSequence
  | OpConsumeLetterThenDigitSequence => discard CharacterReader.consumeLetterThenDigitSequence
  | OpConsumeHexSequence => discard CharacterReader.consumeHexSequence
  | OpMatches seq => discard (CharacterReader.matches seq)
  | OpMatchesChar c => discard (CharacterReader.matchesChar c)
  | OpMatchesIgnoreCase seq => discard (CharacterReader.matchesIgnoreCase seq)
  | OpMatchesAny seq => discard (CharacterReader.matchesAny seq)
  | OpMatchesAnySorted seq => discard (CharacterReader.matchesAnySorted seq)
  | OpMatchesLetter => discard CharacterReader.matchesLetter
  | OpMatchesDigit => discard CharacterReader.matchesDigit
  | OpMatchConsume seq => discard (CharacterReader.matchConsume seq)
  | OpContainsIgnoreCase seq => discard (CharacterReader.containsIgnoreCase seq)
  | OpToString => discard CharacterReader.toString
  | OpRangeEquals start count cached =>
      r <- get ;;
      discard (CharacterReader.rangeEquals (CharacterReader.charBuf r) start count cached)
  end.

(** A sequence of calls, each of which returns. *)
Fixpoint performAll (ops : list ReaderOp) : M CharacterReader.t unit :=
  match ops with
  | [] => ret tt
  | op :: rest => perform op ;; performAll rest
  end.

(** The reader made over [input] after the calls [ops]. *)
Definition afterOps (input : jsstring) (ops : list ReaderOp) : CharacterReader.t :=
  default (CharacterReader.new input) (final (performAll ops (CharacterReader.new input))).

(** What every reader reached from the constructor satisfies: the cursor is
    not negative, no mark is set, and the text is the input. *)
Definition readerInv (input : jsstring) (r : CharacterReader.t) : Prop :=
  0 <= CharacterReader.bufPos r
  /\ CharacterReader.bufMark r = -1
  /\ CharacterReader.charBuf r = input.

(** The cap of [Tag.MaxAttributes] on a tag object, on both reusable tag
    objects of a tokeniser, and on a token that [read] returned. *)
Definition tagOk (g : Tag.t) : Prop :=
  match Tag.attributes g with
  | Some a => Attributes.length a <= Tag.MaxAttributes
  | None => True
  end.

Definition tokeniserOk (k : Tokeniser.t) : Prop :=
  tagOk (Tokeniser.startPending k) /\ tagOk (Tokeniser.endPending k).

Definition tokenOk (tok : Token) : Prop :=
  match tok with
  | StartTag g | EndTag g => tagOk g
  | _ => True
  end.

(** A tag that holds 512 attributes and has one more pending. *)
Definition fullTag : Tag.t :=
  Tag.set_attributes (Some (repeat (Attribute.mk (js "x") []) 512))
    (Tag.set_pendingAttributeName (Some (js "y")) Tag.new).

(** A tokeniser whose pending start tag is that tag. *)
Definition fullTokeniser : Tokeniser.t :=
  Tokeniser.set_tagPending (Some StartPending)
    (Tokeniser.set_startPending fullTag (tokeniser (js "<a y>"))).

(** The tokens of two calls of [read] on the empty input. *)
Definition tokensOfEmptyInput : list Token :=
  Eval vm_compute in default [] (returned (reads 10 2 (tokeniser []))).

(** [new ParseError(this.reader.pos(), 'Attributes incorrectly present on
    end tag')] *)
Definition endTagError (k : Tokeniser.t) : ParseError :=
  mkParseError (CharacterReader.bufPos (Tokeniser.reader k))
               (Message "Attributes incorrectly present on end tag").

(** A tokeniser whose pending end tag [a] carries the attribute [c], just
    before the tag is emitted. *)
Definition endTagWithAttribute : Tokeniser.t :=
  Tokeniser.set_endPending
    (Tag.set_attributes (Some [Attribute.mk (js "c") (js "null")])
       (Tag.set_tagName_field (Some (js "a")) Tag.new))
    (Tokeniser.set_tagPending (Some EndPending) (tokeniser (js "</ab cdefgh>"))).

(** The code units [charBuf[start .. start + count)]. *)
Definition rangeText (charBuf : list Char) (start count : Z) : jsstring :=
  firstn (Z.to_nat count) (skipn (Z.to_nat start) charBuf).

(** The text from the cursor to the end of the input. *)
Definition textAhead (r : CharacterReader.t) : jsstring :=
  skipn (Z.to_nat (CharacterReader.bufPos r)) (CharacterReader.charBuf r).

(** Every slot of the flyweight cache that was written is one of the
    [stringCacheSize] slots of the array. *)
Definition cacheInRange (c : gmap Z jsstring) : Prop :=
  forall i, is_Some (c !! i) -> 0 <= i < CharacterReader.stringCacheSize.

(** Successive calls of one method, once for each element of a list. *)
Fixpoint forEach {S A} (f : A -> M S unit) (l : list A) : M S unit :=
  match l with
  | [] => ret tt
  | x :: rest => f x ;; forEach f rest
  end.

(** The calls that build the start tag [a] with 513 attributes named [x]
    and emit it. *)
Definition emitCrowdedTag : M Tokeniser.t unit :=
  Tokeniser.createTagPending true ;;
  Tokeniser.onTagPending (Tag.appendTagName (js "a")) ;;
  forEach (fun _ : unit =>
             Tokeniser.onTagPending (Tag.appendAttributeName (js "x")) ;;
             Tokeniser.onTagPending Tag.newAttribute)
          (repeat tt 513) ;;
  Tokeniser.emitTagPending.

(** A tokeniser on the empty input after those calls. *)
Definition crowdedTokeniser : Tokeniser.t :=
  default (tokeniser []) (final (emitCrowdedTag (tokeniser []))).

(** The tokeniser after a call [st.read(t, r)] of a state callback. *)
Definition afterCallback (st : TokeniserState.t) (k : Tokeniser.t) : Tokeniser.t :=
  default k (final (States.read st k)).

(** The tokeniser on [ab>] after the callback of TagOpen, which makes the
    pending start tag; then after the callback of TagName, which reads to
    the end of the input; then after the callback of BeforeAttributeValue,
    which meets the end of the input and emits the tag. *)
Definition tagNameStart : Tokeniser.t :=
  afterCallback TokeniserState.TagOpen (tokeniserWith (ParseErrorList.tracking 1) (js "ab>")).
Definition tagNameRead : Tokeniser.t := afterCallback TokeniserState.TagName tagNameStart.
Definition tagNameEmitted : Tokeniser.t :=
  afterCallback TokeniserState.BeforeAttributeValue tagNameRead.

(** The attribute value a tag has accumulated: the builder followed by the
    one-shot string. *)
Definition pendingText (g : Tag.t) : jsstring :=
  Tag.pendingAttributeValue g ++ default [] (Tag.pendingAttributeValueS g).

(** The data a comment has accumulated. *)
Definition commentText (c : Comment.t) : jsstring :=
  Comment.data c ++ default [] (Comment.dataS c).

(** A string that [trim] leaves alone at its start. *)
Definition startsClean (s : jsstring) : Prop :=
  match s with
  | c :: _ => is_js_space c = false
  | [] => True
  end.

(** The text the next [read] returns as a Character token, if any: the
    builder when it holds something, else the one-shot string. *)
Definition pendingChars (k : Tokeniser.t) : option jsstring :=
  if negb (StringBuilder.length (Tokeniser.charsBuilder k) =? 0)
  then Some (StringBuilder.toString (Tokeniser.charsBuilder k))
  else Tokeniser.charsString k.

(** The builder is only used once the one-shot string is set. *)
Definition charsOk (k : Tokeniser.t) : Prop :=
  Tokeniser.charsString k = None -> Tokeniser.charsBuilder k = [].

(** A tokeniser in the Data state with nothing pending and the reader at
    or past the end of the input. *)
Definition atEnd (k : Tokeniser.t) : Prop :=
  Tokeniser.state k = TokeniserState.Data
  /\ Tokeniser.isEmitPending k = false
  /\ pendingChars k = None
  /\ CharacterReader.bufLength (Tokeniser.reader k)
     <= CharacterReader.bufPos (Tokeniser.reader k).

(** The delimiters of [consumeData]. *)
Definition dataDelimiters : list Char := js "&<" ++ [CharM.NULL].

(** What the reader part of a tokeniser keeps: the text is the input, the
    cursor is not negative, no mark is set and the cache stays in its
    array. *)
Definition readerKept (input : jsstring) (r : CharacterReader.t) : Prop :=
  readerInv input r /\ cacheInRange (CharacterReader.stringCache r).

(** The error list [e] is the list [e0] with errors added at its end, no
    longer than the cap allows. *)
Definition errorsExtend (e0 e : ParseErrorList.t) : Prop :=
  ParseErrorList.maxSize e = ParseErrorList.maxSize e0
  /\ (exists more, ParseErrorList.errors e = ParseErrorList.errors e0 ++ more)
  /\ len (ParseErrorList.errors e)
     <= Z.max (len (ParseErrorList.errors e0)) (ParseErrorList.maxSize e0).

(** What every tokeniser reached from [new Tokeniser(new
    CharacterReader(input), errors)] by calls that return satisfies: the
    reader is as above, the error list extends the one passed in, and a
    token is recorded whenever one is flagged as pending. *)
Definition tokeniserKept (input : jsstring) (errors : ParseErrorList.t) (k : Tokeniser.t)
  : Prop :=
  readerKept input (Tokeniser.reader k)
  /\ errorsExtend errors (Tokeniser.errors k)
  /\ charsOk k
  /\ (Tokeniser.isEmitPending k = true -> Tokeniser.emitPending k <> None).

(** [search] starts somewhere in [s]. *)
Definition occursIn (search s : jsstring) : Prop :=
  exists j : nat, starts_with search (skipn j s) = true.

(** * Properties *)

(** ** Reasoning about methods *)

Section HoareRules.
Context {S : Type}.
Implicit Types P : S -> Prop.

Lemma bind_Ret {A B} (m : M S A) (k : A -> M S B) s b s' :
  bind m k s = Ret b s' -> exists a s1, m s = Ret a s1 /\ k a s1 = Ret b s'.
Proof.
  unfold bind. destruct (m s) as [a s1| |]; try discriminate. eauto.
Qed.

Lemma hoare_bind {A B} P (m : M S A) (k : A -> M S B) Q R :
  hoare P m Q -> (forall a, hoare (Q a) (k a) R) -> hoare P (bind m k) R.
Proof.
  intros Hm Hk s Hs b s' Hb.
  apply bind_Ret in Hb as (a & s1 & H1 & H2).
  eapply Hk; eauto.
Qed.

Lemma hoare_conseq {A} P P' (m : M S A) (Q Q' : A -> S -> Prop) :
  hoare P' m Q' -> (forall s, P s -> P' s) -> (forall a s, Q' a s -> Q a s) ->
  hoare P m Q.
Proof. intros H HP HQ s Hs a s' Hr. eauto. Qed.

Lemma preserves_bind {A B} P (m : M S A) (k : A -> M S B) :
  preserves P m -> (forall a, preserves P (k a)) -> preserves P (bind m k).
Proof. intros Hm Hk. eapply hoare_bind; [exact Hm | exact Hk]. Qed.

Lemma preserves_ret {A} P (a : A) : preserves P (ret a).
Proof. intros s Hs b s' [= <- <-]. exact Hs. Qed.

Lemma preserves_throw {A} P e : preserves P (@throw S A e).
Proof. intros s Hs b s' [=]. Qed.

Lemma preserves_get P : preserves P (@get S).
Proof. intros s Hs b s' [= <- <-]. exact Hs. Qed.

Lemma preserves_gets {A} P (f : S -> A) : preserves P (gets f).
Proof. intros s Hs b s' [= <- <-]. exact Hs. Qed.

Lemma preserves_modify P (f : S -> S) :
  (forall s, P s -> P (f s)) -> preserves P (modify f).
Proof. intros Hf s Hs b s' [= <- <-]. auto. Qed.

Lemma preserves_when P (b : bool) (m : M S unit) :
  preserves P m -> preserves P (when b m).
Proof. destruct b; [auto | intros _; apply preserves_ret]. Qed.

Lemma preserves_when_cond P (b : bool) (m : M S unit) :
  (b = true -> preserves P m) -> preserves P (when b m).
Proof. destruct b; [auto | intros _; apply preserves_ret]. Qed.

Lemma preserves_if {A} P (b : bool) (m1 m2 : M S A) :
  preserves P m1 -> preserves P m2 -> preserves P (if b then m1 else m2).
Proof. destruct b; auto. Qed.

Lemma preserves_isFalse P b : preserves P (@Assert.isFalse S b).
Proof.
  unfold Assert.isFalse. destruct (negb b); [apply preserves_ret | apply preserves_throw].
Qed.

(** A method of a field keeps any invariant that does not read the field. *)
Lemma preserves_zoom {T A} P (proj : S -> T) (upd : T -> S -> S) (m : M T A) :
  (forall t s, P s -> P (upd t s)) -> preserves P (zoom proj upd m).
Proof.
  intros Hupd s Hs a s'. unfold zoom.
  destruct (m (proj s)); intros [= <- <-]. auto.
Qed.

(** A method of a field keeps an invariant of the owner that is an
    invariant [I] of the field next to a fact [P] about the rest. *)
Lemma preserves_zoom_inv {T A} P (I : T -> Prop) (proj : S -> T) (upd : T -> S -> S)
      (m : M T A) :
  preserves I m ->
  (forall s, P s -> I (proj s)) ->
  (forall t s, P s -> I t -> P (upd t s)) ->
  preserves P (zoom proj upd m).
Proof.
  intros Hm Hproj Hupd s Hs a s'. unfold zoom.
  destruct (m (proj s)) eqn:E; intros [= <- <-].
  apply Hupd; [exact Hs |]. eapply Hm; eauto.
Qed.
End HoareRules.

(** ** The loop of [read] *)

Lemma readLoop_S fuel k :
  readLoop (S fuel) k =
  if Tokeniser.isEmitPending k then Ret tt k
  else match States.read (Tokeniser.state k) k with
       | Ret _ k' => readLoop fuel k'
       | Throw e => Throw e
       | Timeout => Timeout
       end.
Proof. cbn [readLoop]. unfold bind, gets, ret. destruct (Tokeniser.isEmitPending k); reflexivity. Qed.

(** More fuel does not change a run that ended. *)
Lemma readLoop_mono n : forall k m,
  (n <= m)%nat -> readLoop n k <> Timeout -> readLoop m k = readLoop n k.
Proof.
  induction n as [|n IH]; intros k m Hle Hn.
  - now contradict Hn.
  - destruct m as [|m]; [lia |].
    rewrite !readLoop_S in *.
    destruct (Tokeniser.isEmitPending k); [reflexivity |].
    destruct (States.read (Tokeniser.state k) k); try reflexivity.
    apply IH; [lia | assumption].
Qed.

Lemma read_mono n m k :
  (n <= m)%nat -> read n k <> Timeout -> read m k = read n k.
Proof.
  unfold read, bind. intros Hle Hn.
  rewrite (readLoop_mono n k m Hle); [reflexivity |].
  intros E. rewrite E in Hn. now apply Hn.
Qed.

(** A state that is not pending and that its own callback leaves unchanged
    keeps the loop running for ever. *)
Lemma readLoop_stuck k :
  Tokeniser.isEmitPending k = false ->
  States.read (Tokeniser.state k) k = Ret tt k ->
  forall fuel, readLoop fuel k = Timeout.
Proof.
  intros Hp Hfix fuel. induction fuel as [|fuel IH]; [reflexivity |].
  rewrite readLoop_S, Hp, Hfix. exact IH.
Qed.

Lemma readLoop_next k k' :
  Tokeniser.isEmitPending k = false ->
  States.read (Tokeniser.state k) k = Ret tt k' ->
  (forall fuel, readLoop fuel k' = Timeout) ->
  forall fuel, readLoop fuel k = Timeout.
Proof.
  intros Hp Hstep Hk' [|fuel]; [reflexivity |].
  rewrite readLoop_S, Hp, Hstep. apply Hk'.
Qed.

Lemma read_Timeout k :
  (forall fuel, readLoop fuel k = Timeout) -> forall fuel, read fuel k = Timeout.
Proof. intros H fuel. unfold read, bind. now rewrite H. Qed.

Ltac run_step := eapply readLoop_next; [vm_compute; reflexivity | vm_compute; reflexivity |].
Ltac run_stuck := apply readLoop_stuck; vm_compute; reflexivity.

(** ** Runs of the tokeniser on the inputs of the specification *)

(** [consumeCharacterReference] is a stub: the two character-reference
    states throw whatever the tokeniser holds. *)
Lemma readCharRef_throws advance k :
  States.readCharRef advance k = Throw (Error "Method not implemented.").
Proof. reflexivity. Qed.


(** When no character ahead passes the test, the reader returns the empty
    string and is left as it was. *)
Lemma consumeUntil_not_found p r :
  findIndex p (slice_from (CharacterReader.charBuf r) (CharacterReader.bufPos r)) = -1 ->
  CharacterReader.consumeUntil p r = Ret [] r.
Proof.
  intros H. unfold CharacterReader.consumeUntil, CharacterReader.returnConsume,
    bind, get, modify, ret. rewrite H. cbn.
  destruct r as [c b p0 m]. unfold CharacterReader.set_bufPos. cbn.
  replace (p0 + Z.max (-1) 0) with p0 by lia. reflexivity.
Qed.

(** A [Char] object of the buffer is found in no array of delimiters. *)
Lemma includes_object_false c chars :
  existsb (strictEquals (VChar c)) chars = false.
Proof. induction chars as [|d chars IH]; [reflexivity |]. cbn [existsb]. now rewrite IH. Qed.

(** So [consumeToAny] returns the empty string and leaves the reader as it
    was, whatever the text and the delimiters. *)
Lemma consumeToAny_nothing chars r :
  CharacterReader.consumeToAny chars r = Ret [] r.
Proof.
  unfold CharacterReader.consumeToAny. apply consumeUntil_not_found.
  induction (slice_from _ _) as [|c l IH]; [reflexivity |].
  cbn [findIndex]. now rewrite IH, includes_object_false.
Qed.

(** The empty input gives EOF at every call. *)
Example read_empty_input :
  returned (reads 10 3 (tokeniser [])) = Some [EOF; EOF; EOF].
Proof. vm_compute. reflexivity. Qed.

(** C2 (code at the failing input "abc"): the first [read] never returns,
    whatever the fuel: the labels of the Data state's [switch] do not match
    the [Char] object, the default case calls [consumeData], which returns
    the empty string without moving the cursor, and the state is run again
    on the same character.  The same holds on the partial tag syntax "<",
    "<!" and "<!--" and on a lone NUL. *)
Theorem read_plain_text_diverges :
  (forall errors fuel, read fuel (tokeniserWith errors (js "abc")) = Timeout)
  /\ (forall errors fuel, read fuel (tokeniserWith errors (js "<")) = Timeout)
  /\ (forall errors fuel, read fuel (tokeniserWith errors (js "<!")) = Timeout)
  /\ (forall errors fuel, read fuel (tokeniserWith errors (js "<!--")) = Timeout)
  /\ (forall errors fuel, read fuel (tokeniserWith errors [nullChar]) = Timeout).
Proof.
  repeat split; intros errors; apply read_Timeout; run_step; run_stuck.
Qed.

(** A [read] that throws with some fuel never returns a token, whatever the
    fuel. *)
Lemma read_throws_at n k e :
  read n k = Throw e ->
  forall fuel, read fuel k = Timeout \/ read fuel k = Throw e.
Proof.
  intros Hn fuel. destruct (le_lt_dec n fuel) as [Hle|Hlt].
  - right. rewrite (read_mono n fuel k Hle); [exact Hn | now rewrite Hn].
  - destruct (read fuel k) as [a k'| e' |] eqn:E; [| | now left].
    + rewrite (read_mono fuel n k) in Hn; [congruence | lia | now rewrite E].
    + rewrite (read_mono fuel n k) in Hn; [right; congruence | lia | now rewrite E].
Qed.

(** C3 (code at the failing input "<!-- abc"): the first [read] never
    returns: the Data state takes its default case on the [Char] object for
    "<", [consumeData] returns the empty string without moving the cursor,
    and the state is run again on the same input.  The Comment state is not
    reached. *)
Theorem read_unterminated_comment_diverges :
  forall errors fuel, read fuel (tokeniserWith errors (js "<!-- abc")) = Timeout.
Proof.
  intros errors. apply read_Timeout.
  run_step. run_stuck.
Qed.

(** C1 (code at the failing input): no [read] on the paragraph of the
    specification returns a token or throws: the first call stays in the
    Data state at the first character for ever.  And the state that is to
    decode a character reference throws whatever the tokeniser holds,
    [consumeCharacterReference] being a stub. *)
Theorem read_paragraph_diverges :
  (forall errors fuel, read fuel (tokeniserWith errors paragraph) = Timeout)
  /\ (forall advance k,
        States.readCharRef advance k = Throw (Error "Method not implemented.")).
Proof.
  split.
  - intros errors. apply read_Timeout. run_step. run_stuck.
  - exact readCharRef_throws.
Qed.

(** ** Attribute values *)

Example attribute_with_value :
  attributesAfter (completeAttribute (js "href") (Some (js "foo")))
  = Some [Attribute.mk (js "href") (js "foo")].
Proof. reflexivity. Qed.

Example attribute_with_empty_value :
  attributesAfter (completeAttribute (js "href") (Some []))
  = Some [Attribute.mk (js "href") []].
Proof. reflexivity. Qed.

(** C8 (code at the failing inputs): none of the four tags is emitted, the
    first [read] never returns on any of them; and a completed attribute
    without a value is stored by [Attributes.add] with the four-letter
    string "null" as its value, not with [null]. *)
Theorem attribute_variants :
  (forall errors fuel,
     read fuel (tokeniserWith errors href_unquoted) = Timeout
     /\ read fuel (tokeniserWith errors href_single) = Timeout
     /\ read fuel (tokeniserWith errors href_double) = Timeout
     /\ read fuel (tokeniserWith errors boolean_disabled) = Timeout)
  /\ attributesAfter (completeAttribute (js "disabled") None)
     = Some [Attribute.mk (js "disabled") (js "null")].
Proof.
  split; [| reflexivity].
  intros errors fuel. repeat split; revert fuel; apply read_Timeout; run_step; run_stuck.
Qed.

(** ** The character reader *)

Example consume_reads_and_advances :
  CharacterReader.consume (CharacterReader.new (js "ab"))
  = Ret (Some (C "a")) (CharacterReader.set_bufPos 1 (CharacterReader.new (js "ab"))).
Proof. reflexivity. Qed.

Example cacheString_first_char :
  returned (CharacterReader.cacheString (js "ab") 0 1 ∅) = Some (js "a").
Proof. vm_compute. reflexivity. Qed.

(** C6 (code at failing inputs): on a cache miss [cacheString] builds the
    string with [charBuf.slice(start, count).join()]: the second argument
    of [slice] is an end index, not a count, and [join()] separates with
    commas.  With an empty cache the range "ab" comes back as "a,b", the
    range "b" at index 1 as the empty string, and a 13-character range at
    index 2 (the uncached path) as its first 11 characters. *)
Theorem cacheString_wrong_on_miss :
  returned (CharacterReader.cacheString (js "ab") 0 2 ∅) = Some (js "a,b")
  /\ returned (CharacterReader.cacheString (js "ab") 1 1 ∅) = Some []
  /\ returned (CharacterReader.cacheString (js "0123456789abcdefgh") 2 13 ∅)
     = Some (js "23456789abc").
Proof. repeat split; vm_compute; reflexivity. Qed.

(** C4 (code at failing inputs): [consumeToAny] compares the [Char]
    object of the buffer with the delimiters by reference, so it finds no
    delimiter: without a delimiter ahead it returns the empty string and
    leaves the cursor where it was, so the reader is not empty afterwards;
    with the delimiter "<" ahead it does the same, and so it does for every
    reader and every array of delimiters that holds strings or [Char]
    objects allocated apart from the reader's buffer. *)
Theorem consumeToAny_wrong :
  CharacterReader.consumeToAny [VChar (C "<")] (CharacterReader.new (js "abc"))
  = Ret [] (CharacterReader.new (js "abc"))
  /\ returned (CharacterReader.isEmpty (CharacterReader.new (js "abc"))) = Some false
  /\ CharacterReader.consumeToAny [VChar (C "<")] (CharacterReader.new (js "ab<c"))
     = Ret [] (CharacterReader.new (js "ab<c"))
  /\ (forall chars r, CharacterReader.consumeToAny chars r = Ret [] r).
Proof.
  split; [vm_compute; reflexivity |]. split; [vm_compute; reflexivity |].
  split; [vm_compute; reflexivity |]. apply consumeToAny_nothing.
Qed.

Lemma indexOf_scan_range search s k :
  0 <= k -> indexOf_scan search s k = -1 \/ k <= indexOf_scan search s k.
Proof.
  revert k. induction s as [|c s IH]; intros k Hk; cbn.
  - destruct (starts_with search []); [right | left]; lia.
  - destruct (starts_with search (c :: s)); [right; lia |].
    destruct (IH (k + 1)) as [H|H]; [lia | now left | right; lia].
Qed.

Lemma indexOf_range s search from :
  indexOf s search from = -1 \/ 0 <= indexOf s search from.
Proof.
  unfold indexOf.
  destruct (indexOf_scan_range search (skipn (Z.to_nat (Z.min (Z.max from 0) (len s))) s)
              (Z.min (Z.max from 0) (len s))) as [H|H]; unfold len in *; lia.
Qed.

Lemma findIndex_range {A} (p : A -> bool) l : -1 <= findIndex p l.
Proof.
  induction l as [|x l IH]; cbn; [lia |].
  destruct (p x); [lia |]. destruct (findIndex p l =? -1); lia.
Qed.

(** The cache only writes [stringCache]. *)
Lemma cache_frame b start count r a r' :
  CharacterReader.cache b start count r = Ret a r' ->
  CharacterReader.bufPos r' = CharacterReader.bufPos r
  /\ CharacterReader.bufMark r' = CharacterReader.bufMark r
  /\ CharacterReader.charBuf r' = CharacterReader.charBuf r.
Proof.
  unfold CharacterReader.cache, zoom.
  destruct (CharacterReader.cacheString _ _ _ _); intros [= <- <-]. auto.
Qed.

Ltac reader_unfold H :=
  unfold discard, CharacterReader.pos, CharacterReader.isEmpty, CharacterReader.current,
    CharacterReader.consume, CharacterReader.unconsume, CharacterReader.advance,
    CharacterReader.mark, CharacterReader.unmark, CharacterReader.rewindToMark,
    CharacterReader.nextIndexOf, CharacterReader.consumeToEnd,
    CharacterReader.matches, CharacterReader.matchesChar,
    CharacterReader.matchesIgnoreCase, CharacterReader.matchesSeq,
    CharacterReader.matchesAny, CharacterReader.matchesAnySorted,
    CharacterReader.matchesLetter, CharacterReader.matchesDigit,
    CharacterReader.matchConsume, CharacterReader.containsIgnoreCase,
    CharacterReader.toString, CharacterReader.rangeEquals,
    CharacterReader.isEmptyNoBufferUp, CharacterReader.isEmpty, CharacterReader.getAtPos,
    CharacterReader.returnConsume,
    bind, ret, get, gets, modify, throw, when in H.

Lemma consumeToEnd_inv input : preserves (readerInv input) CharacterReader.consumeToEnd.
Proof.
  intros r (Hp & Hm & Hb) a r' H. reader_unfold H.
  destruct (CharacterReader.cache _ _ _ r) as [v r1| |] eqn:E; [| discriminate ..].
  apply cache_frame in E as (E1 & E2 & E3).
  injection H as <- <-. unfold readerInv, CharacterReader.bufLength, len. cbn.
  repeat split; [lia | congruence | congruence].
Qed.

Lemma returnConsume_inv input index :
  -1 <= index -> preserves (readerInv input) (CharacterReader.returnConsume index).
Proof.
  intros Hi r (Hp & Hm & Hb) a r' H. reader_unfold H. cbn in H.
  destruct (index =? -1).
  - injection H as <- <-. unfold readerInv. cbn. repeat split; [lia | auto ..].
  - apply cache_frame in H as (E1 & E2 & E3). cbn in *.
    unfold readerInv. repeat split; [lia | congruence ..].
Qed.

Lemma consumeUntil_inv input p : preserves (readerInv input) (CharacterReader.consumeUntil p).
Proof.
  intros r Hr a r' H. unfold CharacterReader.consumeUntil, bind, get in H.
  eapply returnConsume_inv; [| exact Hr | exact H]. apply findIndex_range.
Qed.

Lemma consumeTo_inv input seq : preserves (readerInv input) (CharacterReader.consumeTo seq).
Proof.
  intros r (Hp & Hm & Hb) a r' H.
  unfold CharacterReader.consumeTo, CharacterReader.nextIndexOf, bind, get, ret, modify in H.
  pose proof (indexOf_range (CharacterReader.charBuf r) seq (CharacterReader.bufPos r)) as Hi.
  set (index := indexOf _ _ _) in *.
  destruct (index =? -1) eqn:Ei; cbn in H.
  - destruct ((len seq =? 1) || _) eqn:Ec.
    + eapply consumeToEnd_inv; [| exact H]. repeat split; auto.
    + destruct (CharacterReader.cache _ _ _ r) as [v r1| |] eqn:E; [| discriminate ..].
      apply cache_frame in E as (E1 & E2 & E3). injection H as <- <-.
      apply orb_false_iff in Ec as [_ Ec]. apply Z.ltb_ge in Ec.
      unfold readerInv, CharacterReader.bufLength, len in *. cbn.
      repeat split; [lia | congruence ..].
  - apply Z.eqb_neq in Ei.
    destruct (index - CharacterReader.bufPos r =? -1) eqn:Eo; cbn in H.
    + destruct ((len seq =? 1) || _) eqn:Ec.
      * eapply consumeToEnd_inv; [| exact H]. repeat split; auto.
      * destruct (CharacterReader.cache _ _ _ r) as [v r1| |] eqn:E; [| discriminate ..].
        apply cache_frame in E as (E1 & E2 & E3). injection H as <- <-.
        apply orb_false_iff in Ec as [_ Ec]. apply Z.ltb_ge in Ec.
        unfold readerInv, CharacterReader.bufLength, len in *. cbn.
        repeat split; [lia | congruence ..].
    + destruct (CharacterReader.cache _ _ _ r) as [v r1| |] eqn:E; [| discriminate ..].
      apply cache_frame in E as (E1 & E2 & E3). injection H as <- <-.
      unfold readerInv. cbn. repeat split; [lia | congruence ..].
Qed.

Lemma consumeLetterThenDigitSequence_inv input :
  preserves (readerInv input) CharacterReader.consumeLetterThenDigitSequence.
Proof.
  intros r (Hp & Hm & Hb) a r' H.
  unfold CharacterReader.consumeLetterThenDigitSequence in H. reader_unfold H. cbn in H.
  match type of H with context [findIndex ?p ?l] =>
    pose proof (findIndex_range p l); set (i1 := findIndex p l) in * end.
  destruct (negb _); cbn in H.
  - match type of H with context [findIndex ?p ?l] =>
      pose proof (findIndex_range p l); set (i2 := findIndex p l) in * end.
    apply cache_frame in H as (E1 & E2 & E3). cbn in *.
    unfold readerInv. repeat split; [lia | congruence ..].
  - apply cache_frame in H as (E1 & E2 & E3). cbn in *.
    unfold readerInv. repeat split; [lia | congruence ..].
Qed.

Lemma matchesSeq_frame seq r a r' :
  CharacterReader.matchesSeq seq r = Ret a r' -> r' = r.
Proof.
  unfold CharacterReader.matchesSeq, bind, get, ret, throw.
  destruct (_ <? _); [congruence |].
  destruct (CharacterReader.all_equal_at _ _ _); congruence.
Qed.

Lemma matchConsume_inv input seq :
  preserves (readerInv input) (CharacterReader.matchConsume seq).
Proof.
  intros r (Hp & Hm & Hb) a r' H.
  unfold CharacterReader.matchConsume, CharacterReader.matchesIgnoreCase in H.
  apply bind_Ret in H as (b & r1 & H1 & H2).
  apply matchesSeq_frame in H1 as ->.
  destruct b; unfold bind, modify, ret in H2; injection H2 as <- <-.
  - unfold readerInv, len. cbn. repeat split; [lia | auto ..].
  - repeat split; auto.
Qed.

Lemma perform_inv input op : preserves (readerInv input) (perform op).
Proof.
  destruct op; cbn [perform];
    try (apply preserves_bind; [| intros; apply preserves_ret]);
    try apply consumeUntil_inv; try apply consumeTo_inv; try apply consumeToEnd_inv;
    try apply consumeLetterThenDigitSequence_inv; try apply matchConsume_inv;
    try (intros r (Hp & Hm & Hb) a r' H; reader_unfold H; cbn in H;
         repeat case_match; simplify_eq; unfold readerInv; cbn;
         repeat split; solve [lia | auto]).
Qed.

Lemma performAll_inv input ops : preserves (readerInv input) (performAll ops).
Proof.
  induction ops as [|op ops IH]; cbn [performAll].
  - apply preserves_ret.
  - apply preserves_bind; [apply perform_inv | intros _; exact IH].
Qed.

Lemma new_inv input : readerInv input (CharacterReader.new input).
Proof. unfold readerInv. cbn. repeat split; lia. Qed.

(** C5 (counterexample): [consume] at EOF returns the EOF value and moves
    the cursor past the end: on the empty input the cursor is 1 after one
    call, the length being 0. *)
Lemma consume_at_eof_moves_past_end :
  exists r,
    CharacterReader.consume (CharacterReader.new []) = Ret None r
    /\ performAll [OpConsume] (CharacterReader.new []) = Ret tt r
    /\ CharacterReader.bufPos r = 1
    /\ CharacterReader.bufLength r = 0
    /\ ~ (0 <= CharacterReader.bufPos r <= CharacterReader.bufLength r).
Proof.
  exists (CharacterReader.set_bufPos 1 (CharacterReader.new [])).
  split; [reflexivity |]. split; [reflexivity |].
  split; [reflexivity |]. split; [reflexivity |].
  intros [_ H]. vm_compute in H. now apply H.
Qed.

(** *** The cursor and the end of the input *)

Lemma findIndex_upper {A} (p : A -> bool) l : findIndex p l < len l.
Proof.
  unfold len. induction l as [|x l IH]; cbn [findIndex length]; [lia |].
  destruct (p x); [lia |]. destruct (findIndex p l =? -1); lia.
Qed.

Lemma len_slice_from {A} (l : list A) b :
  0 <= b -> len (slice_from l b) = Z.max 0 (len l - b).
Proof.
  intros Hb. unfold slice_from, slice, len.
  destruct (b <? 0) eqn:E1; [apply Z.ltb_lt in E1; lia |].
  destruct (Z.of_nat (length l) <? 0) eqn:E2; [apply Z.ltb_lt in E2; lia |].
  rewrite length_firstn, length_skipn. lia.
Qed.

Lemma findIndex_slice_upper p (buf : list Char) pos :
  0 <= pos -> Z.max (findIndex p (slice_from buf pos)) 0 <= Z.max 0 (len buf - pos).
Proof.
  intros H0. pose proof (findIndex_upper p (slice_from buf pos)) as H.
  rewrite len_slice_from in H by exact H0. lia.
Qed.

Lemma returnConsume_upper index r a r' :
  Z.max index 0 <= Z.max 0 (CharacterReader.bufLength r - CharacterReader.bufPos r) ->
  CharacterReader.returnConsume index r = Ret a r' ->
  CharacterReader.bufPos r' <= Z.max (CharacterReader.bufPos r) (CharacterReader.bufLength r).
Proof.
  intros Hi H. reader_unfold H. cbn in H.
  destruct (index =? -1).
  - injection H as <- <-. cbn. lia.
  - apply cache_frame in H as (E1 & _ & _). cbn in E1. lia.
Qed.

Lemma consumeUntil_upper p r a r' :
  0 <= CharacterReader.bufPos r ->
  CharacterReader.consumeUntil p r = Ret a r' ->
  CharacterReader.bufPos r' <= Z.max (CharacterReader.bufPos r) (CharacterReader.bufLength r).
Proof.
  intros H0 H. unfold CharacterReader.consumeUntil, bind, get in H.
  eapply returnConsume_upper; [| exact H]. now apply findIndex_slice_upper.
Qed.

Lemma consumeToEnd_upper r a r' :
  CharacterReader.consumeToEnd r = Ret a r' ->
  CharacterReader.bufPos r' = CharacterReader.bufLength r.
Proof.
  intros H. reader_unfold H.
  destruct (CharacterReader.cache _ _ _ r) as [v r1| |] eqn:E; [| discriminate ..].
  injection H as <- <-. reflexivity.
Qed.

Lemma indexOf_scan_upper search s k :
  0 <= k -> indexOf_scan search s k <= k + len s.
Proof.
  unfold len. revert k. induction s as [|c s IH]; intros k Hk; cbn [indexOf_scan length].
  - destruct (starts_with search []); lia.
  - destruct (starts_with search (c :: s)); [lia |].
    specialize (IH (k + 1)). lia.
Qed.

Lemma indexOf_upper s search from : indexOf s search from <= len s.
Proof.
  unfold indexOf.
  pose proof (indexOf_scan_upper search
                (skipn (Z.to_nat (Z.min (Z.max from 0) (len s))) s)
                (Z.min (Z.max from 0) (len s))) as H.
  unfold len in *. rewrite length_skipn in H. lia.
Qed.

Lemma indexOf_nil s from : indexOf s [] from = Z.min (Z.max from 0) (len s).
Proof. unfold indexOf. now destruct (skipn _ s). Qed.

Lemma consumeTo_upper seq r a r' :
  0 <= CharacterReader.bufPos r ->
  CharacterReader.consumeTo seq r = Ret a r' ->
  CharacterReader.bufPos r' <= Z.max (CharacterReader.bufPos r) (CharacterReader.bufLength r).
Proof.
  intros H0 H.
  unfold CharacterReader.consumeTo, CharacterReader.nextIndexOf, bind, get, ret, modify in H.
  pose proof (indexOf_upper (CharacterReader.charBuf r) seq (CharacterReader.bufPos r)) as Hu.
  pose proof (indexOf_nil (CharacterReader.charBuf r) (CharacterReader.bufPos r)) as Hn.
  assert (Hlast :
    forall index, index = indexOf (CharacterReader.charBuf r) seq (CharacterReader.bufPos r) ->
      (index = -1 \/ index - CharacterReader.bufPos r = -1) ->
      len seq <= CharacterReader.bufLength r - CharacterReader.bufPos r ->
      1 <= len seq).
  { intros index -> Hoff Hc.
    destruct seq as [|x seq]; [| unfold len; cbn [length]; lia].
    exfalso. rewrite Hn in Hoff. unfold CharacterReader.bufLength, len in *.
    cbn [length] in Hc. lia. }
  set (index := indexOf _ _ _) in *.
  unfold CharacterReader.bufLength in *.
  destruct (index =? -1) eqn:Ei; cbn in H.
  - apply Z.eqb_eq in Ei.
    destruct ((len seq =? 1) || _) eqn:Ec.
    + apply consumeToEnd_upper in H. unfold CharacterReader.bufLength in H. lia.
    + apply orb_false_iff in Ec as [_ Ec]. apply Z.ltb_ge in Ec.
      specialize (Hlast index eq_refl (or_introl Ei) Ec).
      destruct (CharacterReader.cache _ _ _ r) as [v r1| |] eqn:E; [| discriminate ..].
      injection H as <- <-. cbn. lia.
  - destruct (index - CharacterReader.bufPos r =? -1) eqn:Eo; cbn in H.
    + apply Z.eqb_eq in Eo.
      destruct ((len seq =? 1) || _) eqn:Ec.
      * apply consumeToEnd_upper in H. unfold CharacterReader.bufLength in H. lia.
      * apply orb_false_iff in Ec as [_ Ec]. apply Z.ltb_ge in Ec.
        specialize (Hlast index eq_refl (or_intror Eo) Ec).
        destruct (CharacterReader.cache _ _ _ r) as [v r1| |] eqn:E; [| discriminate ..].
        injection H as <- <-. cbn. lia.
    + destruct (CharacterReader.cache _ _ _ r) as [v r1| |] eqn:E; [| discriminate ..].
      injection H as <- <-. cbn. lia.
Qed.

Lemma consumeLetterThenDigitSequence_upper r a r' :
  0 <= CharacterReader.bufPos r ->
  CharacterReader.consumeLetterThenDigitSequence r = Ret a r' ->
  CharacterReader.bufPos r' <= Z.max (CharacterReader.bufPos r) (CharacterReader.bufLength r).
Proof.
  intros H0 H.
  unfold CharacterReader.consumeLetterThenDigitSequence in H. reader_unfold H. cbn in H.
  match type of H with context [findIndex ?p (slice_from ?b ?q)] =>
    pose proof (findIndex_slice_upper p b q H0) as Hi1;
    pose proof (findIndex_range p (slice_from b q)) as Hr1;
    set (i1 := findIndex p (slice_from b q)) in * end.
  destruct (negb _); cbn in H.
  - match type of H with context [findIndex ?p (slice_from ?b ?q)] =>
      assert (Hi2 : Z.max (findIndex p (slice_from b q)) 0 <= Z.max 0 (len b - q))
        by (apply findIndex_slice_upper; lia);
      set (i2 := findIndex p (slice_from b q)) in * end.
    apply cache_frame in H as (E1 & _ & _). cbn in E1.
    unfold CharacterReader.bufLength. lia.
  - apply cache_frame in H as (E1 & _ & _). cbn in E1.
    unfold CharacterReader.bufLength. lia.
Qed.

Lemma matchConsume_upper seq r a r' :
  CharacterReader.matchConsume seq r = Ret a r' ->
  CharacterReader.bufPos r' <= Z.max (CharacterReader.bufPos r) (CharacterReader.bufLength r).
Proof.
  intros H.
  unfold CharacterReader.matchConsume, CharacterReader.matchesIgnoreCase in H.
  apply bind_Ret in H as (b & r1 & H1 & H2).
  pose proof (matchesSeq_frame _ _ _ _ H1) as ->.
  destruct b; unfold bind, modify, ret in H2; injection H2 as <- <-; [| lia].
  unfold CharacterReader.matchesSeq, bind, get, ret, throw in H1.
  destruct (_ <? _) eqn:E; [discriminate |]. apply Z.ltb_ge in E. cbn. lia.
Qed.

(** An operation other than [consume] and [advance] does not take the
    cursor beyond the end of the input, nor further beyond it. *)
Lemma perform_upper input op r r' :
  readerInv input r -> stepsForward op = false -> perform op r = Ret tt r' ->
  CharacterReader.bufPos r' <= Z.max (CharacterReader.bufPos r) (CharacterReader.bufLength r).
Proof.
  intros (Hp & Hm & Hb) Hop H.
  destruct op; try discriminate Hop; cbn [perform] in H;
    try (apply bind_Ret in H as (v & r1 & H & E); injection E as <-);
    try (eapply consumeUntil_upper; [exact Hp | exact H]);
    try (eapply consumeTo_upper; [exact Hp | exact H]);
    try (apply consumeToEnd_upper in H; lia);
    try (eapply consumeLetterThenDigitSequence_upper; [exact Hp | exact H]);
    try (eapply matchConsume_upper; exact H);
    try (reader_unfold H; cbn in H; try rewrite Hm in H; cbn in H;
         repeat case_match; simplify_eq; cbn; lia).
Qed.

Lemma perform_bufLength input op r r' :
  readerInv input r -> perform op r = Ret tt r' ->
  CharacterReader.bufLength r' = CharacterReader.bufLength r.
Proof.
  intros Hr H. pose proof (perform_inv input op r Hr tt r' H) as (_ & _ & Hb').
  destruct Hr as (_ & _ & Hb). unfold CharacterReader.bufLength. congruence.
Qed.

Lemma performAll_upper input ops : forall r r',
  readerInv input r ->
  CharacterReader.bufPos r <= CharacterReader.bufLength r ->
  Forall (fun op => stepsForward op = false) ops ->
  performAll ops r = Ret tt r' ->
  CharacterReader.bufPos r' <= CharacterReader.bufLength r'.
Proof.
  induction ops as [|op ops IH]; intros r r' Hr Hle Hops H; cbn [performAll] in H.
  - injection H as <-. exact Hle.
  - apply bind_Ret in H as ([] & r1 & H1 & H2).
    apply Forall_cons_iff in Hops as [Hop Hops].
    apply (IH r1 r'); [exact (perform_inv input op r Hr tt r1 H1) | | exact Hops | exact H2].
    pose proof (perform_upper input op r r1 Hr Hop H1).
    pose proof (perform_bufLength input op r r1 Hr H1). lia.
Qed.

(** C5 (amended): after any sequence of public operations that return, the
    cursor is not negative, and it is within the input when the sequence
    holds no [consume] and no [advance].  From there, no operation makes
    the cursor negative, [consume] and [advance] move it forward by one,
    and every other operation leaves it at or before the end of the input,
    or no further beyond the end than it was.  [consume] never throws, and at or past the end of the
    input it returns the EOF value and still moves the cursor, to a
    position at which [isEmpty] keeps answering true. *)
Theorem cursor_bounds input ops r :
  performAll ops (CharacterReader.new input) = Ret tt r ->
  0 <= CharacterReader.bufPos r
  /\ (Forall (fun op => stepsForward op = false) ops ->
      CharacterReader.bufPos r <= CharacterReader.bufLength r)
  /\ (forall op r',
        perform op r = Ret tt r' ->
        CharacterReader.bufLength r' = CharacterReader.bufLength r
        /\ 0 <= CharacterReader.bufPos r'
        /\ if stepsForward op
           then CharacterReader.bufPos r' = CharacterReader.bufPos r + 1
           else CharacterReader.bufPos r'
                <= Z.max (CharacterReader.bufPos r) (CharacterReader.bufLength r))
  /\ exists v,
       CharacterReader.consume r
       = Ret v (CharacterReader.set_bufPos (CharacterReader.bufPos r + 1) r)
       /\ (CharacterReader.bufLength r <= CharacterReader.bufPos r ->
           v = None
           /\ CharacterReader.isEmpty
                (CharacterReader.set_bufPos (CharacterReader.bufPos r + 1) r)
              = Ret true (CharacterReader.set_bufPos (CharacterReader.bufPos r + 1) r)).
Proof.
  intros H.
  pose proof (performAll_inv input ops _ (new_inv input) _ _ H) as Hr.
  split; [exact (proj1 Hr) |]. split; [| split].
  - intros Hops.
    apply (performAll_upper input ops (CharacterReader.new input) r);
      [apply new_inv | | exact Hops | exact H].
    unfold CharacterReader.bufLength, len. cbn. lia.
  - intros op r' Hop. split; [exact (perform_bufLength input op r r' Hr Hop) |].
    split; [exact (proj1 (perform_inv input op r Hr tt r' Hop)) |].
    destruct (stepsForward op) eqn:Es.
    + destruct op; try discriminate Es; cbn [perform] in Hop.
      * apply bind_Ret in Hop as (v & r1 & Hc & E). injection E as <-.
        reader_unfold Hc. cbn in Hc. repeat case_match; simplify_eq; reflexivity.
      * reader_unfold Hop. injection Hop as <-. reflexivity.
    + exact (perform_upper input op r r' Hr Es Hop).
  - unfold CharacterReader.consume, CharacterReader.isEmptyNoBufferUp, CharacterReader.isEmpty,
      CharacterReader.getAtPos, bind, gets, ret, modify.
    destruct (CharacterReader.bufLength r <=? CharacterReader.bufPos r) eqn:E.
    + eexists. split; [reflexivity |]. intros _. split; [reflexivity |].
      f_equal. unfold CharacterReader.bufLength in *. cbn. apply Z.leb_le.
      apply Z.leb_le in E. lia.
    + eexists. split; [reflexivity |]. intros Hle. apply Z.leb_gt in E. lia.
Qed.

Lemma cursor_bounds_witness :
  (0 <= CharacterReader.bufPos
          (afterOps (js "abc") [OpMatchConsume (js "a"); OpConsumeToEnd; OpUnconsume])
   /\ CharacterReader.bufPos
        (afterOps (js "abc") [OpMatchConsume (js "a"); OpConsumeToEnd; OpUnconsume])
      <= CharacterReader.bufLength
           (afterOps (js "abc") [OpMatchConsume (js "a"); OpConsumeToEnd; OpUnconsume]))
  /\ (0 <= CharacterReader.bufPos (afterOps (js "a") [OpConsume; OpAdvance])
      /\ exists v,
           CharacterReader.consume (afterOps (js "a") [OpConsume; OpAdvance])
           = Ret v (CharacterReader.set_bufPos
                      (CharacterReader.bufPos (afterOps (js "a") [OpConsume; OpAdvance]) + 1)
                      (afterOps (js "a") [OpConsume; OpAdvance]))
           /\ (CharacterReader.bufLength (afterOps (js "a") [OpConsume; OpAdvance])
               <= CharacterReader.bufPos (afterOps (js "a") [OpConsume; OpAdvance]) ->
               v = None
               /\ CharacterReader.isEmpty
                    (CharacterReader.set_bufPos
                       (CharacterReader.bufPos (afterOps (js "a") [OpConsume; OpAdvance]) + 1)
                       (afterOps (js "a") [OpConsume; OpAdvance]))
                  = Ret true
                      (CharacterReader.set_bufPos
                         (CharacterReader.bufPos (afterOps (js "a") [OpConsume; OpAdvance]) + 1)
                         (afterOps (js "a") [OpConsume; OpAdvance])))).
Proof.
  split.
  - assert (H : performAll [OpMatchConsume (js "a"); OpConsumeToEnd; OpUnconsume]
                  (CharacterReader.new (js "abc"))
                = Ret tt (afterOps (js "abc")
                            [OpMatchConsume (js "a"); OpConsumeToEnd; OpUnconsume]))
      by (vm_compute; reflexivity).
    destruct (cursor_bounds (js "abc") _ _ H) as (H0 & Hle & _).
    split; [exact H0 |]. apply Hle. repeat constructor.
  - assert (H : performAll [OpConsume; OpAdvance] (CharacterReader.new (js "a"))
                = Ret tt (afterOps (js "a") [OpConsume; OpAdvance]))
      by (vm_compute; reflexivity).
    destruct (cursor_bounds (js "a") _ _ H) as (H0 & _ & _ & Hc).
    split; [exact H0 | exact Hc].
Defined.

(** C7 (code at the failing input): [mark] does nothing, so no operation
    ever sets a mark and [rewindToMark] throws in every reader reached from
    the constructor, also right after [mark]. *)
Theorem rewindToMark_always_throws input ops r :
  performAll ops (CharacterReader.new input) = Ret tt r ->
  CharacterReader.rewindToMark r = Throw (Error "Mark invalid").
Proof.
  intros H.
  pose proof (performAll_inv input ops _ (new_inv input) _ _ H) as (_ & Hm & _).
  unfold CharacterReader.rewindToMark, bind, gets. now rewrite Hm.
Qed.

Lemma rewindToMark_always_throws_witness :
  CharacterReader.rewindToMark (CharacterReader.set_bufPos 1 (CharacterReader.new (js "ab")))
  = Throw (Error "Mark invalid").
Proof.
  apply (rewindToMark_always_throws (js "ab") [OpMark; OpConsume]).
  reflexivity.
Defined.

(** ** The cap on the number of attributes *)

Ltac inv_step :=
  match goal with
  | |- preserves _ (bind _ _) => apply preserves_bind; [| intros ?]
  | |- preserves _ (ret _) => apply preserves_ret
  | |- preserves _ (throw _) => apply preserves_throw
  | |- preserves _ get => apply preserves_get
  | |- preserves _ (gets _) => apply preserves_gets
  | |- preserves _ (Assert.isFalse _) => apply preserves_isFalse
  | |- preserves _ (when _ _) => apply preserves_when_cond; intros ?
  | |- preserves _ (match ?x with _ => _ end) => destruct x eqn:?
  end.

Section TagCap.
Ltac tag_modify :=
  apply preserves_modify; let Hg := fresh "Hg" in intros [] Hg; exact Hg.

Lemma reset_ok : preserves tagOk Tag.reset.
Proof. apply preserves_modify. intros; exact I. Qed.

Lemma length_add name value a :
  Attributes.length (Attributes.add name value a) = Attributes.length a + 1.
Proof. unfold Attributes.length, Attributes.add, len. rewrite length_app. cbn. lia. Qed.

Lemma newAttribute_ok : preserves tagOk Tag.newAttribute.
Proof.
  unfold Tag.newAttribute.
  repeat first [ inv_step | tag_modify ].
  - apply preserves_modify. intros [] _. vm_compute. discriminate.
  - apply preserves_modify. intros [] _. unfold tagOk. cbn. rewrite length_add.
    match goal with H : (_ <? _) = true |- _ => apply Z.ltb_lt in H end. lia.
Qed.

Lemma finaliseTag_ok : preserves tagOk Tag.finaliseTag.
Proof. unfold Tag.finaliseTag. repeat inv_step. apply newAttribute_ok. Qed.

Lemma get_tagName_ok : preserves tagOk Tag.get_tagName.
Proof. unfold Tag.get_tagName. repeat inv_step. Qed.

Lemma set_tagName_ok name : preserves tagOk (Tag.set_tagName name).
Proof. unfold Tag.set_tagName. tag_modify. Qed.

Lemma appendTagName_ok append : preserves tagOk (Tag.appendTagName append).
Proof. unfold Tag.appendTagName. tag_modify. Qed.

Lemma appendAttributeName_ok append : preserves tagOk (Tag.appendAttributeName append).
Proof. unfold Tag.appendAttributeName. tag_modify. Qed.

Lemma ensureAttributeValue_ok : preserves tagOk Tag.ensureAttributeValue.
Proof. unfold Tag.ensureAttributeValue. repeat first [ inv_step | tag_modify ]. Qed.

Lemma appendAttributeValue_ok append : preserves tagOk (Tag.appendAttributeValue append).
Proof.
  unfold Tag.appendAttributeValue.
  repeat first [ apply ensureAttributeValue_ok | inv_step | tag_modify ].
Qed.

Lemma appendAttributeValueArray_ok append :
  preserves tagOk (Tag.appendAttributeValueArray append).
Proof.
  unfold Tag.appendAttributeValueArray.
  repeat first [ apply ensureAttributeValue_ok | inv_step | tag_modify ].
Qed.

Lemma setEmptyAttributeValue_ok : preserves tagOk Tag.setEmptyAttributeValue.
Proof. unfold Tag.setEmptyAttributeValue. tag_modify. Qed.

Lemma set_selfClosing_ok b : preserves tagOk (modify (Tag.set_selfClosing b)).
Proof. tag_modify. Qed.
End TagCap.

Create HintDb cap discriminated.
#[local] Hint Resolve reset_ok newAttribute_ok finaliseTag_ok get_tagName_ok set_tagName_ok
  appendTagName_ok appendAttributeName_ok appendAttributeValue_ok
  appendAttributeValueArray_ok setEmptyAttributeValue_ok set_selfClosing_ok
  ensureAttributeValue_ok : cap.

Section TokeniserCap.
Import Tokeniser.

Ltac tok_modify :=
  apply preserves_modify; let Hk := fresh "Hk" in intros [] Hk; exact Hk.

Lemma onReader_ok {A} (m : M CharacterReader.t A) : preserves tokeniserOk (onReader m).
Proof. apply preserves_zoom. intros t [] H; exact H. Qed.

Lemma onComment_ok {A} (m : M Comment.t A) : preserves tokeniserOk (onComment m).
Proof. apply preserves_zoom. intros t [] H; exact H. Qed.

Lemma onDoctype_ok {A} (m : M Doctype.t A) : preserves tokeniserOk (onDoctype m).
Proof. apply preserves_zoom. intros t [] H; exact H. Qed.

Lemma onTagRef_ok {A} r (m : M Tag.t A) :
  preserves tagOk m -> preserves tokeniserOk (onTagRef r m).
Proof.
  intros Hm. destruct r; cbn [onTagRef].
  - apply (preserves_zoom_inv _ tagOk); [exact Hm | intros s [H _]; exact H |].
    intros t [] [_ H2] Ht. split; [exact Ht | exact H2].
  - apply (preserves_zoom_inv _ tagOk); [exact Hm | intros s [_ H]; exact H |].
    intros t [] [H1 _] Ht. split; [exact H1 | exact Ht].
Qed.

Lemma onTagPending_ok {A} (m : M Tag.t A) :
  preserves tagOk m -> preserves tokeniserOk (onTagPending m).
Proof.
  intros Hm. unfold onTagPending. repeat inv_step. now apply onTagRef_ok.
Qed.

Lemma pushError_ok msg : preserves tokeniserOk (pushError msg).
Proof.
  unfold pushError. repeat first [ inv_step | apply onReader_ok | tok_modify ].
Qed.

Lemma error_ok st : preserves tokeniserOk (error st).
Proof.
  unfold error. repeat first [ inv_step | apply onReader_ok | tok_modify ].
Qed.

Lemma errorMessage_ok msg : preserves tokeniserOk (errorMessage msg).
Proof. apply pushError_ok. Qed.

Lemma eofError_ok st : preserves tokeniserOk (eofError st).
Proof. apply pushError_ok. Qed.

Lemma typeOf_ok r : preserves tokeniserOk (typeOf r).
Proof. unfold typeOf. repeat inv_step. Qed.

Lemma emitToken_ok token : preserves tokeniserOk (emitToken token).
Proof.
  unfold emitToken.
  repeat first [ inv_step | apply typeOf_ok | apply errorMessage_ok
               | apply onTagRef_ok, get_tagName_ok | tok_modify ].
Qed.

Lemma emitString_ok str : preserves tokeniserOk (emitString str).
Proof. unfold emitString. repeat first [ inv_step | tok_modify ]. Qed.

Lemma emitChars_ok chars : preserves tokeniserOk (emitChars chars).
Proof. apply emitString_ok. Qed.

Lemma transition_ok st : preserves tokeniserOk (transition st).
Proof. unfold transition. tok_modify. Qed.

Lemma advanceTransition_ok st : preserves tokeniserOk (advanceTransition st).
Proof.
  unfold advanceTransition. repeat first [ inv_step | apply onReader_ok | tok_modify ].
Qed.

Lemma createTagPending_ok start : preserves tokeniserOk (createTagPending start).
Proof.
  unfold createTagPending.
  repeat first [ inv_step | apply onTagRef_ok, reset_ok | tok_modify ].
Qed.

Lemma emitTagPending_ok : preserves tokeniserOk emitTagPending.
Proof.
  unfold emitTagPending.
  repeat first [ inv_step | apply onTagPending_ok, finaliseTag_ok | apply emitToken_ok ].
Qed.

Lemma createCommentPending_ok : preserves tokeniserOk createCommentPending.
Proof. apply onComment_ok. Qed.

Lemma emitCommentPending_ok : preserves tokeniserOk emitCommentPending.
Proof. apply emitToken_ok. Qed.

Lemma createBogusCommentPending_ok : preserves tokeniserOk createBogusCommentPending.
Proof. unfold createBogusCommentPending. repeat first [ inv_step | apply onComment_ok ]. Qed.

Lemma createDoctypePending_ok : preserves tokeniserOk createDoctypePending.
Proof. apply onDoctype_ok. Qed.

Lemma emitDoctypePending_ok : preserves tokeniserOk emitDoctypePending.
Proof. apply emitToken_ok. Qed.

Lemma createTempBuffer_ok : preserves tokeniserOk createTempBuffer.
Proof. unfold createTempBuffer. tok_modify. Qed.

Lemma isAppropriateEndTagToken_ok : preserves tokeniserOk isAppropriateEndTagToken.
Proof.
  unfold isAppropriateEndTagToken.
  repeat first [ inv_step | apply onTagPending_ok, get_tagName_ok ].
Qed.

Lemma appropriateEndTagName_ok : preserves tokeniserOk appropriateEndTagName.
Proof. apply preserves_gets. Qed.

Lemma consumeCharacterReference_ok a b :
  preserves tokeniserOk (consumeCharacterReference a b).
Proof. apply preserves_throw. Qed.

Lemma str_ok c : preserves tokeniserOk (States.str c).
Proof. unfold States.str. repeat inv_step. Qed.

Lemma appendData_ok s : preserves tokeniserOk (States.appendData s).
Proof. unfold States.appendData. tok_modify. Qed.

Lemma charAt0_ok c : preserves tokeniserOk (States.charAt0 c).
Proof. unfold States.charAt0. repeat inv_step. Qed.

Lemma appendAttributeValueChar_ok c : preserves tokeniserOk (States.appendAttributeValueChar c).
Proof.
  unfold States.appendAttributeValueChar.
  repeat first [ inv_step | apply onTagPending_ok; auto with cap ].
Qed.

Lemma gets_ok {A} (f : Tokeniser.t -> A) : preserves tokeniserOk (gets f).
Proof. apply preserves_gets. Qed.
End TokeniserCap.

#[local] Hint Resolve onReader_ok onComment_ok onDoctype_ok onTagPending_ok
  error_ok errorMessage_ok eofError_ok emitToken_ok emitString_ok emitChars_ok
  transition_ok advanceTransition_ok createTagPending_ok emitTagPending_ok
  createCommentPending_ok emitCommentPending_ok createBogusCommentPending_ok
  createDoctypePending_ok emitDoctypePending_ok createTempBuffer_ok
  isAppropriateEndTagToken_ok appropriateEndTagName_ok consumeCharacterReference_ok
  str_ok appendData_ok gets_ok charAt0_ok appendAttributeValueChar_ok : cap.

Create HintDb states.
#[local] Hint Unfold States.emitChar States.setForceQuirks States.handleDataEndTag
  States.readRawData States.readCharRef States.readEndTag States.handleDataDoubleEscapeTag
  States.anythingElse States.attributeCharRef
  States.appendComment States.appendName States.appendPublicIdentifier
  States.appendSystemIdentifier States.quirksEmit States.quirksEmitEof States.quirksBogus
  States.Data States.CharacterReferenceInData States.Rcdata
  States.CharacterReferenceInRcdata States.Rawtext States.ScriptData States.PLAINTEXT
  States.TagOpen States.EndTagOpen States.TagName States.RcdataLessthanSign
  States.RCDATAEndTagOpen States.RCDATAEndTagName States.RawtextLessthanSign
  States.RawtextEndTagOpen States.RawtextEndTagName States.ScriptDataLessthanSign
  States.ScriptDataEndTagOpen States.ScriptDataEndTagName States.ScriptDataEscapeStart
  States.ScriptDataEscapeStartDash States.ScriptDataEscaped States.ScriptDataEscapedDash
  States.ScriptDataEscapedDashDash States.ScriptDataEscapedLessthanSign
  States.ScriptDataEscapedEndTagOpen States.ScriptDataEscapedEndTagName
  States.ScriptDataDoubleEscapeStart States.ScriptDataDoubleEscaped
  States.ScriptDataDoubleEscapedDash States.ScriptDataDoubleEscapedDashDash
  States.ScriptDataDoubleEscapedLessthanSign States.ScriptDataDoubleEscapeEnd
  States.BeforeAttributeName States.AttributeName States.AfterAttributeName
  States.BeforeAttributeValue States.AttributeValue_doubleQuoted
  States.AttributeValue_singleQuoted States.AttributeValue_unquoted
  States.AfterAttributeValue_quoted States.SelfClosingStartTag States.BogusComment
  States.MarkupDeclarationOpen States.CommentStart States.CommentStartDash
  States.Comment States.CommentEndDash States.CommentEnd States.CommentEndBang
  States.Doctype States.BeforeDoctypeName States.DoctypeName States.AfterDoctypeName
  States.AfterDoctypePublicKeyword States.BeforeDoctypePublicIdentifier
  States.DoctypePublicIdentifier_doubleQuoted States.DoctypePublicIdentifier_singleQuoted
  States.AfterDoctypePublicIdentifier States.BetweenDoctypePublicAndSystemIdentifiers
  States.AfterDoctypeSystemKeyword States.BeforeDoctypeSystemIdentifier
  States.DoctypeSystemIdentifier_doubleQuoted States.DoctypeSystemIdentifier_singleQuoted
  States.AfterDoctypeSystemIdentifier States.BogusDoctype States.CdataSection : states.

Ltac cap_step := first [ inv_step | solve [ auto with cap ] ].

(** Every state callback keeps the cap on both reusable tag objects. *)
Lemma state_read_ok st : preserves tokeniserOk (States.read st).
Proof.
  destruct st; cbn [States.read]; autounfold with states; repeat cap_step.
Qed.

Lemma readLoop_ok fuel : preserves tokeniserOk (readLoop fuel).
Proof.
  induction fuel as [|fuel IH]; cbn [readLoop].
  - intros k _ a k' [=].
  - repeat first [ exact IH | apply state_read_ok | inv_step ].
Qed.

Lemma readEmit_ok :
  hoare tokeniserOk readEmit (fun tok k => tokenOk tok /\ tokeniserOk k).
Proof.
  intros [] [H1 H2] tok k'. unfold readEmit, bind, get, modify, ret, throw. cbn.
  repeat case_match; intros [= <- <-]; cbn; repeat split; auto.
  match goal with t : TokenRef |- _ => destruct t as [[]| | | |] end; cbn; auto.
Qed.

Lemma read_ok fuel :
  hoare tokeniserOk (read fuel) (fun tok k => tokenOk tok /\ tokeniserOk k).
Proof.
  unfold read. eapply hoare_bind; [apply readLoop_ok | intros ?; apply readEmit_ok].
Qed.

Lemma reads_ok fuel n :
  hoare tokeniserOk (reads fuel n) (fun toks k => Forall tokenOk toks /\ tokeniserOk k).
Proof.
  induction n as [|n IH]; cbn [reads].
  - intros k Hk a k' [= <- <-]. split; [constructor | exact Hk].
  - eapply hoare_bind; [apply read_ok |]. intros tok. cbn beta.
    intros k [Htok Hk] toks k' H.
    apply bind_Ret in H as (rest & k1 & H1 & H2). injection H2 as <- <-.
    destruct (IH k Hk rest k1 H1) as [Hrest Hk1]. split; [constructor |]; assumption.
Qed.

Lemma tokeniser_new_ok errors input : tokeniserOk (tokeniserWith errors input).
Proof. split; exact I. Qed.

Lemma newAttribute_at_cap g a :
  Tag.attributes g = Some a ->
  Tag.MaxAttributes <= Attributes.length a ->
  Tag.newAttribute g
  = Ret tt (Tag.set_pendingAttributeValueS None
             (Tag.set_pendingAttributeValue StringBuilder.new
               (Tag.set_hasPendingAttributeValue false
                 (Tag.set_hasEmptyAttributeValue false
                   (Tag.set_pendingAttributeName None g))))).
Proof.
  intros Ha Hcap. apply Z.ltb_ge in Hcap.
  unfold Tag.newAttribute, bind, get, modify, ret, when. rewrite Ha. cbn.
  rewrite Ha.
  destruct (Tag.pendingAttributeName g); [| reflexivity].
  rewrite Hcap. reflexivity.
Qed.

(** C9: every tag token returned by [read], for every input and however
    many calls, carries at most 512 attributes; on a tag that already holds
    512 attributes [newAttribute] returns without throwing, leaves the
    attribute list as it is and drops the pending attribute; run on the
    tokeniser's pending tag it records no parse error and leaves state and
    reader alone.  The bound on the tokens holds from every tokeniser whose
    two tag objects are within the cap, and the cap holds of them
    afterwards. *)
Theorem attribute_cap :
  (forall input errors fuel n toks k,
      reads fuel n (tokeniserWith errors input) = Ret toks k ->
      Forall tokenOk toks)
  /\ (forall g a,
        Tag.attributes g = Some a ->
        Tag.MaxAttributes <= Attributes.length a ->
        exists g',
          Tag.newAttribute g = Ret tt g'
          /\ Tag.attributes g' = Some a
          /\ Tag.pendingAttributeName g' = None)
  /\ (forall k r a,
        Tokeniser.tagPending k = Some r ->
        Tag.attributes (Tokeniser.tagOf r k) = Some a ->
        Tag.MaxAttributes <= Attributes.length a ->
        exists k',
          Tokeniser.onTagPending Tag.newAttribute k = Ret tt k'
          /\ Tag.attributes (Tokeniser.tagOf r k') = Some a
          /\ Tokeniser.errors k' = Tokeniser.errors k
          /\ Tokeniser.state k' = Tokeniser.state k
          /\ Tokeniser.reader k' = Tokeniser.reader k)
  /\ (forall k fuel n toks k',
        tokeniserOk k ->
        reads fuel n k = Ret toks k' ->
        Forall tokenOk toks /\ tokeniserOk k').
Proof.
  split; [| split; [| split]]; cycle 3.
  - intros k fuel n toks k' Hk H. exact (reads_ok fuel n k Hk toks k' H).
  - intros input errors fuel n toks k H.
    exact (proj1 (reads_ok fuel n _ (tokeniser_new_ok errors input) _ _ H)).
  - intros g a Ha Hcap. eexists. split; [apply (newAttribute_at_cap g a Ha Hcap) |].
    destruct g; cbn in *. auto.
  - intros k r a Hr Ha Hcap.
    unfold Tokeniser.onTagPending, bind, gets. rewrite Hr.
    destruct r; cbn [Tokeniser.onTagRef Tokeniser.tagOf] in *; unfold zoom;
      rewrite (newAttribute_at_cap _ a Ha Hcap); eexists; (split; [reflexivity |]);
      destruct k as [? ? ? ? ? ? ? sp ep ? ? ? ? ? ?]; cbn in *;
      [destruct sp | destruct ep]; cbn in *; auto.
Qed.

Lemma attribute_cap_witness :
  Forall tokenOk tokensOfEmptyInput
  /\ (exists g',
        Tag.newAttribute fullTag = Ret tt g'
        /\ Tag.attributes g' = Some (repeat (Attribute.mk (js "x") []) 512)
        /\ Tag.pendingAttributeName g' = None)
  /\ (exists k',
        Tokeniser.onTagPending Tag.newAttribute fullTokeniser = Ret tt k'
        /\ Tag.attributes (Tokeniser.tagOf StartPending k')
           = Some (repeat (Attribute.mk (js "x") []) 512)
        /\ Tokeniser.errors k' = Tokeniser.errors fullTokeniser
        /\ Tokeniser.state k' = Tokeniser.state fullTokeniser
        /\ Tokeniser.reader k' = Tokeniser.reader fullTokeniser)
  /\ (Forall tokenOk (default [] (returned (reads 10 2 crowdedTokeniser)))
      /\ tokeniserOk (default crowdedTokeniser (final (reads 10 2 crowdedTokeniser)))).
Proof.
  split; [| split; [| split]]; cycle 3.
  - apply (proj2 (proj2 (proj2 attribute_cap)) crowdedTokeniser 10%nat 2%nat).
    + split; vm_compute; [discriminate | exact I].
    + vm_compute. reflexivity.
  - eapply (proj1 attribute_cap [] (ParseErrorList.tracking 100) 10%nat 2%nat).
    vm_compute. reflexivity.
  - apply (proj1 (proj2 attribute_cap) fullTag).
    + reflexivity.
    + vm_compute. discriminate.
  - apply (proj1 (proj2 (proj2 attribute_cap)) fullTokeniser StartPending).
    + reflexivity.
    + reflexivity.
    + vm_compute. discriminate.
Defined.

(** ** Attributes on an end tag *)

(** C10: when the pending end tag has a non-empty attribute list and no
    token is pending yet, [emitToken] returns, marks the end tag as the
    pending token, leaves the tag (and so its attributes) as it is, and
    appends the error 'Attributes incorrectly present on end tag' at the
    reader's position unless the error list is full; the next [read] hands
    out that end tag once the buffered characters are gone. *)
Theorem end_tag_attributes_recorded k a :
  Tokeniser.isEmitPending k = false ->
  Tag.attributes (Tokeniser.endPending k) = Some a ->
  0 < Attributes.length a ->
  exists k',
    Tokeniser.emitToken (TagToken EndPending) k = Ret tt k'
    /\ Tokeniser.errors k'
       = (if ParseErrorList.canAddError (Tokeniser.errors k)
          then ParseErrorList.push (endTagError k) (Tokeniser.errors k)
          else Tokeniser.errors k)
    /\ Tokeniser.emitPending k' = Some (TagToken EndPending)
    /\ Tokeniser.isEmitPending k' = true
    /\ Tokeniser.endPending k' = Tokeniser.endPending k
    /\ Tokeniser.deref (TagToken EndPending) k' = EndTag (Tokeniser.endPending k)
    /\ (Tokeniser.charsBuilder k = [] -> Tokeniser.charsString k = None ->
        forall fuel,
          returned (read (S fuel) k') = Some (EndTag (Tokeniser.endPending k))).
Proof.
  intros Hp Ha _.
  unfold Tokeniser.emitToken, bind, gets, get, modify, ret, when, Assert.isFalse.
  rewrite Hp. cbn.
  unfold Tag.hasAttributes. cbn. rewrite Ha.
  unfold Tokeniser.errorMessage, Tokeniser.pushError, bind, get, when. cbn.
  destruct k as [st ep ip cs cb db tp sp en cp dp cmp lst rd er]. cbn in *. subst ip.
  destruct (ParseErrorList.canAddError er) eqn:Ec; cbn.
  - eexists. split; [reflexivity |]. cbn.
    repeat (split; [reflexivity |]).
    intros -> -> fuel. reflexivity.
  - eexists. split; [reflexivity |]. cbn.
    repeat (split; [reflexivity |]).
    intros -> -> fuel. reflexivity.
Qed.

Lemma end_tag_attributes_recorded_witness :
  exists k',
    Tokeniser.emitToken (TagToken EndPending) endTagWithAttribute = Ret tt k'
    /\ Tokeniser.errors k'
       = ParseErrorList.push (endTagError endTagWithAttribute)
           (Tokeniser.errors endTagWithAttribute)
    /\ Tokeniser.emitPending k' = Some (TagToken EndPending)
    /\ Tokeniser.isEmitPending k' = true
    /\ Tokeniser.endPending k' = Tokeniser.endPending endTagWithAttribute
    /\ Tokeniser.deref (TagToken EndPending) k'
       = EndTag (Tokeniser.endPending endTagWithAttribute)
    /\ (Tokeniser.charsBuilder endTagWithAttribute = [] ->
        Tokeniser.charsString endTagWithAttribute = None ->
        forall fuel,
          returned (read (S fuel) k')
          = Some (EndTag (Tokeniser.endPending endTagWithAttribute))).
Proof.
  apply (end_tag_attributes_recorded endTagWithAttribute
           [Attribute.mk (js "c") (js "null")]).
  - reflexivity.
  - reflexivity.
  - reflexivity.
Defined.

(** The same through the methods that build and emit the tag: the end tag
    comes out of [read] with its attribute and the error is in the list. *)
Example end_tag_with_attribute_run :
  match (Tokeniser.createTagPending false ;;
         Tokeniser.onTagPending (Tag.appendTagName (js "a")) ;;
         Tokeniser.onTagPending (Tag.appendAttributeName (js "c")) ;;
         Tokeniser.emitTagPending ;;
         read 10) (tokeniser [])
  with
  | Ret (EndTag g) k =>
      Tag.attributes g = Some [Attribute.mk (js "c") (js "null")]
      /\ ParseErrorList.errors (Tokeniser.errors k)
         = [mkParseError 0 (Message "Attributes incorrectly present on end tag")]
  | _ => False
  end.
Proof. vm_compute. split; reflexivity. Qed.

(** * Further properties *)

(** ** Attribute lists *)

Lemma jsstring_eqb_refl s : jsstring_eqb s s = true.
Proof. unfold jsstring_eqb. destruct (decide (s = s)); congruence. Qed.

Lemma jsstring_eqb_eq a b : jsstring_eqb a b = true <-> a = b.
Proof. unfold jsstring_eqb. destruct (decide (a = b)); split; congruence. Qed.

Lemma findIndex_app_found {A} (p : A -> bool) l l' :
  findIndex p l <> -1 -> findIndex p (l ++ l') = findIndex p l.
Proof.
  induction l as [|x l IH]; cbn; [congruence |].
  destruct (p x); [reflexivity |].
  destruct (findIndex p l =? -1) eqn:E; [congruence |].
  apply Z.eqb_neq in E. rewrite (IH E), (proj2 (Z.eqb_neq _ _) E). reflexivity.
Qed.

Lemma findIndex_app_not_found {A} (p : A -> bool) l x :
  findIndex p l = -1 -> p x = true -> findIndex p (l ++ [x]) = len l.
Proof.
  unfold len. induction l as [|y l IH]; cbn; intros H Hx.
  - now rewrite Hx.
  - destruct (p y); [discriminate |].
    pose proof (findIndex_range p l) as Hr.
    destruct (findIndex p l =? -1) eqn:E; [| apply Z.eqb_neq in E; lia].
    apply Z.eqb_eq in E. rewrite (IH E Hx).
    pose proof (Nat2Z.is_nonneg (length l)).
    destruct (Z.of_nat (length l) =? -1) eqn:E'; [apply Z.eqb_eq in E'; lia | lia].
Qed.

Lemma findIndex_bounds {A} (p : A -> bool) l :
  findIndex p l = -1 \/ 0 <= findIndex p l < len l.
Proof.
  unfold len. induction l as [|x l IH]; cbn; [now left |].
  destruct (p x); [right; lia |].
  destruct (findIndex p l =? -1) eqn:E; [now left |].
  apply Z.eqb_neq in E. right. lia.
Qed.

Lemma at_index_app_l {A} (l l' : list A) i :
  0 <= i < len l -> at_index (l ++ l') i = at_index l i.
Proof.
  unfold at_index, len. intros H. destruct (i <? 0) eqn:E; [apply Z.ltb_lt in E; lia |].
  apply nth_error_app1. lia.
Qed.

Lemma at_index_none {A} (l : list A) : at_index l (-1) = None.
Proof. reflexivity. Qed.

(** X1: [add] never hides an attribute: looking up the (trimmed) key just
    added gives the attribute that already had that key, if there was one,
    and the new attribute otherwise. *)
Theorem get_after_add name value a :
  AttributesOps.get (trim name) (Attributes.add name value a)
  = Some (default (Attribute.new name (Attributes.template value))
                  (AttributesOps.get (trim name) a)).
Proof.
  unfold AttributesOps.get, AttributesOps.indexOfKey, Attributes.add.
  set (p := fun attr => jsstring_eqb (Attribute.get_key attr) (trim name)).
  destruct (findIndex_bounds p a) as [H|H].
  - rewrite H, at_index_none. cbn [default].
    rewrite findIndex_app_not_found; [| exact H | apply jsstring_eqb_refl].
    unfold at_index, len.
    destruct (Z.of_nat (length a) <? 0) eqn:E; [apply Z.ltb_lt in E; lia |].
    rewrite Nat2Z.id, nth_error_app2, Nat.sub_diag by lia. reflexivity.
  - rewrite findIndex_app_found by lia. rewrite at_index_app_l by exact H.
    unfold at_index. destruct (_ <? 0) eqn:E; [apply Z.ltb_lt in E; lia |].
    destruct (nth_error a _) eqn:En; [reflexivity |].
    apply nth_error_None in En. unfold len in H. lia.
Qed.

Lemma get_cons other x l :
  AttributesOps.get other (x :: l)
  = if jsstring_eqb (Attribute.get_key x) other then Some x else AttributesOps.get other l.
Proof.
  unfold AttributesOps.get, AttributesOps.indexOfKey. cbn [findIndex].
  destruct (jsstring_eqb (Attribute.get_key x) other); [reflexivity |].
  set (i := findIndex _ l). pose proof (findIndex_range _ l : -1 <= i) as Hi.
  destruct (i =? -1) eqn:E; [apply Z.eqb_eq in E; now rewrite E |].
  apply Z.eqb_neq in E. unfold at_index.
  destruct (i + 1 <? 0) eqn:E1; [apply Z.ltb_lt in E1; lia |].
  destruct (i <? 0) eqn:E2; [apply Z.ltb_lt in E2; lia |].
  replace (Z.to_nat (i + 1)) with (S (Z.to_nat i)) by lia. reflexivity.
Qed.

Lemma hasKey_cons name x l :
  AttributesOps.hasKey name (x :: l)
  = jsstring_eqb (Attribute.get_key x) name || AttributesOps.hasKey name l.
Proof.
  unfold AttributesOps.hasKey, AttributesOps.indexOfKey. cbn [findIndex].
  destruct (jsstring_eqb (Attribute.get_key x) name); [reflexivity |].
  set (i := findIndex _ l). pose proof (findIndex_range _ l : -1 <= i) as Hi.
  destruct (i =? -1) eqn:E; [reflexivity |].
  apply Z.eqb_neq in E. cbn. destruct (i + 1 =? -1) eqn:E'; [apply Z.eqb_eq in E'; lia | reflexivity].
Qed.

Lemma remove_cons name x l :
  AttributesOps.remove name (x :: l)
  = if jsstring_eqb (Attribute.get_key x) name then l else x :: AttributesOps.remove name l.
Proof.
  unfold AttributesOps.remove, AttributesOps.indexOfKey. cbn [findIndex].
  destruct (jsstring_eqb (Attribute.get_key x) name); [reflexivity |].
  set (i := findIndex _ l). pose proof (findIndex_range _ l : -1 <= i) as Hi.
  destruct (i =? -1) eqn:E; [reflexivity |].
  apply Z.eqb_neq in E. destruct (i + 1 =? -1) eqn:E'; [apply Z.eqb_eq in E'; lia |].
  cbn [negb]. replace (Z.to_nat (i + 1)) with (S (Z.to_nat i)) by lia. reflexivity.
Qed.

Lemma remove_counts name a :
  Attributes.length (AttributesOps.remove name a)
  = Attributes.length a - (if AttributesOps.hasKey name a then 1 else 0)
  /\ (forall other, other <> name ->
        AttributesOps.get other (AttributesOps.remove name a) = AttributesOps.get other a)
  /\ (AttributesOps.hasKey name a = false -> AttributesOps.remove name a = a).
Proof.
  unfold Attributes.length, len.
  induction a as [|x l (IH1 & IH2 & IH3)].
  - repeat split.
  - rewrite remove_cons, hasKey_cons.
    destruct (jsstring_eqb (Attribute.get_key x) name) eqn:E; cbn [orb].
    + split; [cbn [length]; lia |]. split; [| discriminate].
      intros other Hne. rewrite get_cons.
      apply jsstring_eqb_eq in E. rewrite E.
      destruct (jsstring_eqb name other) eqn:E'; [| reflexivity].
      apply jsstring_eqb_eq in E'. congruence.
    + split; [cbn [length]; destruct (AttributesOps.hasKey name l); lia |].
      split.
      * intros other Hne. rewrite !get_cons, (IH2 other Hne). reflexivity.
      * intros H. now rewrite (IH3 H).
Qed.

Lemma remove_split name pre x post :
  Attribute.get_key x = name ->
  Forall (fun y => Attribute.get_key y <> name) pre ->
  AttributesOps.remove name (pre ++ x :: post) = pre ++ post.
Proof.
  intros Hx Hpre. induction Hpre as [|y pre Hy _ IH]; cbn [app]; rewrite remove_cons.
  - now rewrite Hx, jsstring_eqb_refl.
  - destruct (jsstring_eqb (Attribute.get_key y) name) eqn:E.
    + apply jsstring_eqb_eq in E. contradiction.
    + now rewrite IH.
Qed.

(** X2: [remove] takes out exactly the first attribute with the key, if
    there is one: whenever the list is [pre], then an attribute [x] with
    the key, then [post], and no attribute of [pre] has the key, what is
    left is [pre] followed by [post], so a later attribute with the same
    key stays; the length drops by one or stays, the lookup of every other
    key is unchanged, and without the key the list is left as it is. *)
Theorem remove_first_only name a :
  (forall pre x post,
      a = pre ++ x :: post ->
      Attribute.get_key x = name ->
      Forall (fun y => Attribute.get_key y <> name) pre ->
      AttributesOps.remove name a = pre ++ post)
  /\ Attributes.length (AttributesOps.remove name a)
     = Attributes.length a - (if AttributesOps.hasKey name a then 1 else 0)
  /\ (forall other, other <> name ->
        AttributesOps.get other (AttributesOps.remove name a) = AttributesOps.get other a)
  /\ (AttributesOps.hasKey name a = false -> AttributesOps.remove name a = a).
Proof.
  split; [| apply remove_counts].
  intros pre x post -> Hx Hpre. now apply remove_split.
Qed.

Lemma remove_first_only_witness :
  AttributesOps.remove (js "id")
    [Attribute.mk (js "class") (js "x"); Attribute.mk (js "id") (js "1");
     Attribute.mk (js "id") (js "2")]
  = [Attribute.mk (js "class") (js "x"); Attribute.mk (js "id") (js "2")]
  /\ AttributesOps.get (js "class")
       (AttributesOps.remove (js "id")
          [Attribute.mk (js "class") (js "x"); Attribute.mk (js "id") (js "1");
           Attribute.mk (js "id") (js "2")])
     = AttributesOps.get (js "class")
         [Attribute.mk (js "class") (js "x"); Attribute.mk (js "id") (js "1");
          Attribute.mk (js "id") (js "2")].
Proof.
  split.
  - apply (proj1 (remove_first_only (js "id")
             [Attribute.mk (js "class") (js "x"); Attribute.mk (js "id") (js "1");
              Attribute.mk (js "id") (js "2")])
             [Attribute.mk (js "class") (js "x")] (Attribute.mk (js "id") (js "1"))
             [Attribute.mk (js "id") (js "2")]).
    + reflexivity.
    + reflexivity.
    + repeat constructor. discriminate.
  - apply (proj1 (proj2 (proj2 (remove_first_only (js "id")
             [Attribute.mk (js "class") (js "x"); Attribute.mk (js "id") (js "1");
              Attribute.mk (js "id") (js "2")])))).
    discriminate.
Defined.

Lemma find_at_index {A} (p : A -> bool) l :
  List.find p l = at_index l (findIndex p l).
Proof.
  induction l as [|x l IH]; cbn; [reflexivity |].
  destruct (p x); [reflexivity |].
  pose proof (findIndex_range p l) as Hi. rewrite IH.
  destruct (findIndex p l =? -1) eqn:E; [apply Z.eqb_eq in E; now rewrite E |].
  apply Z.eqb_neq in E. unfold at_index.
  destruct (_ + 1 <? 0) eqn:E1; [apply Z.ltb_lt in E1; lia |].
  destruct (findIndex p l <? 0) eqn:E2; [apply Z.ltb_lt in E2; lia |].
  replace (Z.to_nat (findIndex p l + 1)) with (S (Z.to_nat (findIndex p l))) by lia.
  reflexivity.
Qed.

Lemma nth_error_list_lookup {A} (l : list A) n : nth_error l n = l !! n.
Proof. revert n; induction l as [|x l IH]; intros [|n]; cbn; auto. Qed.

Lemma hasKey_In name x l :
  In x l -> Attribute.get_key x = name -> AttributesOps.hasKey name l = true.
Proof.
  intros Hin <-. induction l as [|y l IH]; [destruct Hin |].
  rewrite hasKey_cons. destruct Hin as [->|Hin].
  - now rewrite jsstring_eqb_refl.
  - rewrite (IH Hin). apply orb_true_r.
Qed.

(** X3: [put(name, value)] with a string value never adds an attribute and
    never stores the value: for a key that is not in the list it throws a
    TypeError, for an empty value it throws, and otherwise it gives the
    first attribute named [name] the new value as its key, leaving its
    value and the rest of the list as they were. *)
Theorem putString_renames name value a :
  AttributesOps.putString name value a
  = match AttributesOps.get name a with
    | None => Throw (TypeError "set_key of undefined")
    | Some attr =>
        if len value =? 0 then Throw (Error "must be not empty.")
        else Ret tt (<[Z.to_nat (AttributesOps.indexOfKey name a)
                       := Attribute.mk value (Attribute.val attr)]> a)
    end
  /\ forall a',
       AttributesOps.putString name value a = Ret tt a' ->
       Attributes.length a' = Attributes.length a
       /\ map Attribute.val a' = map Attribute.val a
       /\ AttributesOps.hasKey value a' = true.
Proof.
  assert (Hspec : AttributesOps.putString name value a
    = match AttributesOps.get name a with
      | None => Throw (TypeError "set_key of undefined")
      | Some attr =>
          if len value =? 0 then Throw (Error "must be not empty.")
          else Ret tt (<[Z.to_nat (AttributesOps.indexOfKey name a)
                         := Attribute.mk value (Attribute.val attr)]> a)
      end).
  { unfold AttributesOps.putString, AttributesOps.findByKey, AttributesOps.get,
      AttributesOps.indexOfKey. rewrite find_at_index.
    destruct (at_index a _); [| reflexivity].
    unfold AttributeOps.set_key, Helper.isEmpty, modify, throw.
    destruct (len value =? 0); reflexivity. }
  split; [exact Hspec |].
  intros a' H. rewrite Hspec in H.
  destruct (AttributesOps.get name a) as [attr|] eqn:Eg; [| discriminate].
  destruct (len value =? 0) eqn:Ev; [discriminate |].
  injection H as <-.
  unfold AttributesOps.get, AttributesOps.indexOfKey in *.
  set (p := fun attr0 => jsstring_eqb (Attribute.get_key attr0) name) in *.
  destruct (findIndex_bounds p a) as [Hi|Hi]; [rewrite Hi in Eg; discriminate |].
  set (i := findIndex p a) in *.
  unfold at_index in Eg. destruct (i <? 0) eqn:E0; [apply Z.ltb_lt in E0; lia |].
  unfold Attributes.length, len, Attributes.t in *.
  split; [now rewrite length_insert |].
  split.
  - rewrite list_fmap_insert. cbn. apply list_insert_id.
    rewrite list_lookup_fmap. rewrite <- nth_error_list_lookup, Eg. reflexivity.
  - apply (hasKey_In value (Attribute.mk value (Attribute.val attr))); [| reflexivity].
    apply list_elem_of_In, list_elem_of_lookup. exists (Z.to_nat i).
    apply list_lookup_insert_eq. unfold len in Hi. lia.
Qed.

Lemma putString_renames_witness :
  AttributesOps.putString (js "id") (js "key") [Attribute.mk (js "id") (js "1")]
  = Ret tt [Attribute.mk (js "key") (js "1")]
  /\ (Attributes.length [Attribute.mk (js "key") (js "1")]
      = Attributes.length [Attribute.mk (js "id") (js "1")]
      /\ map Attribute.val [Attribute.mk (js "key") (js "1")]
         = map Attribute.val [Attribute.mk (js "id") (js "1")]
      /\ AttributesOps.hasKey (js "key") [Attribute.mk (js "key") (js "1")] = true).
Proof.
  split; [reflexivity |].
  apply (proj2 (putString_renames (js "id") (js "key") [Attribute.mk (js "id") (js "1")])).
  reflexivity.
Defined.

(** X4: [hasDeclaredValueForKey] answers true for every list and every
    key, also for a key that is not in the list: for a key that is there
    [get_val] is a string, and for one that is not, [attr?.get_val()] is
    [undefined], which is not strictly [null]. *)
Theorem hasDeclaredValueForKey_always name a :
  AttributesOps.hasDeclaredValueForKey name a = true.
Proof.
  unfold AttributesOps.hasDeclaredValueForKey.
  destruct (AttributesOps.get name a); reflexivity.
Qed.

(** X5: a key made by [internalKey] is recognised by [isInternalKey]
    exactly when the key it was made from is not empty; the bare prefix
    "/" is not an internal key. *)
Theorem internalKey_recognised key :
  AttributesOps.isInternalKey (Some (AttributesOps.internalKey key)) = (0 <? len key).
Proof.
  unfold AttributesOps.isInternalKey, AttributesOps.internalKey, AttributesOps.InternalPrefix, len.
  cbn. rewrite jsstring_eqb_refl, andb_true_r.
  destruct key; cbn; [reflexivity |].
  destruct (Z.pos _ <? _) eqn:E; [symmetry; apply Z.ltb_lt; lia |].
  apply Z.ltb_ge in E. lia.
Qed.

(** ** The character reader *)

Lemma nth_error_skipn_cons {A} (l : list A) n c :
  nth_error l n = Some c -> skipn n l = c :: skipn (S n) l.
Proof.
  revert n. induction l as [|x l IH]; intros [|n] H; try discriminate.
  - injection H as ->. reflexivity.
  - apply (IH n H).
Qed.

Lemma at_index_in_bounds {A} (l : list A) i :
  0 <= i < len l -> exists c, at_index l i = Some c
                              /\ skipn (Z.to_nat i) l = c :: skipn (Z.to_nat (i + 1)) l.
Proof.
  unfold at_index, len. intros H.
  destruct (i <? 0) eqn:E; [apply Z.ltb_lt in E; lia |].
  destruct (nth_error l (Z.to_nat i)) as [c|] eqn:En.
  - exists c. split; [reflexivity |].
    replace (Z.to_nat (i + 1)) with (S (Z.to_nat i)) by lia.
    now apply nth_error_skipn_cons.
  - apply nth_error_None in En. lia.
Qed.

Lemma all_equal_at_starts_with seq : forall charBuf pos,
  0 <= pos -> pos + len seq <= len charBuf ->
  CharacterReader.all_equal_at charBuf pos seq
  = Some (starts_with seq (skipn (Z.to_nat pos) charBuf)).
Proof.
  induction seq as [|ch seq IH]; intros cb pos H0 H1; [reflexivity |].
  unfold len in *. cbn [length] in H1. cbn [CharacterReader.all_equal_at].
  destruct (at_index_in_bounds cb pos) as (c & -> & ->); [unfold len; lia |].
  cbn [starts_with]. unfold CharM.equals. rewrite (N.eqb_sym ch c).
  destruct (N.eqb c ch); [| reflexivity].
  rewrite IH by lia. reflexivity.
Qed.

Lemma rangeEquals_loop_all_equal_at cached : forall charBuf i,
  CharacterReader.rangeEquals_loop charBuf i cached
  = CharacterReader.all_equal_at charBuf i cached.
Proof.
  induction cached as [|d rest IH]; intros cb i; cbn; [reflexivity |].
  destruct (at_index cb i); [| reflexivity].
  destruct (CharM.equals _ _); [apply IH | reflexivity].
Qed.

Lemma starts_with_length pre : forall s,
  starts_with pre s = true -> len pre <= len s.
Proof.
  unfold len. induction pre as [|p pre IH]; intros [|c s] H; cbn in *; try lia; try discriminate.
  apply andb_true_iff in H as [_ H]. apply IH in H. lia.
Qed.

Lemma jsstring_eqb_cons c a p b :
  jsstring_eqb (c :: a) (p :: b) = N.eqb p c && jsstring_eqb a b.
Proof.
  unfold jsstring_eqb. destruct (N.eqb p c) eqn:E.
  - apply N.eqb_eq in E as ->. repeat case_decide; cbn; congruence.
  - apply N.eqb_neq in E. repeat case_decide; cbn; congruence.
Qed.

Lemma starts_with_firstn pre : forall s,
  starts_with pre s = jsstring_eqb (firstn (length pre) s) pre.
Proof.
  induction pre as [|p pre IH]; intros [|c s]; cbn [starts_with firstn length].
  - now rewrite jsstring_eqb_refl.
  - now rewrite jsstring_eqb_refl.
  - unfold jsstring_eqb. destruct (decide _); [discriminate | reflexivity].
  - rewrite IH. symmetry. apply jsstring_eqb_cons.
Qed.

Lemma rangeEquals_in_bounds {S} charBuf start count cached (s : S) :
  0 <= start -> 0 <= count -> start + count <= len charBuf ->
  CharacterReader.rangeEquals charBuf start count cached s
  = Ret (jsstring_eqb (rangeText charBuf start count) cached) s.
Proof.
  intros H0 H1 H2. unfold CharacterReader.rangeEquals, rangeText.
  destruct (count =? len cached) eqn:E.
  - apply Z.eqb_eq in E. rewrite rangeEquals_loop_all_equal_at.
    rewrite all_equal_at_starts_with by lia.
    rewrite starts_with_firstn. unfold ret, len in *.
    replace (Z.to_nat count) with (length cached) by lia. reflexivity.
  - apply Z.eqb_neq in E. unfold ret, jsstring_eqb.
    destruct (decide _) as [Heq|]; [| reflexivity].
    exfalso. apply E. rewrite <- Heq. unfold len in *.
    rewrite length_firstn, length_skipn. lia.
Qed.

(** X6: [rangeEquals] answers whether the cached string is the text of
    the range, for every range that lies inside the buffer. *)
Theorem rangeEquals_exact {S} charBuf start count cached (s : S) :
  0 <= start -> 0 <= count -> start + count <= len charBuf ->
  CharacterReader.rangeEquals charBuf start count cached s
  = Ret (jsstring_eqb (rangeText charBuf start count) cached) s.
Proof. apply rangeEquals_in_bounds. Qed.

Lemma rangeEquals_exact_witness :
  CharacterReader.rangeEquals (js "abcd") 1 2 (js "bc") tt = Ret true tt.
Proof.
  apply (rangeEquals_exact (js "abcd") 1 2 (js "bc") tt); [lia | lia | vm_compute; discriminate].
Defined.

Lemma range_chars_in_bounds n : forall charBuf start,
  0 <= start -> start + Z.of_nat n <= len charBuf ->
  CharacterReader.range_chars charBuf start n
  = Some (rangeText charBuf start (Z.of_nat n)).
Proof.
  unfold rangeText. induction n as [|n IH]; intros cb start H0 H1; [reflexivity |].
  cbn [CharacterReader.range_chars].
  destruct (at_index_in_bounds cb start) as (c & -> & E); [lia |].
  rewrite IH by lia. rewrite E, !Nat2Z.id. reflexivity.
Qed.

Lemma cache_index_range h :
  0 <= Z.land (ToInt32 h) (ToInt32 (CharacterReader.stringCacheSize - 1))
    < CharacterReader.stringCacheSize.
Proof.
  replace (ToInt32 (CharacterReader.stringCacheSize - 1)) with (Z.ones 9) by reflexivity.
  rewrite Z.land_ones by lia.
  change CharacterReader.stringCacheSize with (2 ^ 9). apply Z.mod_pos_bound. lia.
Qed.

Lemma cacheString_in_bounds charBuf start count c :
  0 <= start -> 1 <= count <= CharacterReader.maxStringCacheLen ->
  start + count <= len charBuf ->
  exists i, 0 <= i < CharacterReader.stringCacheSize
    /\ CharacterReader.cacheString charBuf start count c
       = if decide (c !! i = Some (rangeText charBuf start count))
         then Ret (rangeText charBuf start count) c
         else let fresh := join (js ",") (slice charBuf start count) in
              Ret fresh (<[i := fresh]> c).
Proof.
  intros H0 [H1 H2] H3. unfold CharacterReader.cacheString.
  destruct (count >? _) eqn:E1; [apply Z.gtb_lt in E1; lia |].
  destruct (count <? 1) eqn:E2; [apply Z.ltb_lt in E2; lia |].
  rewrite range_chars_in_bounds by lia. rewrite Z2Nat.id by lia.
  set (h := Z_of_float _).
  exists (Z.land (ToInt32 h) (ToInt32 (CharacterReader.stringCacheSize - 1))).
  split; [apply cache_index_range |].
  set (i := Z.land _ _). unfold bind, gets.
  destruct (c !! i) as [s|] eqn:Ec.
  - rewrite rangeEquals_in_bounds by lia.
    destruct (jsstring_eqb _ s) eqn:Es.
    + apply jsstring_eqb_eq in Es. subst s.
      destruct (decide _); [reflexivity | congruence].
    + destruct (decide _) as [Heq|]; [| reflexivity].
      injection Heq as Heq. rewrite <- Heq, jsstring_eqb_refl in Es. discriminate.
  - unfold ret. destruct (decide _); [congruence | reflexivity].
Qed.

(** X7: [cacheString] on a range of 1 to 12 characters inside the buffer
    always returns, and does one of two things with one slot of the 512:
    when the slot holds the text of the range, it returns that text and
    leaves the cache alone; otherwise it returns
    [charBuf.slice(start, count).join()] and writes that into the slot. *)
Theorem cacheString_hit_or_miss charBuf start count c :
  0 <= start -> 1 <= count <= CharacterReader.maxStringCacheLen ->
  start + count <= len charBuf ->
  exists i, 0 <= i < CharacterReader.stringCacheSize
    /\ CharacterReader.cacheString charBuf start count c
       = if decide (c !! i = Some (rangeText charBuf start count))
         then Ret (rangeText charBuf start count) c
         else let fresh := join (js ",") (slice charBuf start count) in
              Ret fresh (<[i := fresh]> c).
Proof. apply cacheString_in_bounds. Qed.

Lemma cacheString_hit_or_miss_witness :
  exists i, 0 <= i < CharacterReader.stringCacheSize
    /\ CharacterReader.cacheString (js "abc") 1 2 (CharacterReader.stringCache (CharacterReader.new (js "abc")))
       = Ret (js "b") (<[i := js "b"]> (CharacterReader.stringCache (CharacterReader.new (js "abc")))).
Proof.
  destruct (cacheString_hit_or_miss (js "abc") 1 2
              (CharacterReader.stringCache (CharacterReader.new (js "abc"))))
    as (i & Hi & E);
    [lia | unfold CharacterReader.maxStringCacheLen; lia | vm_compute; discriminate |].
  exists i. split; [exact Hi |]. rewrite E. reflexivity.
Defined.

Lemma cacheString_slot charBuf start count c s c' :
  CharacterReader.cacheString charBuf start count c = Ret s c' ->
  c' = c \/ exists i, 0 <= i < CharacterReader.stringCacheSize /\ c' = <[i := s]> c.
Proof.
  unfold CharacterReader.cacheString.
  destruct (count >? _); [intros [= <- <-]; now left |].
  destruct (count <? 1); [intros [= <- <-]; now left |].
  destruct (CharacterReader.range_chars _ _ _); [| discriminate].
  set (h := Z_of_float _).
  pose proof (cache_index_range h) as Hi. set (i := Z.land _ _) in *.
  unfold bind, gets.
  destruct (c !! i) as [s0|] eqn:Ec.
  - unfold CharacterReader.rangeEquals.
    destruct (count =? len s0).
    + destruct (CharacterReader.rangeEquals_loop _ _ _) as [[]|]; unfold ret, throw, modify;
        intros [= <- <-]; eauto.
    + unfold ret, modify. intros [= <- <-]; eauto.
  - unfold ret, modify. intros [= <- <-]; eauto.
Qed.

Lemma cacheInRange_insert c i s :
  cacheInRange c -> 0 <= i < CharacterReader.stringCacheSize ->
  cacheInRange (<[i := s]> c).
Proof.
  intros Hc Hi j Hj. destruct (decide (i = j)) as [<-|Hne]; [exact Hi |].
  rewrite lookup_insert_ne in Hj by exact Hne. auto.
Qed.

Lemma cache_cacheInRange b start count :
  preserves (fun r => cacheInRange (CharacterReader.stringCache r))
            (CharacterReader.cache b start count).
Proof.
  intros r Hr a r'. unfold CharacterReader.cache, zoom.
  destruct (CharacterReader.cacheString _ _ _ _) as [s c'| |] eqn:E; intros [= <- <-].
  cbn. apply cacheString_slot in E as [->|(i & Hi & ->)]; [exact Hr |].
  now apply cacheInRange_insert.
Qed.

Lemma perform_cacheInRange op :
  preserves (fun r => cacheInRange (CharacterReader.stringCache r)) (perform op).
Proof.
  assert (Hmod : forall f, preserves (fun r => cacheInRange (CharacterReader.stringCache r))
                                     (modify (CharacterReader.set_bufPos f))).
  { intros f. apply preserves_modify. auto. }
  assert (HtoEnd : preserves (fun r => cacheInRange (CharacterReader.stringCache r))
                             CharacterReader.consumeToEnd).
  { unfold CharacterReader.consumeToEnd.
    apply preserves_bind; [apply preserves_get | intros r0].
    apply preserves_bind; [apply cache_cacheInRange | intros d].
    apply preserves_bind; [apply Hmod | intros; apply preserves_ret]. }
  assert (Huntil : forall p, preserves (fun r => cacheInRange (CharacterReader.stringCache r))
                                       (CharacterReader.consumeUntil p)).
  { intros p. unfold CharacterReader.consumeUntil, CharacterReader.returnConsume.
    apply preserves_bind; [apply preserves_get | intros r0].
    apply preserves_bind; [apply preserves_get | intros r1].
    apply preserves_bind; [apply Hmod | intros _].
    apply preserves_if; [apply preserves_ret | apply cache_cacheInRange]. }
  destruct op; cbn [perform];
    try (apply preserves_bind; [| intros; apply preserves_ret]);
    try apply Huntil; try exact HtoEnd.
  all: try (intros r Hr a r' H; reader_unfold H; cbn in H;
            repeat case_match; simplify_eq; cbn; exact Hr).
  - (* rewindToMark *)
    unfold CharacterReader.rewindToMark, CharacterReader.unmark.
    apply preserves_bind; [apply preserves_gets | intros m].
    apply preserves_if; [apply preserves_throw |].
    apply preserves_bind; [apply Hmod | intros _]. apply preserves_modify. auto.
  - (* consumeTo *)
    unfold CharacterReader.consumeTo, CharacterReader.nextIndexOf.
    apply preserves_bind;
      [apply preserves_bind; [apply preserves_get | intros; apply preserves_ret] | intros offset].
    apply preserves_bind; [apply preserves_get | intros r0].
    repeat apply preserves_if; try exact HtoEnd;
      (apply preserves_bind; [apply cache_cacheInRange | intros d];
       apply preserves_bind; [apply Hmod | intros; apply preserves_ret]).
  - (* consumeLetterThenDigitSequence *)
    unfold CharacterReader.consumeLetterThenDigitSequence, CharacterReader.isEmptyNoBufferUp,
      CharacterReader.isEmpty.
    apply preserves_bind; [apply preserves_get | intros r0].
    apply preserves_bind; [apply Hmod | intros _].
    apply preserves_bind; [apply preserves_gets | intros e].
    apply preserves_bind;
      [apply preserves_when; apply preserves_bind; [apply preserves_get | intros; apply Hmod] |
       intros _].
    apply preserves_bind; [apply preserves_get | intros; apply cache_cacheInRange].
  - (* matchConsume *)
    intros r Hr a r' H.
    unfold CharacterReader.matchConsume, CharacterReader.matchesIgnoreCase in H.
    apply bind_Ret in H as (b & r1 & H1 & H2).
    apply matchesSeq_frame in H1 as ->.
    destruct b; unfold bind, modify, ret in H2; injection H2 as <- <-; exact Hr.
Qed.

(** X8: the flyweight cache stays inside its array: after any sequence
    of public operations on a reader made by the constructor, every slot
    that was written has an index from 0 to 511. *)
Theorem cache_stays_in_array input ops r :
  performAll ops (CharacterReader.new input) = Ret tt r ->
  cacheInRange (CharacterReader.stringCache r).
Proof.
  assert (H : preserves (fun r => cacheInRange (CharacterReader.stringCache r))
                        (performAll ops)).
  { induction ops as [|op ops IH]; cbn [performAll].
    - apply preserves_ret.
    - apply preserves_bind; [apply perform_cacheInRange | intros _; exact IH]. }
  intros Hr. eapply H; [| exact Hr].
  intros i [s Hs]. cbn in Hs. rewrite lookup_empty in Hs. discriminate.
Qed.

Lemma cache_stays_in_array_witness :
  exists r,
    performAll [OpConsumeToAny (js "<"); OpConsume; OpConsumeToEnd]
               (CharacterReader.new (js "ab<cd")) = Ret tt r
    /\ cacheInRange (CharacterReader.stringCache r).
Proof.
  eexists. split; [vm_compute; reflexivity |].
  apply (cache_stays_in_array (js "ab<cd") [OpConsumeToAny (js "<"); OpConsume; OpConsumeToEnd]).
  vm_compute. reflexivity.
Defined.

(** X9: [unconsume] undoes [consume]: on a reader whose cursor is not
    negative, a [consume] followed by an [unconsume] leaves the reader as
    it was, also at or past the end of the input. *)
Theorem consume_then_unconsume r :
  0 <= CharacterReader.bufPos r ->
  bind CharacterReader.consume (fun _ => CharacterReader.unconsume) r = Ret tt r.
Proof.
  intros H. destruct r as [c b p m]. cbn in H.
  unfold CharacterReader.consume, CharacterReader.unconsume, CharacterReader.isEmptyNoBufferUp,
    CharacterReader.isEmpty, CharacterReader.getAtPos, bind, gets, ret, modify, throw.
  cbn. destruct (_ <=? p); cbn.
  - destruct (p + 1 <? 1) eqn:E; [apply Z.ltb_lt in E; lia |].
    unfold CharacterReader.set_bufPos. cbn. do 2 f_equal. lia.
  - destruct (p + 1 <? 1) eqn:E; [apply Z.ltb_lt in E; lia |].
    unfold CharacterReader.set_bufPos. cbn. do 2 f_equal. lia.
Qed.

Lemma consume_then_unconsume_witness :
  bind CharacterReader.consume (fun _ => CharacterReader.unconsume)
       (CharacterReader.new (js "ab")) = Ret tt (CharacterReader.new (js "ab")).
Proof. apply (consume_then_unconsume (CharacterReader.new (js "ab"))). cbn. lia. Defined.

(** X10: [matchConsume], [matches] and [matchesIgnoreCase] with a string
    compare code unit by code unit, case included: on a reader whose
    cursor is not negative, [matchConsume(seq)] returns true and moves the
    cursor by the length of [seq] exactly when the text at the cursor
    starts with [seq]; otherwise it returns false and leaves the reader as
    it was.  It never throws.  (The empty [seq] is the one exception past
    the end of the input, where the length test answers false.) *)
Theorem matchConsume_exact seq r :
  0 <= CharacterReader.bufPos r ->
  (seq = [] -> CharacterReader.bufPos r <= CharacterReader.bufLength r) ->
  CharacterReader.matchesIgnoreCase seq r = Ret (starts_with seq (textAhead r)) r
  /\ CharacterReader.matchConsume seq r
     = if starts_with seq (textAhead r)
       then Ret true (CharacterReader.set_bufPos (CharacterReader.bufPos r + len seq) r)
       else Ret false r.
Proof.
  intros H Hseq.
  assert (Hm : CharacterReader.matchesIgnoreCase seq r = Ret (starts_with seq (textAhead r)) r).
  { unfold CharacterReader.matchesIgnoreCase, CharacterReader.matchesSeq, bind, get, ret,
      textAhead, CharacterReader.bufLength in *.
    destruct (_ <? len seq) eqn:E.
    - apply Z.ltb_lt in E.
      destruct (starts_with seq _) eqn:Es; [| reflexivity].
      apply starts_with_length in Es. unfold len in *. rewrite length_skipn in Es.
      exfalso. destruct seq; [specialize (Hseq eq_refl); cbn in E; lia | cbn in *; lia].
    - apply Z.ltb_ge in E. rewrite all_equal_at_starts_with by lia. reflexivity. }
  split; [exact Hm |].
  unfold CharacterReader.matchConsume, bind. rewrite Hm.
  destruct (starts_with seq (textAhead r)); reflexivity.
Qed.

Lemma matchConsume_exact_witness :
  CharacterReader.matchesIgnoreCase (js "AB") (CharacterReader.new (js "abc"))
  = Ret false (CharacterReader.new (js "abc"))
  /\ CharacterReader.matchConsume (js "ab") (CharacterReader.new (js "abc"))
     = Ret true (CharacterReader.set_bufPos 2 (CharacterReader.new (js "abc"))).
Proof.
  split.
  - apply (matchConsume_exact (js "AB") (CharacterReader.new (js "abc")));
      [cbn; lia | discriminate].
  - apply (matchConsume_exact (js "ab") (CharacterReader.new (js "abc")));
      [cbn; lia | discriminate].
Defined.

Lemma slice_from_skipn {A} (l : list A) b :
  0 <= b -> slice_from l b = skipn (Z.to_nat b) l.
Proof.
  intros Hb. unfold slice_from, slice, len.
  destruct (b <? 0) eqn:E; [apply Z.ltb_lt in E; lia |].
  destruct (Z.of_nat (length l) <? 0) eqn:E'; [apply Z.ltb_lt in E'; lia |].
  cbv zeta. set (n := Z.of_nat (length l)) in *.
  destruct (Z.le_gt_cases b n) as [Hle|Hgt].
  - replace (Z.min b n) with b by lia.
    apply firstn_all2. rewrite length_skipn. lia.
  - rewrite !skipn_all2 by lia. now rewrite firstn_nil.
Qed.

Lemma findIndex_split {A} (p : A -> bool) l :
  findIndex p l <> -1 ->
  exists pre c post, l = pre ++ c :: post /\ findIndex p l = len pre
                     /\ p c = true /\ Forall (fun x => p x = false) pre.
Proof.
  unfold len. induction l as [|x l IH]; cbn; [congruence |].
  destruct (p x) eqn:Ex.
  - intros _. exists [], x, l. repeat split; auto.
  - destruct (findIndex p l =? -1) eqn:E; [congruence |].
    apply Z.eqb_neq in E. intros _.
    destruct (IH E) as (pre & c & post & -> & Hi & Hc & Hpre).
    exists (x :: pre), c, post. repeat split; auto.
    rewrite Hi. cbn [length]. lia.
Qed.

Lemma findIndex_none {A} (p : A -> bool) l :
  findIndex p l = -1 -> Forall (fun x => p x = false) l.
Proof.
  induction l as [|x l IH]; cbn; [constructor |].
  destruct (p x) eqn:Ex; [discriminate |].
  pose proof (findIndex_range p l) as Hr.
  destruct (findIndex p l =? -1) eqn:E; [| apply Z.eqb_neq in E; lia].
  apply Z.eqb_eq in E. intros _. constructor; auto.
Qed.

Lemma cacheString_returns charBuf start count c :
  0 <= start -> start + count <= len charBuf ->
  exists s c', CharacterReader.cacheString charBuf start count c = Ret s c'.
Proof.
  intros H0 H1.
  destruct (Z_lt_le_dec CharacterReader.maxStringCacheLen count) as [Hgt|Hle].
  - unfold CharacterReader.cacheString.
    rewrite (proj2 (Z.gtb_lt _ _) Hgt). unfold ret. eauto.
  - destruct (Z_lt_le_dec count 1) as [Hlt|Hge].
    + unfold CharacterReader.cacheString.
      destruct (count >? _); [unfold ret; eauto |].
      rewrite (proj2 (Z.ltb_lt _ _) Hlt). unfold ret. eauto.
    + destruct (cacheString_in_bounds charBuf start count c) as (i & _ & ->); auto.
      destruct (decide _); cbn; eauto.
Qed.

Lemma cache_returns b start count r :
  0 <= start -> start + count <= len b ->
  exists s r', CharacterReader.cache b start count r = Ret s r'
    /\ CharacterReader.bufPos r' = CharacterReader.bufPos r
    /\ CharacterReader.bufMark r' = CharacterReader.bufMark r
    /\ CharacterReader.charBuf r' = CharacterReader.charBuf r.
Proof.
  intros H0 H1.
  destruct (cacheString_returns b start count (CharacterReader.stringCache r) H0 H1)
    as (s & c' & E).
  unfold CharacterReader.cache, zoom. rewrite E. eexists _, _. split; [reflexivity |].
  cbn. auto.
Qed.

Lemma textAhead_skip r r' (d : nat) :
  0 <= CharacterReader.bufPos r ->
  CharacterReader.charBuf r' = CharacterReader.charBuf r ->
  CharacterReader.bufPos r' = CharacterReader.bufPos r + Z.of_nat d ->
  textAhead r' = skipn d (textAhead r).
Proof.
  intros H0 Hb Hp. unfold textAhead. rewrite Hb, Hp, skipn_skipn. f_equal. lia.
Qed.

Lemma consumeUntil_position p r :
  0 <= CharacterReader.bufPos r ->
  exists s r' skipped,
    CharacterReader.consumeUntil p r = Ret s r'
    /\ CharacterReader.charBuf r' = CharacterReader.charBuf r
    /\ CharacterReader.bufMark r' = CharacterReader.bufMark r
    /\ CharacterReader.bufPos r' = CharacterReader.bufPos r + len skipped
    /\ textAhead r = skipped ++ textAhead r'
    /\ Forall (fun c => p c = false) skipped
    /\ ((exists c rest, textAhead r' = c :: rest /\ p c = true)
        \/ (skipped = [] /\ s = [] /\ Forall (fun c => p c = false) (textAhead r))).
Proof.
  intros H0. unfold CharacterReader.consumeUntil, bind, get.
  rewrite slice_from_skipn by exact H0. fold (textAhead r).
  destruct (Z.eq_dec (findIndex p (textAhead r)) (-1)) as [Hn|Hf].
  - rewrite Hn. exists [], (CharacterReader.set_bufPos (CharacterReader.bufPos r) r), [].
    unfold CharacterReader.returnConsume, bind, get, modify, ret. cbn.
    rewrite Z.add_0_r. repeat split; auto; [unfold len; cbn; lia |].
    right. repeat split; auto. now apply findIndex_none.
  - destruct (findIndex_split p _ Hf) as (pre & c & post & Ht & Hi & Hc & Hpre).
    rewrite Hi. unfold CharacterReader.returnConsume, bind, get, modify.
    assert (Hlen : CharacterReader.bufPos r + len pre < len (CharacterReader.charBuf r)).
    { pose proof (f_equal (@length _) Ht) as Hl. unfold textAhead in Hl.
      rewrite length_skipn, length_app in Hl. cbn [length] in Hl. unfold len. lia. }
    destruct (len pre =? -1) eqn:E; [apply Z.eqb_eq in E; unfold len in E; lia |].
    destruct (cache_returns (CharacterReader.charBuf r) (CharacterReader.bufPos r) (len pre)
                (CharacterReader.set_bufPos
                   (CharacterReader.bufPos r + Z.max (len pre) 0) r))
      as (s & r' & -> & Hp & Hm & Hb); [lia | lia |].
    cbn in Hp, Hm, Hb. rewrite Z.max_l in Hp by (unfold len; lia).
    assert (Ha : textAhead r' = c :: post).
    { rewrite (textAhead_skip r r' (length pre)); auto.
      rewrite Ht. apply drop_app_length. }
    exists s, r', pre. repeat split; auto.
    + now rewrite Ha.
    + left. eauto.
Qed.

(** X11: [consumeUntil] (and with it [consumeToAny], [consumeData],
    [consumeRawData], [consumeAttributeQuoted], [consumeTagName] and the
    letter, digit and hex sequences) always returns on a reader whose
    cursor is not negative, never changes the text or the mark, and moves
    the cursor over characters that all fail the test: it stops on the
    first character that passes, and when no character ahead passes it
    does not move and returns the empty string. *)
Theorem consumeUntil_stops_at_first p r :
  0 <= CharacterReader.bufPos r ->
  exists s r' skipped,
    CharacterReader.consumeUntil p r = Ret s r'
    /\ CharacterReader.charBuf r' = CharacterReader.charBuf r
    /\ CharacterReader.bufMark r' = CharacterReader.bufMark r
    /\ CharacterReader.bufPos r' = CharacterReader.bufPos r + len skipped
    /\ textAhead r = skipped ++ textAhead r'
    /\ Forall (fun c => p c = false) skipped
    /\ ((exists c rest, textAhead r' = c :: rest /\ p c = true)
        \/ (skipped = [] /\ s = [] /\ Forall (fun c => p c = false) (textAhead r))).
Proof. apply consumeUntil_position. Qed.

Lemma consumeUntil_stops_at_first_witness :
  exists s r' skipped,
    CharacterReader.consumeUntil (includes (js "<")) (CharacterReader.new (js "ab<c")) = Ret s r'
    /\ CharacterReader.charBuf r' = js "ab<c"
    /\ CharacterReader.bufMark r' = -1
    /\ CharacterReader.bufPos r' = 0 + len skipped
    /\ textAhead (CharacterReader.new (js "ab<c")) = skipped ++ textAhead r'
    /\ Forall (fun c => includes (js "<") c = false) skipped
    /\ ((exists c rest, textAhead r' = c :: rest /\ includes (js "<") c = true)
        \/ (skipped = [] /\ s = []
            /\ Forall (fun c => includes (js "<") c = false)
                      (textAhead (CharacterReader.new (js "ab<c"))))).
Proof.
  apply (consumeUntil_stops_at_first (includes (js "<")) (CharacterReader.new (js "ab<c"))).
  cbn. lia.
Defined.

Lemma indexOf_scan_spec search : forall s k,
  (indexOf_scan search s k = -1 /\ forall j, starts_with search (skipn j s) = false)
  \/ (exists d : nat, indexOf_scan search s k = k + Z.of_nat d /\ (d <= length s)%nat
        /\ starts_with search (skipn d s) = true
        /\ forall j, (j < d)%nat -> starts_with search (skipn j s) = false).
Proof.
  induction s as [|c s IH]; intros k; cbn [indexOf_scan].
  - destruct (starts_with search []) eqn:E.
    + right. exists 0%nat. repeat split; [lia | auto | auto | intros; lia].
    + left. split; [reflexivity |]. intros j. now rewrite skipn_nil.
  - destruct (starts_with search (c :: s)) eqn:E.
    + right. exists 0%nat. repeat split; [lia | cbn; lia | auto | intros; lia].
    + destruct (IH (k + 1)) as [(Hn & Hall)|(d & Hd & Hle & Hs & Hall)].
      * left. split; [exact Hn |]. intros [|j]; [exact E | apply Hall].
      * right. exists (S d). repeat split; [lia | cbn; lia | exact Hs |].
        intros [|j] Hj; [exact E | apply Hall; lia].
Qed.

Lemma starts_with_nil s : starts_with [] s = true.
Proof. destruct s; reflexivity. Qed.

Lemma consumeTo_position seq r :
  0 <= CharacterReader.bufPos r <= CharacterReader.bufLength r ->
  exists s r' (d : nat),
    CharacterReader.consumeTo seq r = Ret s r'
    /\ CharacterReader.charBuf r' = CharacterReader.charBuf r
    /\ CharacterReader.bufMark r' = CharacterReader.bufMark r
    /\ CharacterReader.bufPos r' = CharacterReader.bufPos r + Z.of_nat d
    /\ CharacterReader.bufPos r' <= CharacterReader.bufLength r
    /\ (forall j, (j < d)%nat -> starts_with seq (skipn j (textAhead r)) = false)
    /\ (starts_with seq (textAhead r') = true \/ len (textAhead r') < len seq).
Proof.
  intros [H0 H1].
  unfold CharacterReader.consumeTo, CharacterReader.nextIndexOf, CharacterReader.consumeToEnd,
    bind, get, ret, modify, indexOf.
  unfold CharacterReader.bufLength in *.
  rewrite Z.max_l, Z.min_l by lia. fold (textAhead r).
  assert (Hahead : len (textAhead r) = len (CharacterReader.charBuf r) - CharacterReader.bufPos r).
  { unfold textAhead, len in *. rewrite length_skipn. lia. }
  destruct (indexOf_scan_spec seq (textAhead r) (CharacterReader.bufPos r))
    as [(Hn & Hall)|(d & Hd & Hle & Hs & Hall)].
  - rewrite Hn. change (-1 =? -1) with true. cbv beta iota.
    change (-1 =? -1) with true. cbn [negb].
    assert (Hseq : 1 <= len seq).
    { destruct seq; [| unfold len; cbn; lia].
      specialize (Hall 0%nat). now rewrite starts_with_nil in Hall. }
    destruct ((len seq =? 1) || _) eqn:Ec.
    + destruct (cache_returns (CharacterReader.charBuf r) (CharacterReader.bufPos r)
                  (len (CharacterReader.charBuf r) - CharacterReader.bufPos r) r)
        as (s & r1 & -> & Hp & Hm & Hb); [lia | lia |].
      exists s, (CharacterReader.set_bufPos (len (CharacterReader.charBuf r)) r1),
        (Z.to_nat (len (CharacterReader.charBuf r) - CharacterReader.bufPos r)).
      cbn. repeat split; auto; try lia.
      right. unfold textAhead. cbn. rewrite Hb, skipn_all2 by (unfold len; lia).
      unfold len at 1. cbn. lia.
    + apply orb_false_iff in Ec as [_ Ec]. apply Z.ltb_ge in Ec.
      set (endPos := len (CharacterReader.charBuf r) - len seq + 1) in *.
      destruct (cache_returns (CharacterReader.charBuf r) (CharacterReader.bufPos r)
                  (endPos - CharacterReader.bufPos r) r)
        as (s & r1 & -> & Hp & Hm & Hb); [lia | lia |].
      exists s, (CharacterReader.set_bufPos endPos r1),
        (Z.to_nat (endPos - CharacterReader.bufPos r)).
      cbn. repeat split; auto; try lia.
      right. unfold textAhead. cbn. rewrite Hb. unfold len in *.
      rewrite length_skipn. lia.
  - rewrite Hd.
    destruct (CharacterReader.bufPos r + Z.of_nat d =? -1) eqn:E1;
      [apply Z.eqb_eq in E1; lia |].
    replace (CharacterReader.bufPos r + Z.of_nat d - CharacterReader.bufPos r)
      with (Z.of_nat d) by lia.
    destruct (Z.of_nat d =? -1) eqn:E2; [apply Z.eqb_eq in E2; lia |].
    cbn [negb].
    destruct (cache_returns (CharacterReader.charBuf r) (CharacterReader.bufPos r)
                (Z.of_nat d) r)
      as (s & r1 & -> & Hp & Hm & Hb); [lia | unfold len in *; lia |].
    exists s, (CharacterReader.set_bufPos (CharacterReader.bufPos r + Z.of_nat d) r1), d.
    cbn. repeat split; auto; try (unfold len in *; lia).
    left. rewrite (textAhead_skip r _ d); auto.
Qed.

(** X12: [consumeTo(seq)] always returns on a reader whose cursor lies
    within the input, keeps the text and the mark, and moves the cursor
    forward, never past the end, over positions at none of which [seq]
    starts; afterwards either the text at the cursor starts with [seq],
    or fewer than [seq.length] characters are left. *)
Theorem consumeTo_stops_at_first seq r :
  0 <= CharacterReader.bufPos r <= CharacterReader.bufLength r ->
  exists s r' (d : nat),
    CharacterReader.consumeTo seq r = Ret s r'
    /\ CharacterReader.charBuf r' = CharacterReader.charBuf r
    /\ CharacterReader.bufMark r' = CharacterReader.bufMark r
    /\ CharacterReader.bufPos r' = CharacterReader.bufPos r + Z.of_nat d
    /\ CharacterReader.bufPos r' <= CharacterReader.bufLength r
    /\ (forall j, (j < d)%nat -> starts_with seq (skipn j (textAhead r)) = false)
    /\ (starts_with seq (textAhead r') = true \/ len (textAhead r') < len seq).
Proof. apply consumeTo_position. Qed.

Lemma consumeTo_stops_at_first_witness :
  exists s r' (d : nat),
    CharacterReader.consumeTo (js "-->") (CharacterReader.new (js "a-b-->c")) = Ret s r'
    /\ CharacterReader.charBuf r' = js "a-b-->c"
    /\ CharacterReader.bufMark r' = -1
    /\ CharacterReader.bufPos r' = 0 + Z.of_nat d
    /\ CharacterReader.bufPos r' <= 7
    /\ (forall j, (j < d)%nat ->
          starts_with (js "-->") (skipn j (textAhead (CharacterReader.new (js "a-b-->c")))) = false)
    /\ (starts_with (js "-->") (textAhead r') = true \/ len (textAhead r') < len (js "-->")).
Proof.
  apply (consumeTo_stops_at_first (js "-->") (CharacterReader.new (js "a-b-->c"))).
  split; vm_compute; discriminate.
Defined.

(** ** Tokens *)

Lemma trim_start_clean s : startsClean (trim_start s).
Proof.
  induction s as [|c s IH]; cbn; [exact I |].
  destruct (is_js_space c) eqn:E; [exact IH | exact E].
Qed.

Lemma trim_start_fix s : startsClean s -> trim_start s = s.
Proof. destruct s as [|c s]; cbn; [reflexivity |]. now intros ->. Qed.

Lemma trim_start_split s : exists sp, s = sp ++ trim_start s.
Proof.
  induction s as [|c s [sp IH]]; cbn; [now exists [] |].
  destruct (is_js_space c).
  - exists (c :: sp). cbn. now rewrite <- IH.
  - now exists [].
Qed.

Lemma trim_idempotent s : trim (trim s) = trim s.
Proof.
  unfold trim. set (t := trim_start s). set (u := trim_start (rev t)).
  assert (Hu : trim_start (rev u) = rev u).
  { apply trim_start_fix.
    destruct (trim_start_split (rev t)) as [sp Hsp]. fold u in Hsp.
    assert (Ht : t = rev u ++ rev sp).
    { rewrite <- rev_app_distr, <- Hsp. now rewrite rev_involutive. }
    pose proof (trim_start_clean s) as Hc. fold t in Hc.
    destruct (rev u) as [|c w]; [exact I |]. rewrite Ht in Hc. exact Hc. }
  rewrite Hu, rev_involutive. unfold u at 1.
  rewrite (trim_start_fix (trim_start (rev t))) by apply trim_start_clean.
  reflexivity.
Qed.

Lemma appendAttributeValue_step v g :
  exists g',
    Tag.appendAttributeValue v g = Ret tt g'
    /\ Tag.pendingValue g' = Some (pendingText g ++ v)
    /\ pendingText g' = pendingText g ++ v
    /\ Tag.tagName g' = Tag.tagName g
    /\ Tag.pendingAttributeName g' = Tag.pendingAttributeName g
    /\ Tag.attributes g' = Tag.attributes g.
Proof.
  destruct g as [tn pn sb sbS he hp sc at_].
  unfold Tag.appendAttributeValue, Tag.ensureAttributeValue, bind, get, modify, ret,
    Tag.pendingValue, pendingText, StringBuilder.length, StringBuilder.append,
    StringBuilder.toString, len.
  cbn. destruct sbS as [s|]; cbn.
  - destruct (sb ++ s) as [|c w] eqn:E; cbn.
    + eexists. repeat split.
    + eexists. split; [reflexivity |]. cbn.
      rewrite !app_nil_r. repeat split.
  - destruct sb as [|c w]; cbn.
    + eexists. repeat split.
    + eexists. split; [reflexivity |]. cbn. rewrite !app_nil_r. repeat split.
Qed.

(** X13: attribute values accumulate: after one or more calls of
    [appendAttributeValue] the value that [newAttribute] will record is
    what the tag had accumulated before, followed by the appended strings
    in order, whether the tag kept it in the one-shot string or in the
    builder; the calls never throw and leave the tag name, the pending
    attribute name and the attribute list alone. *)
Theorem appendAttributeValue_accumulates g v rest :
  exists g',
    forEach Tag.appendAttributeValue (v :: rest) g = Ret tt g'
    /\ Tag.pendingValue g' = Some (pendingText g ++ concat (v :: rest))
    /\ Tag.tagName g' = Tag.tagName g
    /\ Tag.pendingAttributeName g' = Tag.pendingAttributeName g
    /\ Tag.attributes g' = Tag.attributes g.
Proof.
  revert v g. induction rest as [|w rest IH]; intros v g.
  - destruct (appendAttributeValue_step v g) as (g' & E & Hv & _ & H1 & H2 & H3).
    exists g'. cbn [forEach concat]. unfold bind, ret. rewrite E, app_nil_r. auto.
  - destruct (appendAttributeValue_step v g) as (g1 & E & _ & Ht & H1 & H2 & H3).
    destruct (IH w g1) as (g' & E' & Hv & H1' & H2' & H3').
    exists g'. cbn [forEach] in *. unfold bind at 1. rewrite E, E'.
    rewrite Hv, Ht. cbn [concat]. rewrite <- app_assoc.
    repeat split; congruence.
Qed.

Lemma comment_append_step a c :
  exists c',
    Comment.append a c = Ret tt c'
    /\ Comment.getData c' = commentText c ++ a
    /\ commentText c' = commentText c ++ a
    /\ Comment.bogus c' = Comment.bogus c.
Proof.
  destruct c as [d dS b].
  unfold Comment.append, Comment.ensureData, bind, get, modify, ret, Comment.getData,
    commentText, StringBuilder.length, StringBuilder.append, StringBuilder.toString, len.
  cbn. destruct dS as [s|]; cbn.
  - destruct (d ++ s) as [|x w] eqn:E; cbn.
    + eexists. repeat split.
    + eexists. split; [reflexivity |]. cbn. rewrite !app_nil_r. repeat split.
  - destruct d as [|x w]; cbn.
    + eexists. repeat split.
    + eexists. split; [reflexivity |]. cbn. rewrite !app_nil_r. repeat split.
Qed.

(** X14: comment data accumulates: after one or more calls of [append]
    on a comment token, [getData] is what the comment held before followed
    by the appended strings in order; the calls never throw and keep the
    bogus flag. *)
Theorem comment_append_accumulates c a rest :
  exists c',
    forEach Comment.append (a :: rest) c = Ret tt c'
    /\ Comment.getData c' = commentText c ++ concat (a :: rest)
    /\ Comment.bogus c' = Comment.bogus c.
Proof.
  revert a c. induction rest as [|w rest IH]; intros a c.
  - destruct (comment_append_step a c) as (c' & E & Hd & _ & Hb).
    exists c'. cbn [forEach concat]. unfold bind, ret. rewrite E, app_nil_r. auto.
  - destruct (comment_append_step a c) as (c1 & E & _ & Ht & Hb).
    destruct (IH w c1) as (c' & E' & Hd & Hb').
    exists c'. cbn [forEach] in *. unfold bind at 1. rewrite E, E'.
    rewrite Hd, Ht. cbn [concat]. rewrite <- app_assoc.
    split; [reflexivity |]. split; congruence.
Qed.

Lemma hasKey_add name value a :
  AttributesOps.hasKey (trim name) (Attributes.add name value a) = true.
Proof.
  apply (hasKey_In _ (Attribute.new name (Attributes.template value))); [| reflexivity].
  unfold Attributes.add. apply in_or_app. right. now left.
Qed.

(** X15: [newAttribute] never throws and never drops or reorders an
    attribute: the list afterwards is the list before (empty when the tag
    had none) followed by at most one attribute.  One is added exactly when
    a name is pending, fewer than 512 attributes are recorded and the name
    is not empty after trimming; its key is the trimmed name, its value the
    accumulated value, and [hasAttribute] then finds the key.  In every
    case the pending name and value are cleared and the tag name kept. *)
Theorem newAttribute_appends g :
  exists g',
    Tag.newAttribute g = Ret tt g'
    /\ Tag.pendingAttributeName g' = None
    /\ Tag.pendingValue g' = None
    /\ pendingText g' = []
    /\ Tag.tagName g' = Tag.tagName g
    /\ Tag.selfClosing g' = Tag.selfClosing g
    /\ match Tag.pendingAttributeName g with
       | Some name =>
           if (Attributes.length (default [] (Tag.attributes g)) <? Tag.MaxAttributes)
              && (0 <? len (trim name))
           then Tag.attributes g'
                = Some (default [] (Tag.attributes g)
                        ++ [Attribute.mk (trim name) (Attributes.template (Tag.pendingValue g))])
                /\ TagOps.hasAttribute (trim name) g' = true
           else Tag.attributes g' = Some (default [] (Tag.attributes g))
       | None => Tag.attributes g' = Some (default [] (Tag.attributes g))
       end.
Proof.
  destruct g as [tn pn sb sbS he hp sc at_].
  unfold Tag.newAttribute, bind, get, modify, ret, when. cbn.
  destruct at_ as [a|]; cbn; destruct pn as [name|]; cbn;
    try (eexists; repeat split; fail).
  - destruct (Attributes.length a <? Tag.MaxAttributes); cbn;
      [| eexists; repeat split; fail].
    destruct (0 <? len (trim name)); cbn; [| eexists; repeat split; fail].
    eexists. repeat split; cbn.
    + unfold Attributes.add, Attribute.new. now rewrite trim_idempotent.
    + unfold TagOps.hasAttribute. cbn.
      rewrite <- (trim_idempotent name) at 1. apply hasKey_add.
  - change (Attributes.length Attributes.new <? Tag.MaxAttributes) with true. cbn.
    destruct (0 <? len (trim name)); cbn; [| eexists; repeat split; fail].
    eexists. repeat split; cbn.
    + unfold Attributes.add, Attribute.new. now rewrite trim_idempotent.
    + unfold TagOps.hasAttribute. cbn.
      rewrite <- (trim_idempotent name) at 1.
      exact (hasKey_add (trim name) _ Attributes.new).
Qed.

(** ** The tokeniser *)

Lemma len_cons_eqb {A} (x : A) l : (len (x :: l) =? 0) = false.
Proof. unfold len. cbn [length]. apply Z.eqb_neq. lia. Qed.

Lemma len_nil_eqb {A} : (len (@nil A) =? 0) = true.
Proof. reflexivity. Qed.

Lemma emitString_step str k :
  charsOk k ->
  exists k',
    Tokeniser.emitString str k = Ret tt k'
    /\ charsOk k'
    /\ pendingChars k' = Some (default [] (pendingChars k) ++ str)
    /\ Tokeniser.state k' = Tokeniser.state k
    /\ Tokeniser.isEmitPending k' = Tokeniser.isEmitPending k
    /\ Tokeniser.emitPending k' = Tokeniser.emitPending k
    /\ Tokeniser.reader k' = Tokeniser.reader k.
Proof.
  destruct k as [st ep iep cs cb db tp sp edp cp dp cmp lst rd er].
  unfold charsOk, Tokeniser.emitString, pendingChars, bind, get, modify, ret, when,
    StringBuilder.length, StringBuilder.append, StringBuilder.toString.
  cbn. intros Hok. destruct cs as [s|]; cbn.
  - destruct cb as [|x w]; rewrite ?len_cons_eqb, ?len_nil_eqb; cbn.
    + eexists. split; [reflexivity |]. cbn. split; [discriminate |].
      destruct (s ++ str) as [|y v] eqn:E; rewrite ?len_cons_eqb, ?len_nil_eqb; cbn;
        repeat split; auto.
      apply app_eq_nil in E as [-> ->]. reflexivity.
    + eexists. split; [reflexivity |]. cbn. split; [discriminate |].
      rewrite ?len_cons_eqb. cbn. repeat split.
  - rewrite (Hok eq_refl). rewrite ?len_nil_eqb. eexists. split; [reflexivity |]. cbn.
    split; [discriminate |]. rewrite ?len_nil_eqb. repeat split.
Qed.

(** X16: text passed to [emitString] is coalesced: on a tokeniser whose
    builder is only in use once the one-shot string is set (as it is in a
    new tokeniser), one or more calls never throw, and the text the next
    [read] will hand out is the text that was pending before followed by
    the emitted strings in order; state, reader and pending token are not
    touched. *)
Theorem emitString_coalesces k str rest :
  charsOk k ->
  exists k',
    forEach Tokeniser.emitString (str :: rest) k = Ret tt k'
    /\ charsOk k'
    /\ pendingChars k' = Some (default [] (pendingChars k) ++ concat (str :: rest))
    /\ Tokeniser.state k' = Tokeniser.state k
    /\ Tokeniser.isEmitPending k' = Tokeniser.isEmitPending k
    /\ Tokeniser.emitPending k' = Tokeniser.emitPending k
    /\ Tokeniser.reader k' = Tokeniser.reader k.
Proof.
  revert str k. induction rest as [|w rest IH]; intros str k Hok.
  - destruct (emitString_step str k Hok) as (k' & E & Hok' & Hp & H1 & H2 & H3 & H4).
    exists k'. cbn [forEach concat]. unfold bind, ret. rewrite E, app_nil_r. auto 10.
  - destruct (emitString_step str k Hok) as (k1 & E & Hok1 & Hp & H1 & H2 & H3 & H4).
    destruct (IH w k1 Hok1) as (k' & E' & Hok' & Hp' & H1' & H2' & H3' & H4').
    exists k'. cbn [forEach] in *. unfold bind at 1. rewrite E, E'.
    rewrite Hp', Hp.
    replace (default [] (Some (default [] (pendingChars k) ++ str)))
      with (default [] (pendingChars k) ++ str) by reflexivity.
    change (concat (str :: w :: rest)) with (str ++ concat (w :: rest)).
    rewrite <- app_assoc.
    repeat split; auto; congruence.
Qed.

Lemma emitString_coalesces_witness :
  exists k',
    forEach Tokeniser.emitString [js "</"; js "scr"] (tokeniser []) = Ret tt k'
    /\ charsOk k'
    /\ pendingChars k' = Some (default [] (pendingChars (tokeniser [])) ++ concat [js "</"; js "scr"])
    /\ Tokeniser.state k' = Tokeniser.state (tokeniser [])
    /\ Tokeniser.isEmitPending k' = Tokeniser.isEmitPending (tokeniser [])
    /\ Tokeniser.emitPending k' = Tokeniser.emitPending (tokeniser [])
    /\ Tokeniser.reader k' = Tokeniser.reader (tokeniser []).
Proof.
  apply (emitString_coalesces (tokeniser []) (js "</") [js "scr"]).
  intros _. reflexivity.
Defined.

Lemma read_pending k ref s fuel fuel' :
  Tokeniser.isEmitPending k = true ->
  Tokeniser.emitPending k = Some ref ->
  pendingChars k = Some s ->
  exists k1 k2,
    read (S fuel) k = Ret (Character (Some s)) k1
    /\ read (S fuel') k1 = Ret (Tokeniser.deref ref k) k2
    /\ Tokeniser.isEmitPending k2 = false
    /\ pendingChars k2 = None
    /\ Tokeniser.state k2 = Tokeniser.state k
    /\ Tokeniser.reader k2 = Tokeniser.reader k
    /\ Tokeniser.errors k2 = Tokeniser.errors k.
Proof.
  destruct k as [st ep iep cs cb db tp sp edp cp dp cmp lst rd er].
  unfold pendingChars, read, bind. cbn. intros -> -> Hp.
  unfold readEmit, bind, get, modify, ret, gets,
    StringBuilder.length, StringBuilder.toString in *. cbn in *.
  destruct cb as [|x w]; rewrite ?len_cons_eqb, ?len_nil_eqb in *; cbn in *.
  - subst cs. eexists _, _. split; [reflexivity |]. cbn.
    rewrite ?len_nil_eqb. cbn.
    split; [destruct ref as [[]| | | |]; reflexivity |].
    rewrite ?len_nil_eqb. repeat split.
  - injection Hp as <-. eexists _, _. split; [reflexivity |]. cbn.
    rewrite ?len_nil_eqb. cbn.
    split; [destruct ref as [[]| | | |]; reflexivity |].
    rewrite ?len_nil_eqb. repeat split.
Qed.

(** X17: characters go out before the pending token: when a token is
    pending and text is buffered, [read] returns the whole buffered text
    as one Character token, and the next [read] returns the pending token
    and leaves nothing pending.  Neither call runs a state. *)
Theorem read_chars_before_token k ref s fuel fuel' :
  Tokeniser.isEmitPending k = true ->
  Tokeniser.emitPending k = Some ref ->
  pendingChars k = Some s ->
  exists k1 k2,
    read (S fuel) k = Ret (Character (Some s)) k1
    /\ read (S fuel') k1 = Ret (Tokeniser.deref ref k) k2
    /\ Tokeniser.isEmitPending k2 = false
    /\ pendingChars k2 = None
    /\ Tokeniser.state k2 = Tokeniser.state k
    /\ Tokeniser.reader k2 = Tokeniser.reader k.
Proof.
  intros H1 H2 H3.
  destruct (read_pending k ref s fuel fuel' H1 H2 H3)
    as (k1 & k2 & E1 & E2 & Hp & Hc & Hs & Hr & _).
  exists k1, k2. auto 10.
Qed.

Lemma read_chars_before_token_witness :
  exists k k1 k2,
    forEach Tokeniser.emitString [js "a"; js "b"] (tokeniser []) = Ret tt k
    /\ read 2 (Tokeniser.set_isEmitPending true (Tokeniser.set_emitPending (Some NewEOF) k))
       = Ret (Character (Some (js "ab"))) k1
    /\ read 1 k1 = Ret EOF k2
    /\ Tokeniser.isEmitPending k2 = false
    /\ pendingChars k2 = None.
Proof.
  eexists. 
  destruct (read_chars_before_token
              (Tokeniser.set_isEmitPending true
                 (Tokeniser.set_emitPending (Some NewEOF)
                    (Tokeniser.set_charsBuilder (js "ab")
                       (Tokeniser.set_charsString (Some (js "a")) (tokeniser [])))))
              NewEOF (js "ab") 1 0 eq_refl eq_refl eq_refl)
    as (k1 & k2 & H1 & H2 & H3 & H4 & _).
  exists k1, k2. split; [reflexivity |]. split; [exact H1 |].
  split; [exact H2 |]. split; [exact H3 | exact H4].
Defined.

Lemma current_at_end r :
  CharacterReader.bufLength r <= CharacterReader.bufPos r ->
  CharacterReader.current r = Ret None r.
Proof.
  intros H. unfold CharacterReader.current, CharacterReader.isEmptyNoBufferUp,
    CharacterReader.isEmpty, bind, gets, ret.
  now rewrite (proj2 (Z.leb_le _ _) H).
Qed.

Lemma Data_at_end k :
  CharacterReader.bufLength (Tokeniser.reader k) <= CharacterReader.bufPos (Tokeniser.reader k) ->
  Tokeniser.isEmitPending k = false ->
  States.Data k
  = Ret tt (Tokeniser.set_isEmitPending true (Tokeniser.set_emitPending (Some NewEOF) k)).
Proof.
  destruct k as [st ep iep cs cb db tp sp edp cp dp cmp lst rd er]. cbn.
  intros Hr ->. unfold States.Data. unfold bind at 1.
  unfold Tokeniser.onReader, zoom. cbn [Tokeniser.reader].
  rewrite (current_at_end rd Hr). reflexivity.
Qed.

Lemma read_at_end k fuel :
  atEnd k -> exists k', read (S (S fuel)) k = Ret EOF k' /\ atEnd k'.
Proof.
  intros (Hst & Hp & Hc & Hr).
  unfold read, bind at 1. rewrite readLoop_S, Hp, Hst. cbn [States.read].
  rewrite (Data_at_end k Hr Hp). rewrite readLoop_S. cbn [Tokeniser.isEmitPending
    Tokeniser.set_isEmitPending].
  destruct k as [st ep iep cs cb db tp sp edp cp dp cmp lst rd er].
  unfold atEnd, pendingChars, StringBuilder.length, StringBuilder.toString in *.
  cbn in *. subst st iep.
  destruct cb as [|x w]; [| rewrite len_cons_eqb in Hc; discriminate].
  rewrite len_nil_eqb in Hc. cbn in Hc. subst cs.
  eexists. split; [reflexivity |]. cbn. rewrite len_nil_eqb. auto.
Qed.

(** X18: the end of the input is final: once the tokeniser is in the Data
    state with nothing pending and the reader at (or past) the end, every
    [read] returns EOF, without throwing and without running out of fuel,
    and leaves the tokeniser in such a state; the empty input starts
    there. *)
Theorem eof_is_sticky k n fuel :
  atEnd k ->
  exists k', reads (S (S fuel)) n k = Ret (repeat EOF n) k' /\ atEnd k'.
Proof.
  revert k. induction n as [|n IH]; intros k Hk; cbn [reads repeat].
  - exists k. split; [reflexivity | exact Hk].
  - destruct (read_at_end k fuel Hk) as (k1 & E1 & Hk1).
    destruct (IH k1 Hk1) as (k' & E' & Hk').
    exists k'. unfold bind at 1. rewrite E1. unfold bind at 1. rewrite E'.
    split; [reflexivity | exact Hk'].
Qed.

Lemma eof_is_sticky_witness :
  exists k', reads 2 3 (tokeniser []) = Ret [EOF; EOF; EOF] k' /\ atEnd k'.
Proof.
  apply (eof_is_sticky (tokeniser []) 3 0).
  repeat split. vm_compute. discriminate.
Defined.

Lemma findIndex_all_false {A} (p : A -> bool) l :
  Forall (fun x => p x = false) l -> findIndex p l = -1.
Proof.
  induction 1 as [|x l Hx _ IH]; cbn; [reflexivity |]. now rewrite Hx, IH.
Qed.

Lemma current_ahead r c rest :
  0 <= CharacterReader.bufPos r -> textAhead r = c :: rest ->
  CharacterReader.current r = Ret (Some c) r.
Proof.
  intros H0 Ht. unfold textAhead in Ht.
  assert (Hlt : CharacterReader.bufPos r < CharacterReader.bufLength r).
  { pose proof (f_equal (@length _) Ht) as Hl. rewrite length_skipn in Hl.
    cbn [length] in Hl. unfold CharacterReader.bufLength, len. lia. }
  unfold CharacterReader.current, CharacterReader.isEmptyNoBufferUp, CharacterReader.isEmpty,
    CharacterReader.getAtPos, bind, gets, ret.
  rewrite (proj2 (Z.leb_gt _ _) Hlt).
  destruct (at_index_in_bounds (CharacterReader.charBuf r) (CharacterReader.bufPos r))
    as (c' & -> & E); [unfold CharacterReader.bufLength in Hlt; lia |].
  rewrite E in Ht. now injection Ht as ->.
Qed.

(** With a character ahead the Data state takes its default case and emits
    what [consumeData] found, the empty string. *)
Lemma Data_text_ahead k c rest :
  0 <= CharacterReader.bufPos (Tokeniser.reader k) ->
  textAhead (Tokeniser.reader k) = c :: rest ->
  States.Data k = Tokeniser.emitString [] k.
Proof.
  destruct k as [st ep iep cs cb db tp sp edp cp dp cmp lst rd er].
  cbn [Tokeniser.reader].
  intros H0 Ht. unfold States.Data. unfold bind at 1.
  unfold Tokeniser.onReader, zoom. cbn [Tokeniser.reader].
  rewrite (current_ahead rd c rest H0 Ht).
  change (States.isCh (Some c) (C "&")) with false.
  change (States.isCh (Some c) (C "<")) with false.
  change (States.isNul (Some c)) with false.
  change (States.isEof (Some c)) with false.
  cbv iota. unfold bind at 1. cbn [Tokeniser.reader Tokeniser.set_reader].
  unfold CharacterReader.consumeData. rewrite consumeToAny_nothing.
  destruct rd; reflexivity.
Qed.

Lemma emitString_nil_settles k :
  exists k1 k2,
    Tokeniser.emitString [] k = Ret tt k1
    /\ Tokeniser.emitString [] k1 = Ret tt k2
    /\ Tokeniser.emitString [] k2 = Ret tt k2
    /\ Tokeniser.state k1 = Tokeniser.state k /\ Tokeniser.state k2 = Tokeniser.state k
    /\ Tokeniser.isEmitPending k1 = Tokeniser.isEmitPending k
    /\ Tokeniser.isEmitPending k2 = Tokeniser.isEmitPending k
    /\ Tokeniser.reader k1 = Tokeniser.reader k /\ Tokeniser.reader k2 = Tokeniser.reader k.
Proof.
  assert (Hstep : forall st ep iep cs cb db tp sp edp cp dp cmp lst rd er,
    Tokeniser.emitString []
      (Tokeniser.mk st ep iep cs cb db tp sp edp cp dp cmp lst rd er)
    = Ret tt (match cs with
              | None => Tokeniser.mk st ep iep (Some []) cb db tp sp edp cp dp cmp lst rd er
              | Some s =>
                  Tokeniser.mk st ep iep cs (match cb with [] => s | _ => cb end)
                               db tp sp edp cp dp cmp lst rd er
              end)).
  { intros. unfold Tokeniser.emitString, bind, get, modify, ret, when,
      StringBuilder.length, StringBuilder.append.
    destruct cs as [s|]; [| reflexivity].
    destruct cb as [|x w]; cbn [Tokeniser.charsString Tokeniser.charsBuilder];
      rewrite ?len_cons_eqb, ?len_nil_eqb; unfold Tokeniser.set_charsBuilder; cbn;
      rewrite ?app_nil_r; reflexivity. }
  destruct k as [st ep iep cs cb db tp sp edp cp dp cmp lst rd er].
  destruct cs as [s|].
  - destruct cb as [|x w]; [destruct s as [|y v] |];
      (eexists _, _; split; [apply Hstep |]; split; [apply Hstep |];
       split; [apply Hstep |]; repeat split).
  - destruct cb as [|x w];
      (eexists _, _; split; [apply Hstep |]; split; [apply Hstep |];
       split; [apply Hstep |]; repeat split).
Qed.

Lemma Data_text_diverges k c rest :
  Tokeniser.state k = TokeniserState.Data ->
  Tokeniser.isEmitPending k = false ->
  0 <= CharacterReader.bufPos (Tokeniser.reader k) ->
  textAhead (Tokeniser.reader k) = c :: rest ->
  forall fuel, read fuel k = Timeout.
Proof.
  intros Hst Hp H0 Ht.
  destruct (emitString_nil_settles k)
    as (k1 & k2 & E0 & E1 & E2 & S1 & S2 & P1 & P2 & R1 & R2).
  apply read_Timeout.
  apply (readLoop_next k k1); [exact Hp | |].
  { rewrite Hst. cbn [States.read]. now rewrite (Data_text_ahead k c rest). }
  apply (readLoop_next k1 k2); [congruence | |].
  { rewrite S1, Hst. cbn [States.read].
    rewrite (Data_text_ahead k1 c rest); [exact E1 | |]; rewrite ?R1; assumption. }
  apply readLoop_stuck; [congruence |].
  rewrite S2, Hst. cbn [States.read].
  rewrite (Data_text_ahead k2 c rest); [exact E2 | |]; rewrite ?R2; assumption.
Qed.

(** X19: plain text makes [read] run for ever: whenever the tokeniser is
    in the Data state with no token pending and the text from the cursor
    to the end of the input is not empty and holds none of the characters
    [&], [<] and NUL, [read] does not return, whatever the fuel:
    [consumeData] finds no delimiter, returns the empty string and leaves
    the cursor where it was.  Every input that is plain text is such a
    case at the first call. *)
Theorem data_plain_text_diverges k c rest :
  Tokeniser.state k = TokeniserState.Data ->
  Tokeniser.isEmitPending k = false ->
  0 <= CharacterReader.bufPos (Tokeniser.reader k) ->
  textAhead (Tokeniser.reader k) = c :: rest ->
  Forall (fun x => includes dataDelimiters x = false) (c :: rest) ->
  forall fuel, read fuel k = Timeout.
Proof.
  intros Hst Hp H0 Ht _. now apply (Data_text_diverges k c rest).
Qed.

Lemma data_plain_text_diverges_witness :
  read 1000 (tokeniser (js "Hello, world")) = Timeout.
Proof.
  apply (data_plain_text_diverges (tokeniser (js "Hello, world")) (C "H") (js "ello, world"));
    [reflexivity | reflexivity | cbn; lia | reflexivity |].
  repeat constructor.
Defined.

(** ** What [read] keeps *)

Lemma preserves_undiscard {S A} (P : S -> Prop) (m : M S A) :
  preserves P (discard m) -> preserves P m.
Proof.
  intros H s Hs a s' E. apply (H s Hs tt s'). unfold discard, bind, ret. now rewrite E.
Qed.

Lemma preserves_and {S A} (P Q : S -> Prop) (m : M S A) :
  preserves P m -> preserves Q m -> preserves (fun s => P s /\ Q s) m.
Proof. intros HP HQ s [Hp Hq] a s' E. split; [eapply HP | eapply HQ]; eauto. Qed.

Lemma perform_kept input op : preserves (readerKept input) (perform op).
Proof. apply preserves_and; [apply perform_inv | apply perform_cacheInRange]. Qed.

Section ReaderKept.
Variable input : jsstring.

Lemma advance_kept : preserves (readerKept input) CharacterReader.advance.
Proof. exact (perform_kept input OpAdvance). Qed.
Lemma unconsume_kept : preserves (readerKept input) CharacterReader.unconsume.
Proof. exact (perform_kept input OpUnconsume). Qed.
Lemma consume_kept : preserves (readerKept input) CharacterReader.consume.
Proof. exact (preserves_undiscard _ _ (perform_kept input OpConsume)). Qed.
Lemma current_kept : preserves (readerKept input) CharacterReader.current.
Proof. exact (preserves_undiscard _ _ (perform_kept input OpCurrent)). Qed.
Lemma isEmpty_kept : preserves (readerKept input) CharacterReader.isEmpty.
Proof. exact (preserves_undiscard _ _ (perform_kept input OpIsEmpty)). Qed.
Lemma pos_kept : preserves (readerKept input) CharacterReader.pos.
Proof. exact (preserves_undiscard _ _ (perform_kept input OpPos)). Qed.
Lemma matches_kept seq : preserves (readerKept input) (CharacterReader.matches seq).
Proof. exact (preserves_undiscard _ _ (perform_kept input (OpMatches seq))). Qed.
Lemma matchesAny_kept seq : preserves (readerKept input) (CharacterReader.matchesAny seq).
Proof. exact (preserves_undiscard _ _ (perform_kept input (OpMatchesAny seq))). Qed.
Lemma matchesLetter_kept : preserves (readerKept input) CharacterReader.matchesLetter.
Proof. exact (preserves_undiscard _ _ (perform_kept input OpMatchesLetter)). Qed.
Lemma matchConsume_kept seq : preserves (readerKept input) (CharacterReader.matchConsume seq).
Proof. exact (preserves_undiscard _ _ (perform_kept input (OpMatchConsume seq))). Qed.
Lemma containsIgnoreCase_kept seq : preserves (readerKept input) (CharacterReader.containsIgnoreCase seq).
Proof. exact (preserves_undiscard _ _ (perform_kept input (OpContainsIgnoreCase seq))). Qed.
Lemma consumeTo_kept seq : preserves (readerKept input) (CharacterReader.consumeTo seq).
Proof. exact (preserves_undiscard _ _ (perform_kept input (OpConsumeTo seq))). Qed.
Lemma consumeToAny_kept chars : preserves (readerKept input) (CharacterReader.consumeToAny chars).
Proof. intros r Hr a r' H. rewrite consumeToAny_nothing in H. now injection H as <- <-. Qed.
Lemma consumeToAnySorted_kept chars : preserves (readerKept input) (CharacterReader.consumeToAnySorted chars).
Proof. apply consumeToAny_kept. Qed.
Lemma consumeData_kept : preserves (readerKept input) CharacterReader.consumeData.
Proof. exact (preserves_undiscard _ _ (perform_kept input OpConsumeData)). Qed.
Lemma consumeRawData_kept : preserves (readerKept input) CharacterReader.consumeRawData.
Proof. exact (preserves_undiscard _ _ (perform_kept input OpConsumeRawData)). Qed.
Lemma consumeTagName_kept : preserves (readerKept input) CharacterReader.consumeTagName.
Proof. exact (preserves_undiscard _ _ (perform_kept input OpConsumeTagName)). Qed.
Lemma consumeLetterSequence_kept : preserves (readerKept input) CharacterReader.consumeLetterSequence.
Proof. exact (preserves_undiscard _ _ (perform_kept input OpConsumeLetterSequence)). Qed.
Lemma consumeAttributeQuoted_kept single : preserves (readerKept input) (CharacterReader.consumeAttributeQuoted single).
Proof.
  exact (preserves_undiscard _ _ (perform_kept input (OpConsumeAttributeQuoted single))).
Qed.

Lemma matchConsumeIgnoreCase_kept seq : preserves (readerKept input) (CharacterReader.matchConsumeIgnoreCase seq).
Proof. apply preserves_throw. Qed.

Lemma matchesAnyString_kept seq : preserves (readerKept input) (CharacterReader.matchesAnyString seq).
Proof.
  unfold CharacterReader.matchesAnyString.
  repeat first [ apply isEmpty_kept | inv_step ].
Qed.
End ReaderKept.

Create HintDb kept discriminated.
#[local] Hint Resolve advance_kept unconsume_kept consume_kept current_kept isEmpty_kept
  pos_kept matches_kept matchesAny_kept matchesLetter_kept matchConsume_kept
  containsIgnoreCase_kept consumeTo_kept consumeToAny_kept consumeToAnySorted_kept
  consumeData_kept consumeRawData_kept consumeTagName_kept consumeLetterSequence_kept
  consumeAttributeQuoted_kept matchConsumeIgnoreCase_kept matchesAnyString_kept : kept.

Section TokeniserKept.
Import Tokeniser.
Variable input : jsstring.
Variable errors0 : ParseErrorList.t.

Ltac kept_modify :=
  apply preserves_modify; let Hk := fresh "Hk" in intros [] Hk; exact Hk.
Ltac kept_step := first [ inv_step | solve [ auto with kept ] | kept_modify ].

Lemma onReader_kept {A} (m : M CharacterReader.t A) :
  preserves (readerKept input) m -> preserves (tokeniserKept input errors0) (onReader m).
Proof.
  intros Hm. apply (preserves_zoom_inv _ (readerKept input)); [exact Hm | |].
  - intros s (H & _). exact H.
  - intros t [] (_ & H2 & H3 & H4) Ht.
    split; [exact Ht | split; [exact H2 | split; [exact H3 | exact H4]]].
Qed.

Lemma onComment_kept {A} (m : M Comment.t A) : preserves (tokeniserKept input errors0) (onComment m).
Proof. apply preserves_zoom. intros t [] H; exact H. Qed.

Lemma onDoctype_kept {A} (m : M Doctype.t A) : preserves (tokeniserKept input errors0) (onDoctype m).
Proof. apply preserves_zoom. intros t [] H; exact H. Qed.

Lemma onTagRef_kept {A} r (m : M Tag.t A) : preserves (tokeniserKept input errors0) (onTagRef r m).
Proof. destruct r; apply preserves_zoom; intros t [] H; exact H. Qed.

Lemma onTagPending_kept {A} (m : M Tag.t A) : preserves (tokeniserKept input errors0) (onTagPending m).
Proof. unfold onTagPending. repeat inv_step. apply onTagRef_kept. Qed.

Lemma push_kept p msg k :
  tokeniserKept input errors0 k ->
  ParseErrorList.canAddError (Tokeniser.errors k) = true ->
  tokeniserKept input errors0
    (set_errors (ParseErrorList.push (mkParseError p msg) (Tokeniser.errors k)) k).
Proof.
  destruct k as [st ep iep cs cb db tp sp edp cp dp cmp lst rd er].
  intros (Hr & (He1 & [more He2] & He3) & Hc & Hp) Hcan.
  unfold ParseErrorList.canAddError in Hcan. cbn in *. apply Z.ltb_lt in Hcan.
  split; [exact Hr |]. split; [| split; [exact Hc | exact Hp]].
  split; [exact He1 |]. split.
  - exists (more ++ [mkParseError p msg]). cbn. rewrite He2. now rewrite app_assoc.
  - cbn. unfold len in *. rewrite length_app. cbn [length]. lia.
Qed.

Lemma pushError_kept msg : preserves (tokeniserKept input errors0) (pushError msg).
Proof.
  intros k Hk a k' H. unfold pushError, bind, get, when in H.
  destruct (ParseErrorList.canAddError (Tokeniser.errors k)) eqn:Ec.
  - unfold onReader, zoom, CharacterReader.pos, gets, modify in H. injection H as <- <-.
    replace (set_reader (reader k) k) with k by (destruct k; reflexivity).
    now apply push_kept.
  - injection H as <- <-. exact Hk.
Qed.

Lemma error_kept st : preserves (tokeniserKept input errors0) (error st).
Proof.
  intros k Hk a k' H. unfold error, bind, get, when in H.
  destruct (ParseErrorList.canAddError (Tokeniser.errors k)) eqn:Ec.
  - unfold onReader, zoom in H.
    destruct (CharacterReader.current (reader k)) as [c r1| |] eqn:E1; [| discriminate ..].
    assert (r1 = reader k) as ->.
    { revert E1. unfold CharacterReader.current, CharacterReader.isEmptyNoBufferUp,
        CharacterReader.isEmpty, CharacterReader.getAtPos, bind, gets, ret.
      destruct (_ <=? _); congruence. }
    unfold CharacterReader.pos, gets, modify in H. cbn in H. injection H as <- <-.
    replace (set_reader (reader k) (set_reader (reader k) k)) with k
      by (destruct k; reflexivity).
    now apply push_kept.
  - injection H as <- <-. exact Hk.
Qed.

Lemma errorMessage_kept msg : preserves (tokeniserKept input errors0) (errorMessage msg).
Proof. apply pushError_kept. Qed.

Lemma eofError_kept st : preserves (tokeniserKept input errors0) (eofError st).
Proof. apply pushError_kept. Qed.

Lemma typeOf_kept r : preserves (tokeniserKept input errors0) (typeOf r).
Proof. unfold typeOf. repeat inv_step. Qed.

Lemma emitToken_kept token : preserves (tokeniserKept input errors0) (emitToken token).
Proof.
  intros k Hk a k' H. unfold emitToken in H.
  apply bind_Ret in H as (p & k1 & H1 & H). injection H1 as <- <-.
  apply bind_Ret in H as ([] & k2 & H2 & H).
  assert (k2 = k) as ->.
  { revert H2. unfold Assert.isFalse, ret, throw. destruct (negb _); congruence. }
  apply bind_Ret in H as ([] & k3 & H3 & H). injection H3 as <-.
  apply bind_Ret in H as ([] & k4 & H4 & H). injection H4 as <-.
  revert H.
  assert (Hrest : preserves (tokeniserKept input errors0) (ty <- typeOf token ;;
                      match ty, token with
                      | TypeStartTag, TagToken r =>
                          name <- onTagRef r Tag.get_tagName ;;
                          modify (set_lastStartTag (Some name))
                      | TypeEndTag, TagToken r =>
                          k <- get ;;
                          when (Tag.hasAttributes (tagOf r k))
                               (errorMessage "Attributes incorrectly present on end tag")
                      | _, _ => ret tt
                      end)).
  { repeat first [ inv_step | apply typeOf_kept | apply errorMessage_kept
                 | apply onTagRef_kept | kept_modify ]. }
  apply Hrest.
  destruct k as [st ep iep cs cb db tp sp edp cp dp cmp lst rd er].
  destruct Hk as (Hr & He & Hc & Hp).
  split; [exact Hr |]. split; [exact He |]. split; [exact Hc |].
  cbn. discriminate.
Qed.

Lemma emitString_kept str : preserves (tokeniserKept input errors0) (emitString str).
Proof.
  intros k (Hr & He & Hc & Hp) a k' H.
  destruct (emitString_step str k Hc) as (k1 & E & Hc1 & _ & _ & Hi & Hep & Hrd).
  rewrite E in H. injection H as <- <-.
  assert (Her : errors k1 = errors k).
  { revert E. destruct k as [st ep iep cs cb db tp sp edp cp dp cmp lst rd er].
    unfold emitString, bind, get, modify, ret, when. cbn.
    destruct cs; [destruct (_ =? _) |]; cbn; intros [= <-]; reflexivity. }
  split; [now rewrite Hrd |]. split; [now rewrite Her |]. split; [exact Hc1 |].
  rewrite Hi, Hep. assumption.
Qed.

Lemma emitChars_kept chars : preserves (tokeniserKept input errors0) (emitChars chars).
Proof. apply emitString_kept. Qed.

Lemma transition_kept st : preserves (tokeniserKept input errors0) (transition st).
Proof. unfold transition. kept_modify. Qed.

Lemma advanceTransition_kept st : preserves (tokeniserKept input errors0) (advanceTransition st).
Proof.
  unfold advanceTransition.
  repeat first [ inv_step | apply onReader_kept, advance_kept | kept_modify ].
Qed.

Lemma createTagPending_kept start : preserves (tokeniserKept input errors0) (createTagPending start).
Proof.
  unfold createTagPending. repeat first [ inv_step | apply onTagRef_kept | kept_modify ].
Qed.

Lemma emitTagPending_kept : preserves (tokeniserKept input errors0) emitTagPending.
Proof.
  unfold emitTagPending.
  repeat first [ inv_step | apply onTagPending_kept | apply emitToken_kept ].
Qed.

Lemma createCommentPending_kept : preserves (tokeniserKept input errors0) createCommentPending.
Proof. apply onComment_kept. Qed.

Lemma emitCommentPending_kept : preserves (tokeniserKept input errors0) emitCommentPending.
Proof. apply emitToken_kept. Qed.

Lemma createBogusCommentPending_kept : preserves (tokeniserKept input errors0) createBogusCommentPending.
Proof. unfold createBogusCommentPending. repeat first [ inv_step | apply onComment_kept ]. Qed.

Lemma createDoctypePending_kept : preserves (tokeniserKept input errors0) createDoctypePending.
Proof. apply onDoctype_kept. Qed.

Lemma emitDoctypePending_kept : preserves (tokeniserKept input errors0) emitDoctypePending.
Proof. apply emitToken_kept. Qed.

Lemma createTempBuffer_kept : preserves (tokeniserKept input errors0) createTempBuffer.
Proof. unfold createTempBuffer. kept_modify. Qed.

Lemma isAppropriateEndTagToken_kept : preserves (tokeniserKept input errors0) isAppropriateEndTagToken.
Proof.
  unfold isAppropriateEndTagToken. repeat first [ inv_step | apply onTagPending_kept ].
Qed.

Lemma appropriateEndTagName_kept : preserves (tokeniserKept input errors0) appropriateEndTagName.
Proof. apply preserves_gets. Qed.

Lemma consumeCharacterReference_kept a b : preserves (tokeniserKept input errors0) (consumeCharacterReference a b).
Proof. apply preserves_throw. Qed.

Lemma str_kept c : preserves (tokeniserKept input errors0) (States.str c).
Proof. unfold States.str. repeat inv_step. Qed.

Lemma appendData_kept s : preserves (tokeniserKept input errors0) (States.appendData s).
Proof. unfold States.appendData. kept_modify. Qed.

Lemma charAt0_kept c : preserves (tokeniserKept input errors0) (States.charAt0 c).
Proof. unfold States.charAt0. repeat inv_step. Qed.

Lemma appendAttributeValueChar_kept c :
  preserves (tokeniserKept input errors0) (States.appendAttributeValueChar c).
Proof.
  unfold States.appendAttributeValueChar.
  repeat first [ inv_step | apply onTagPending_kept ].
Qed.

Lemma gets_kept {A} (f : Tokeniser.t -> A) : preserves (tokeniserKept input errors0) (gets f).
Proof. apply preserves_gets. Qed.
End TokeniserKept.

#[local] Hint Resolve onReader_kept onComment_kept onDoctype_kept onTagPending_kept
  error_kept errorMessage_kept eofError_kept emitToken_kept emitString_kept emitChars_kept
  transition_kept advanceTransition_kept createTagPending_kept emitTagPending_kept
  createCommentPending_kept emitCommentPending_kept createBogusCommentPending_kept
  createDoctypePending_kept emitDoctypePending_kept createTempBuffer_kept
  isAppropriateEndTagToken_kept appropriateEndTagName_kept consumeCharacterReference_kept
  str_kept appendData_kept gets_kept charAt0_kept appendAttributeValueChar_kept : kept.

Ltac kept_state_step := first [ inv_step | solve [ auto with kept ] ].

Lemma state_read_kept input errors0 st :
  preserves (tokeniserKept input errors0) (States.read st).
Proof.
  destruct st; cbn [States.read]; autounfold with states; repeat kept_state_step.
Qed.

Lemma readLoop_kept input errors0 fuel :
  preserves (tokeniserKept input errors0) (readLoop fuel).
Proof.
  induction fuel as [|fuel IH]; cbn [readLoop].
  - intros k _ a k' [=].
  - repeat first [ exact IH | apply state_read_kept | inv_step ].
Qed.

Lemma readEmit_kept input errors0 : preserves (tokeniserKept input errors0) readEmit.
Proof.
  intros [st ep iep cs cb db tp sp edp cp dp cmp lst rd er] (Hr & He & Hc & Hp) tok k'.
  unfold readEmit, bind, get, modify, ret, throw, StringBuilder.length. cbn.
  destruct cb as [|x w]; rewrite ?len_cons_eqb, ?len_nil_eqb; cbn;
    repeat case_match; intros [= <- <-];
    (split; [exact Hr |]; split; [exact He |]; split; [| cbn; auto; discriminate]);
    unfold charsOk; cbn; auto.
Qed.

Lemma read_kept input errors0 fuel : preserves (tokeniserKept input errors0) (read fuel).
Proof.
  unfold read. apply preserves_bind; [apply readLoop_kept | intros ?; apply readEmit_kept].
Qed.

Lemma reads_kept input errors0 fuel n : preserves (tokeniserKept input errors0) (reads fuel n).
Proof.
  induction n as [|n IH]; cbn [reads].
  - apply preserves_ret.
  - repeat first [ exact IH | apply read_kept | inv_step ].
Qed.

Lemma tokeniser_new_kept errors input : tokeniserKept input errors (tokeniserWith errors input).
Proof.
  split; [split; [apply new_inv |] |].
  - intros i [s Hs]. cbn in Hs. rewrite lookup_empty in Hs. discriminate.
  - split; [| split; [intros _; reflexivity | discriminate]].
    split; [reflexivity |]. split; [exists []; cbn; now rewrite app_nil_r | cbn; lia].
Qed.

(** X20: the callbacks and [read] keep the tokeniser sound.  A tokeniser
    made by the constructor is sound: its reader holds the input text, the
    cursor is not negative, no mark is set and the string cache is within
    its 512 slots; the error list is the one passed in with errors added at
    its end, its cap unchanged and its length never above the larger of its
    initial length and the cap; the character builder is only used once the
    one-shot string is set; and a token is recorded whenever one is flagged
    as pending.  Every state callback that returns, and every run of calls
    of [read] that return, takes a sound tokeniser to a sound one. *)
Theorem reads_keep_tokeniser input errors :
  tokeniserKept input errors (tokeniserWith errors input)
  /\ (forall st k k',
        tokeniserKept input errors k ->
        States.read st k = Ret tt k' ->
        tokeniserKept input errors k')
  /\ (forall fuel n k toks k',
        tokeniserKept input errors k ->
        reads fuel n k = Ret toks k' ->
        tokeniserKept input errors k').
Proof.
  split; [apply tokeniser_new_kept |]. split.
  - intros st k k' Hk H. exact (state_read_kept input errors st k Hk tt k' H).
  - intros fuel n k toks k' Hk H. exact (reads_kept input errors fuel n k Hk toks k' H).
Qed.

Lemma reads_keep_tokeniser_witness :
  tokeniserKept (js "ab>") (ParseErrorList.tracking 1) tagNameStart
  /\ tokeniserKept (js "ab>") (ParseErrorList.tracking 1) tagNameRead
  /\ tokeniserKept (js "ab>") (ParseErrorList.tracking 1) tagNameEmitted
  /\ tokeniserKept (js "ab>") (ParseErrorList.tracking 1)
       (default tagNameEmitted (final (reads 10 2 tagNameEmitted))).
Proof.
  assert (H0 : tokeniserKept (js "ab>") (ParseErrorList.tracking 1) tagNameStart).
  { apply (proj1 (proj2 (reads_keep_tokeniser (js "ab>") (ParseErrorList.tracking 1)))
             TokeniserState.TagOpen
             (tokeniserWith (ParseErrorList.tracking 1) (js "ab>"))).
    - apply (proj1 (reads_keep_tokeniser (js "ab>") (ParseErrorList.tracking 1))).
    - vm_compute. reflexivity. }
  assert (H1 : tokeniserKept (js "ab>") (ParseErrorList.tracking 1) tagNameRead).
  { apply (proj1 (proj2 (reads_keep_tokeniser (js "ab>") (ParseErrorList.tracking 1)))
             TokeniserState.TagName tagNameStart); [exact H0 | vm_compute; reflexivity]. }
  assert (H2 : tokeniserKept (js "ab>") (ParseErrorList.tracking 1) tagNameEmitted).
  { apply (proj1 (proj2 (reads_keep_tokeniser (js "ab>") (ParseErrorList.tracking 1)))
             TokeniserState.BeforeAttributeValue tagNameRead);
      [exact H1 | vm_compute; reflexivity]. }
  split; [exact H0 |]. split; [exact H1 |]. split; [exact H2 |].
  apply (proj2 (proj2 (reads_keep_tokeniser (js "ab>") (ParseErrorList.tracking 1)))
           10%nat 2%nat tagNameEmitted
           (default [] (returned (reads 10 2 tagNameEmitted))));
    [exact H2 | vm_compute; reflexivity].
Defined.

(** The run of the witness: the callbacks leave the tag name as the cache
    built it, and the two calls of [read] return the start tag and EOF. *)
Example tag_name_run :
  exists g k,
    reads 10 2 tagNameEmitted = Ret [StartTag g; EOF] k
    /\ Tag.tagName g = Some (js "a,b>")
    /\ CharacterReader.bufPos (Tokeniser.reader k) = 4
    /\ len (ParseErrorList.errors (Tokeniser.errors k)) = 1.
Proof. eexists _, _. vm_compute. repeat split; reflexivity. Qed.

(** ** More on the character reader *)

Lemma join_nil l : join [] l = l.
Proof.
  induction l as [|c l IH]; [reflexivity |].
  destruct l as [|d l]; [reflexivity |]. cbn [join app] in *. now rewrite IH.
Qed.

(** X22: [toString] does not return the rest of the input: on a reader
    whose cursor is not negative it returns the text from the cursor cut
    to [length - 2 * cursor] characters (the second argument of [slice] is
    an end index); that is the remaining text only while the cursor is at
    0 or nothing remains. *)
Theorem toString_cuts_tail r :
  0 <= CharacterReader.bufPos r ->
  CharacterReader.toString r
  = Ret (firstn (Z.to_nat (CharacterReader.bufLength r - 2 * CharacterReader.bufPos r))
                (textAhead r)) r.
Proof.
  intros H0. unfold CharacterReader.toString, bind, get, ret, textAhead,
    CharacterReader.bufLength.
  set (n := len (CharacterReader.charBuf r)). set (p := CharacterReader.bufPos r) in *.
  destruct (n - p <? 0) eqn:E.
  - apply Z.ltb_lt in E. rewrite skipn_all2 by (unfold n, len in *; lia).
    now rewrite firstn_nil.
  - apply Z.ltb_ge in E. rewrite join_nil. unfold slice. fold n.
    destruct (p <? 0) eqn:E1; [apply Z.ltb_lt in E1; lia |].
    destruct (n - p <? 0) eqn:E2; [apply Z.ltb_lt in E2; lia |].
    replace (Z.min p n) with p by lia.
    replace (Z.min (n - p) n - p) with (n - 2 * p) by lia. reflexivity.
Qed.

Lemma toString_cuts_tail_witness :
  CharacterReader.toString (CharacterReader.set_bufPos 2 (CharacterReader.new (js "abcdef")))
  = Ret (js "cd") (CharacterReader.set_bufPos 2 (CharacterReader.new (js "abcdef"))).
Proof.
  apply (toString_cuts_tail (CharacterReader.set_bufPos 2 (CharacterReader.new (js "abcdef")))).
  cbn. lia.
Defined.

Lemma nextIndexOf_occurs seq r :
  0 <= CharacterReader.bufPos r <= CharacterReader.bufLength r ->
  exists a, CharacterReader.nextIndexOf seq r = Ret a r
            /\ -1 <= a
            /\ ((-1 <? a) = true <-> occursIn seq (textAhead r)).
Proof.
  intros [H0 H1]. unfold CharacterReader.nextIndexOf, bind, get, ret, indexOf.
  unfold CharacterReader.bufLength in H1.
  rewrite Z.max_l, Z.min_l by lia. fold (textAhead r).
  destruct (indexOf_scan_spec seq (textAhead r) (CharacterReader.bufPos r))
    as [(Hn & Hall)|(d & Hd & Hle & Hs & Hall)].
  - rewrite Hn. eexists. split; [reflexivity |]. cbn. split; [lia |].
    split; [discriminate |]. intros [j Hj]. rewrite Hall in Hj. discriminate.
  - rewrite Hd.
    destruct (CharacterReader.bufPos r + Z.of_nat d =? -1) eqn:E;
      [apply Z.eqb_eq in E; lia |].
    eexists. split; [reflexivity |]. split; [lia |].
    split; [intros _; now exists d | intros _; apply Z.ltb_lt; lia].
Qed.

(** X23: [containsIgnoreCase] only finds consistent case: on a reader
    whose cursor lies within the input it returns, without moving the
    cursor, true exactly when the lower-cased or the upper-cased search
    string occurs in the text ahead; an occurrence in mixed case is not
    found.  (Stated for ASCII search strings, on which the embedding of
    [toLowerCase] and [toUpperCase] is exact.) *)
Theorem containsIgnoreCase_consistent_case seq r :
  Forall (fun c => (c < 128)%N) seq ->
  0 <= CharacterReader.bufPos r <= CharacterReader.bufLength r ->
  exists b,
    CharacterReader.containsIgnoreCase seq r = Ret b r
    /\ (b = true <-> occursIn (toLowerCase seq) (textAhead r)
                     \/ occursIn (toUpperCase seq) (textAhead r)).
Proof.
  intros _ Hr. unfold CharacterReader.containsIgnoreCase, bind.
  destruct (nextIndexOf_occurs (toLowerCase seq) r Hr) as (a & -> & _ & Ha).
  destruct (-1 <? a) eqn:Ea.
  - exists true. split; [reflexivity |]. split; [intros _; left; now apply Ha | reflexivity].
  - destruct (nextIndexOf_occurs (toUpperCase seq) r Hr) as (b & -> & _ & Hb).
    exists (-1 <? b). split; [reflexivity |]. split.
    + intros H. right. now apply Hb.
    + intros [H|H]; [apply Ha in H; discriminate | now apply Hb].
Qed.

Lemma containsIgnoreCase_consistent_case_witness :
  exists b,
    CharacterReader.containsIgnoreCase (js "</title") (CharacterReader.new (js "a</Title>"))
    = Ret b (CharacterReader.new (js "a</Title>"))
    /\ (b = true <-> occursIn (toLowerCase (js "</title"))
                              (textAhead (CharacterReader.new (js "a</Title>")))
                     \/ occursIn (toUpperCase (js "</title"))
                                 (textAhead (CharacterReader.new (js "a</Title>")))).
Proof.
  apply (containsIgnoreCase_consistent_case (js "</title") (CharacterReader.new (js "a</Title>"))).
  - repeat constructor.
  - split; vm_compute; discriminate.
Defined.

(** ** More on tokens and states *)

Lemma replace_first_split pat by_ pre post :
  Forall (fun c => c <> pat) pre ->
  replace_first pat by_ (pre ++ pat :: post) = pre ++ by_ ++ post.
Proof.
  induction 1 as [|c pre Hc _ IH]; cbn.
  - now rewrite N.eqb_refl.
  - rewrite (proj2 (N.eqb_neq c pat) Hc). now rewrite IH.
Qed.

Lemma replace_first_absent pat by_ s :
  Forall (fun c => c <> pat) s -> replace_first pat by_ s = s.
Proof.
  induction 1 as [|c s Hc _ IH]; cbn; [reflexivity |].
  rewrite (proj2 (N.eqb_neq c pat) Hc). now rewrite IH.
Qed.

(** X24: tag and attribute names keep every NUL but the first of an
    appended chunk: [appendTagName] and [appendAttributeName] replace the
    first NUL of the chunk by U+FFFD and append the rest unchanged, further
    NULs included; a chunk without NUL is appended as it is. *)
Theorem names_replace_first_nul_only g pre post :
  Forall (fun c => c <> nullChar) pre ->
  Tag.appendTagName (pre ++ nullChar :: post) g
  = Ret tt (Tag.set_tagName_field
              (Some (default [] (Tag.tagName g) ++ pre ++ replacementChar :: post)) g)
  /\ Tag.appendAttributeName (pre ++ nullChar :: post) g
     = Ret tt (Tag.set_pendingAttributeName
                 (Some (default [] (Tag.pendingAttributeName g)
                        ++ pre ++ replacementChar :: post)) g)
  /\ Tag.appendTagName pre g
     = Ret tt (Tag.set_tagName_field (Some (default [] (Tag.tagName g) ++ pre)) g)
  /\ Tag.appendAttributeName pre g
     = Ret tt (Tag.set_pendingAttributeName
                 (Some (default [] (Tag.pendingAttributeName g) ++ pre)) g).
Proof.
  intros Hpre. unfold Tag.appendTagName, Tag.appendAttributeName, modify, replacementStr.
  rewrite (replace_first_split _ _ _ _ Hpre), (replace_first_absent _ _ _ Hpre).
  destruct (Tag.tagName g), (Tag.pendingAttributeName g); repeat split.
Qed.

Lemma names_replace_first_nul_only_witness :
  Tag.appendAttributeName (js "a" ++ nullChar :: nullChar :: js "b") Tag.new
  = Ret tt (Tag.set_pendingAttributeName
              (Some (js "a" ++ replacementChar :: nullChar :: js "b")) Tag.new).
Proof.
  apply (names_replace_first_nul_only Tag.new (js "a") (nullChar :: js "b")).
  repeat constructor; discriminate.
Defined.

(** X25: any character ahead makes [read] run for ever.  Whenever the
    tokeniser is in the Data state with no token pending and the cursor is
    on a character of the input, whichever it is ([&], [<] and NUL
    included), [read] does not return and does not throw, whatever the
    fuel: the labels of the state's [switch] are strings and the scrutinee
    is a [Char] object, so the default case runs, and [consumeData]
    returns the empty string without moving the cursor.  So [read] on a
    tokeniser made by the constructor returns on the empty input only. *)
Theorem read_diverges_on_text :
  (forall k c rest,
      Tokeniser.state k = TokeniserState.Data ->
      Tokeniser.isEmitPending k = false ->
      0 <= CharacterReader.bufPos (Tokeniser.reader k) ->
      textAhead (Tokeniser.reader k) = c :: rest ->
      forall fuel, read fuel k = Timeout)
  /\ (forall errors input fuel,
        input <> [] -> read fuel (tokeniserWith errors input) = Timeout).
Proof.
  split; [exact Data_text_diverges |].
  intros errors [|c rest] fuel Hne; [congruence |].
  apply (Data_text_diverges (tokeniserWith errors (c :: rest)) c rest);
    [reflexivity | reflexivity | cbn; lia | reflexivity].
Qed.

Lemma read_diverges_on_text_witness :
  read 1000 (Tokeniser.set_lastStartTag (Some (js "a")) (tokeniser (js "&amp;"))) = Timeout
  /\ read 1000 (tokeniserWith (ParseErrorList.tracking 1) (js "<b>" ++ [nullChar])) = Timeout.
Proof.
  split.
  - apply (proj1 read_diverges_on_text
             (Tokeniser.set_lastStartTag (Some (js "a")) (tokeniser (js "&amp;")))
             (C "&") (js "amp;"));
      [reflexivity | reflexivity | cbn; lia | reflexivity].
  - apply (proj2 read_diverges_on_text (ParseErrorList.tracking 1) (js "<b>" ++ [nullChar])).
    discriminate.
Defined.

(** X26: a run of NULs is not passed through.  On an input made of one or
    more NUL characters the callback of the Data state does not take the
    case of [TokeniserState.nullChar]: it returns with the cursor still on
    the first NUL, the error list as it was passed in and no token
    pending, and [read] never returns, whatever the fuel. *)
Theorem nul_run_diverges errors n :
  (forall fuel, read fuel (tokeniserWith errors (repeat nullChar (S n))) = Timeout)
  /\ exists k',
       States.read TokeniserState.Data (tokeniserWith errors (repeat nullChar (S n)))
       = Ret tt k'
       /\ Tokeniser.reader k' = CharacterReader.new (repeat nullChar (S n))
       /\ Tokeniser.errors k' = errors
       /\ Tokeniser.isEmitPending k' = false
       /\ Tokeniser.state k' = TokeniserState.Data.
Proof.
  split.
  - apply (Data_text_diverges _ nullChar (repeat nullChar n));
      [reflexivity | reflexivity | cbn; lia | reflexivity].
  - cbn [States.read].
    rewrite (Data_text_ahead _ nullChar (repeat nullChar n)); [| cbn; lia | reflexivity].
    eexists. split; [reflexivity |]. cbn. auto.
Qed.

(** ** Callbacks that throw *)



(** X28: the raw-text states do not see the end of the input: their
    [switch] is over [r.current().charAt(0)], and at the end of the input
    [r.current()] is [undefined], so the callbacks of Rawtext and
    ScriptData throw a TypeError where they are to emit EOF. *)
Theorem raw_text_throws_at_end k :
  CharacterReader.bufLength (Tokeniser.reader k)
  <= CharacterReader.bufPos (Tokeniser.reader k) ->
  States.read TokeniserState.Rawtext k = Throw (TypeError "charAt of undefined")
  /\ States.read TokeniserState.ScriptData k = Throw (TypeError "charAt of undefined").
Proof.
  intros Hr.
  assert (H : forall current advance,
             States.readRawData current advance k = Throw (TypeError "charAt of undefined")).
  { intros current advance. unfold States.readRawData. unfold bind at 1.
    unfold Tokeniser.onReader at 1, zoom. now rewrite (current_at_end _ Hr). }
  split; apply H.
Qed.

Lemma raw_text_throws_at_end_witness :
  States.read TokeniserState.Rawtext (tokeniser []) = Throw (TypeError "charAt of undefined")
  /\ States.read TokeniserState.ScriptData (tokeniser [])
     = Throw (TypeError "charAt of undefined").
Proof.
  apply (raw_text_throws_at_end (tokeniser [])). vm_compute. discriminate.
Defined.

(** ** More on attribute lists *)

(** X27: [remove] undoes [add]: when the trimmed name is not yet a key
    of the list, adding an attribute under the name and removing the
    trimmed name gives the list back. *)
Theorem remove_after_add name value a :
  AttributesOps.hasKey (trim name) a = false ->
  AttributesOps.remove (trim name) (Attributes.add name value a) = a.
Proof.
  unfold Attributes.add. induction a as [|x l IH]; intros H.
  - cbn [app]. rewrite remove_cons. cbn. now rewrite jsstring_eqb_refl.
  - rewrite hasKey_cons in H. apply orb_false_iff in H as [Hx Hl].
    cbn [app]. rewrite remove_cons, Hx. now rewrite (IH Hl).
Qed.

Lemma remove_after_add_witness :
  AttributesOps.remove (trim (js " id "))
    (Attributes.add (js " id ") (Some (js "1")) [Attribute.mk (js "class") (js "x")])
  = [Attribute.mk (js "class") (js "x")].
Proof.
  apply (remove_after_add (js " id ") (Some (js "1")) [Attribute.mk (js "class") (js "x")]).
  reflexivity.
Defined.
